(** * Key custody and chunked authenticated encryption: a shallow embedding

    This development embeds the core of the secure file splitter
    (src/utils/keyManager.ts with its [SecureKeyManager] and
    [SecureCryptoUtils] classes, src/services/fileEncryptionService.ts and
    src/services/fileReconstructionService.ts) and proves the properties
    the specification states about it. It goes on to the code around
    that core: the earlier [encryptFile], the archive paths of the
    reconstruction, utils/downloadManager.ts, and the reconstruction
    handler of components/FileUploader.tsx.

    Conventions of the embedding.
    - A [Uint8Array] is a [list byte]; a JavaScript string is a [string]
      holding its UTF-8 bytes, so that [TextEncoder.encode] lists its
      characters. The string functions below are JavaScript's on ASCII
      text, which is all the code itself produces.
    - The platform crypto provider ([crypto.subtle]) is an interface, the
      class [WebCrypto]; its laws are stated as hypotheses of the theorems
      that need them.
    - [crypto.getRandomValues] reads an explicit entropy source,
      [Date.now()] is an explicit argument.
    - A thrown [Error] is a value of type [Error]; an [async] function
      that may throw returns a [Result].
    - [JSON.stringify] followed by [JSON.parse] is the identity on the
      records the code serialises, so a stored JSON text is represented by
      the document it parses to.
    - The secondary store (IndexedDB) can be opened or not for the whole
      of a run; the operations do not change that. Whether the clearing
      of its records goes through is an argument of [clearAllKeys].
    - A JavaScript number that is a count, an index or a size is a
      [nat]; the number [parseInt] reads from a name is exact up to
      [Number.MAX_SAFE_INTEGER], and [Math.ceil] of a quotient is the
      quotient by a positive divisor.
    - Progress callbacks and console output are not modelled. *)

From stdpp Require Import gmap strings list sorting.
From Stdlib Require Import Ascii Strings.Byte DecimalString DecimalNat.

Local Open Scope Z_scope.
Local Open Scope nat_scope.

(** ** Bytes *)

Abbreviation bytes := (list byte).

(** Storing a number into a [Uint8Array] keeps it modulo 256. *)
Definition toUint8 (z : Z) : byte :=
  default x00 (Byte.of_nat (Z.to_nat (z mod 256))).

(** A byte with its bit [bit] flipped, and a byte sequence with bit
    [bit] of its byte [index] flipped. *)
Definition flipBit (bit : nat) (b : byte) : byte :=
  toUint8 (Z.lxor (Z.of_nat (Byte.to_nat b)) (2 ^ Z.of_nat bit)).

Definition flipped (index bit : nat) (data : bytes) : bytes :=
  alter (flipBit bit) index data.

(** ** JavaScript string helpers *)

Module JS.

(** [s.startsWith(p)] *)
Definition startsWith (s p : string) : bool := String.prefix p s.

(** [s.endsWith(suf)] *)
Fixpoint endsWith (s suf : string) : bool :=
  String.eqb s suf ||
  match s with
  | String _ s' => endsWith s' suf
  | EmptyString => false
  end.

(** [n.toString()] for a non-negative integer. *)
Definition toString (n : nat) : string :=
  NilEmpty.string_of_uint (Nat.to_uint n).

Fixpoint repeatChar (c : ascii) (n : nat) : string :=
  match n with
  | 0 => ""
  | S n' => String c (repeatChar c n')
  end.

(** [s.padStart(len, c)] *)
Definition padStart (len : nat) (c : ascii) (s : string) : string :=
  repeatChar c (len - String.length s) +:+ s.

Definition isDigit (c : ascii) : bool :=
  match Ascii.is_nat c with Some _ => true | None => false end.

Definition digitVal (c : ascii) : nat := default 0 (Ascii.is_nat c).

(** The longest run of decimal digits at the start of [s]: what [\d+]
    captures when it matches there. *)
Fixpoint takeDigits (s : string) : string :=
  match s with
  | String c s' => if isDigit c then String c (takeDigits s') else ""
  | EmptyString => ""
  end.

Fixpoint parseDigits (acc : nat) (s : string) : nat :=
  match s with
  | String c s' => parseDigits (10 * acc + digitVal c) s'
  | EmptyString => acc
  end.

(** [parseInt(ds)] on a string of decimal digits whose number is a
    safe integer: there the double that [parseInt] returns is the
    number itself. Above [Number.MAX_SAFE_INTEGER] JavaScript rounds
    the number to a double, which this function does not represent. *)
Definition parseInt (ds : string) : nat := parseDigits 0 ds.

(** [Number.MAX_SAFE_INTEGER], and [Number.isSafeInteger(n)] for a
    number that is not negative. *)
Definition MAX_SAFE_INTEGER : Z := 9007199254740991.

Definition isSafeInteger (n : nat) : bool :=
  (Z.of_nat n <=? MAX_SAFE_INTEGER)%Z.

(** The rest of [s] after the prefix [p], when [s] starts with [p]. *)
Fixpoint stripPrefix (p s : string) : option string :=
  match p with
  | EmptyString => Some s
  | String a p' =>
      match s with
      | String b s' => if Ascii.eqb a b then stripPrefix p' s' else None
      | EmptyString => None
      end
  end.

(** [name.match(/chunk_(\d+)/)]: the leftmost place where ["chunk_"] is
    followed by a digit, with the digits captured there; [None] when the
    match is [null]. *)
Fixpoint matchChunk (s : string) : option string :=
  match s with
  | EmptyString => None
  | String _ s' =>
      match stripPrefix "chunk_" s with
      | Some rest =>
          match takeDigits rest with
          | EmptyString => matchChunk s'
          | ds => Some ds
          end
      | None => matchChunk s'
      end
  end.

(** [s.replace(pat, '')] for a string pattern: the first occurrence of
    [pat] is removed. *)
Fixpoint removeFirst (pat s : string) : string :=
  match stripPrefix pat s with
  | Some rest => rest
  | None =>
      match s with
      | String c s' => String c (removeFirst pat s')
      | EmptyString => ""
      end
  end.

Fixpoint contains (c : ascii) (s : string) : bool :=
  match s with
  | EmptyString => false
  | String d s' => Ascii.eqb c d || contains c s'
  end.

(** [s.split('.').pop()]: what follows the last dot, all of [s] when
    it has none. *)
Fixpoint afterLastDot (s : string) : string :=
  match s with
  | EmptyString => ""
  | String c s' =>
      if contains "." s' then afterLastDot s'
      else if Ascii.eqb c "." then s' else s
  end.

(** [strings.join('')] *)
Fixpoint join (l : list string) : string :=
  match l with
  | [] => ""
  | x :: rest => x +:+ join rest
  end.

(** [array.sort((a, b) => key(a) - key(b))]: the sort is stable, so the
    result is the one of insertion from the right. *)
Fixpoint insertBy {A} (key : A → nat) (x : A) (l : list A) : list A :=
  match l with
  | [] => [x]
  | y :: l' => if key x <=? key y then x :: l else y :: insertBy key x l'
  end.

Definition sortBy {A} (key : A → nat) (l : list A) : list A :=
  foldr (insertBy key) [] l.

(** Line terminators, which [.] does not match. *)
Definition isLineTerminator (c : ascii) : bool :=
  match c with
  | "010" | "013" => true
  | _ => false
  end%char.

(** [s.match(/.{1,2}/g)]: consecutive groups of two characters, a group
    of one where a single character is left; the empty list stands for
    the [null] of a string with no match. *)
Fixpoint matchPairs (s : string) : list string :=
  match s with
  | EmptyString => []
  | String c s1 =>
      if isLineTerminator c then matchPairs s1
      else
        match s1 with
        | EmptyString => [String c ""]
        | String d s2 =>
            if isLineTerminator d then String c "" :: matchPairs s2
            else String c (String d "") :: matchPairs s2
        end
  end.

Definition hexVal (c : ascii) : option nat :=
  match c with
  | "a" | "A" => Some 10
  | "b" | "B" => Some 11
  | "c" | "C" => Some 12
  | "d" | "D" => Some 13
  | "e" | "E" => Some 14
  | "f" | "F" => Some 15
  | _ => Ascii.is_nat c
  end%char.

(** White space that [parseInt] skips ([.] never hands it a line
    terminator). *)
Definition isWhiteSpace (c : ascii) : bool :=
  match c with
  | "009" | "011" | "012" | " " => true
  | _ => false
  end%char.

Fixpoint trimStart (s : string) : string :=
  match s with
  | String c s' => if isWhiteSpace c then trimStart s' else s
  | EmptyString => ""
  end.

(** The value of the leading run of hexadecimal digits, [None] when
    there is none. *)
Fixpoint hexDigits (acc : option nat) (s : string) : option nat :=
  match s with
  | String c s' =>
      match hexVal c with
      | Some v => hexDigits (Some (16 * default 0 acc + v)) s'
      | None => acc
      end
  | EmptyString => acc
  end.

(** [parseInt(s, 16)]; [None] is [NaN]. *)
Definition parseInt16 (s : string) : option Z :=
  let s := trimStart s in
  let '(neg, s) :=
    match s with
    | String "-" s' => (true, s')
    | String "+" s' => (false, s')
    | _ => (false, s)
    end%char in
  let s :=
    match s with
    | String "0" (String "x" s') => s'
    | String "0" (String "X" s') => s'
    | _ => s
    end%char in
  match hexDigits None s with
  | Some v => Some (if neg then (- Z.of_nat v)%Z else Z.of_nat v)
  | None => None
  end.

(** Whether [s] consists of decimal digits only. *)
Fixpoint allDigits (s : string) : bool :=
  match s with
  | String c s' => isDigit c && allDigits s'
  | EmptyString => true
  end.

(** The last character of [s]. *)
Fixpoint lastChar (s : string) : option ascii :=
  match s with
  | EmptyString => None
  | String c EmptyString => Some c
  | String _ s' => lastChar s'
  end.

(** [new TextEncoder().encode(s)] *)
Fixpoint encode (s : string) : bytes :=
  match s with
  | EmptyString => []
  | String c s' => byte_of_ascii c :: encode s'
  end.

End JS.

(** ** Hexadecimal text *)

Definition hexDigit (n : nat) : ascii :=
  match n with
  | 0 => "0" | 1 => "1" | 2 => "2" | 3 => "3" | 4 => "4" | 5 => "5"
  | 6 => "6" | 7 => "7" | 8 => "8" | 9 => "9" | 10 => "a" | 11 => "b"
  | 12 => "c" | 13 => "d" | 14 => "e" | _ => "f"
  end%char.

(** [b.toString(16).padStart(2, '0')] *)
Definition byteToHex (b : byte) : string :=
  let n := Byte.to_nat b in
  String (hexDigit (n / 16)) (String (hexDigit (n mod 16)) "").

(** [Array.from(data).map(b => b.toString(16).padStart(2, '0')).join('')] *)
Fixpoint toHex (data : bytes) : string :=
  match data with
  | [] => ""
  | b :: rest => byteToHex b +:+ toHex rest
  end.

(** [new Uint8Array(hex.match(/.{1,2}/g)!.map(byte => parseInt(byte, 16)))];
    [None] is the [TypeError] raised when the match is [null]. *)
Definition fromHex (hex : string) : option bytes :=
  match JS.matchPairs hex with
  | [] => None
  | groups => Some (map (λ g, toUint8 (default 0%Z (JS.parseInt16 g))) groups)
  end.

(** ** Errors and results *)

(** The errors the code throws, named after what they report; the message
    of each is quoted. *)
Inductive Error : Type :=
  | WebCryptoUnavailable
      (* 'Web Crypto API is not available. Please use HTTPS or localhost.' *)
  | GenerationFailed
      (* 'Failed to generate secure master key' *)
  | KeyNotFound
      (* 'No master key found. Please generate a new one.' *)
  | PasswordRequired
      (* 'Password required for encrypted key' *)
  | ChecksumMismatch
      (* 'Backup verification failed - corrupted data or wrong password' *)
  | ImportFailed
      (* 'Failed to import key - check your backup string and password' *)
  | NotInitialized
      (* 'Crypto system not initialized. Call initialize() first.' *)
  | InitializationFailed
      (* 'Crypto system initialization failed: ...' *)
  | InvalidEncryptedData
      (* 'Invalid encrypted data - too short to contain IV' *)
  | DecryptionFailed
      (* 'Chunk decryption failed - wrong key or corrupted data' *)
  | MetadataNotFound
      (* 'Metadata file not found. Please include the _metadata.json file.' *)
  | ChunkCountMismatch (expected found : nat)
      (* 'Missing ... chunk files! Expected ..., found ....' *)
  | ChunkDecryptionFailure (index : nat) (filename : string) (cause : Error)
      (* 'Failed to decrypt chunk <index> (<filename>): <cause>' *)
  | UserCancelled
      (* 'User cancelled due to hash mismatch' *)
  | UnsupportedArchive
      (* 'Unsupported archive format' *)
  | OperationError
      (* the DOMException of [crypto.subtle.decrypt]: authentication failed *)
  | DataError
      (* the DOMException of [crypto.subtle.importKey] on a bad key length *)
  | TypeError
      (* a method called on [null] or [undefined] *)
  | SyntaxError
      (* [JSON.parse] or [atob] on malformed text *)
  | RangeError
      (* an allocation larger than the platform allows *)
  | QuotaExceeded
      (* [localStorage.setItem] refused *)
  | IndexedDBFailure.
      (* the secondary store could not be opened or written *)

Inductive Result (A : Type) : Type :=
  | Ok (a : A)
  | Err (e : Error).
Arguments Ok {A} a.
Arguments Err {A} e.

Definition isOk {A} (r : Result A) : bool :=
  match r with Ok _ => true | Err _ => false end.

(** ** The platform crypto provider *)

(** [crypto.subtle]: the digest, the password-based key derivation and
    the AEAD cipher. A key handle is represented by the raw bytes it was
    imported or derived from. *)
Class WebCrypto : Type := {
  (* [digest('SHA-256', data)] *)
  sha256 : bytes → bytes;
  (* [deriveKey({name: 'PBKDF2', salt, iterations, hash: 'SHA-256'},
      passwordKey, {name: 'AES-GCM', length: 256}, ...)] *)
  pbkdf2 : bytes → bytes → N → bytes;
  (* [encrypt({name: 'AES-GCM', iv}, key, data)] *)
  aesGcmEncrypt : bytes → bytes → bytes → bytes;
  (* [decrypt({name: 'AES-GCM', iv}, key, data)], [None] when it rejects *)
  aesGcmDecrypt : bytes → bytes → bytes → option bytes
}.

(** [crypto.getRandomValues(new Uint8Array(len))], reading the entropy
    source from position [pos]. *)
Definition getRandomValues (entropy : nat → byte) (pos len : nat) : bytes :=
  map entropy (seq pos len).

(** ** keyManager.ts: [SecureKeyManager] *)

Module SecureKeyManager.

Definition STORAGE_PREFIX : string := "secure_file_splitter_".
Definition MASTER_KEY_ID : string := "master_key".
Definition KEY_VERSION : string := "v1".

(** [`${STORAGE_PREFIX}${MASTER_KEY_ID}_${KEY_VERSION}`] *)
Definition plainStorageKey : string :=
  Eval cbv in STORAGE_PREFIX +:+ MASTER_KEY_ID +:+ "_" +:+ KEY_VERSION.

(** [`${STORAGE_PREFIX}${MASTER_KEY_ID}_encrypted_${KEY_VERSION}`] *)
Definition encryptedStorageKey : string :=
  Eval cbv in
    STORAGE_PREFIX +:+ MASTER_KEY_ID +:+ "_encrypted_" +:+ KEY_VERSION.

(** The record the code serialises with [JSON.stringify]. *)
Record KeyInfo : Type := {
  encrypted : bool;
  data : string;
  timestamp : Z;
  version : string;
  imported : bool
}.

(** A stored text: one that [JSON.parse] reads as a key record, or any
    other text. On every other text [parseStoredKey] ends in its
    [catch]: [JSON.parse] throws, or a field access or the call of
    [match] on the parsed value does. *)
Inductive StoredText : Type :=
  | Json (keyInfo : KeyInfo)
  | Text (s : string).

(** JavaScript truthiness of a stored text. *)
Definition nonEmpty (t : StoredText) : bool :=
  match t with
  | Json _ => true
  | Text s => negb (String.eqb s "")
  end.

(** The two storage backends and the environment flags the code tests.
    [indexedDB] is [None] when the database cannot be opened. *)
Record Store : Type := {
  localStorage : gmap string StoredText;
  indexedDB : option (gmap string StoredText);
  storageWritable : bool;
  secureContext : bool
}.

Definition emptyStore (idb writable secure : bool) : Store :=
  {| localStorage := ∅;
     indexedDB := if idb then Some ∅ else None;
     storageWritable := writable;
     secureContext := secure |}.

(** [password] as a condition: [undefined] and [''] are falsy. *)
Definition givenPassword (password : option string) : option string :=
  match password with
  | Some "" => None
  | other => other
  end.

(** [localStorage.getItem(key)] followed by the truthiness test. *)
Definition getItem (st : Store) (key : string) : option StoredText :=
  match localStorage st !! key with
  | Some t => if nonEmpty t then Some t else None
  | None => None
  end.

(** [localStorage.setItem(key, value)] *)
Definition setItem (st : Store) (key : string) (value : StoredText)
  : Result Store :=
  if storageWritable st then
    Ok {| localStorage := <[key := value]> (localStorage st);
          indexedDB := indexedDB st;
          storageWritable := storageWritable st;
          secureContext := secureContext st |}
  else Err QuotaExceeded.

(** [storeInIndexedDB(key, data)]: rejects when the database cannot be
    opened. *)
Definition storeInIndexedDB (st : Store) (key : string) (value : StoredText)
  : Result Store :=
  match indexedDB st with
  | Some db =>
      Ok {| localStorage := localStorage st;
            indexedDB := Some (<[key := value]> db);
            storageWritable := storageWritable st;
            secureContext := secureContext st |}
  | None => Err IndexedDBFailure
  end.

(** [getDataFromIndexedDB(key)]: resolves [getRequest.result || null],
    and [null] on every failure. *)
Definition getDataFromIndexedDB (st : Store) (key : string)
  : option StoredText :=
  match indexedDB st with
  | Some db =>
      match db !! key with
      | Some t => if nonEmpty t then Some t else None
      | None => None
      end
  | None => None
  end.

(** [clearIndexedDB()]: clears the object store when the clearing
    transaction completes. It resolves with the records left as they
    are when the database cannot be opened for clearing
    ([request.onerror]), when the transaction fails
    ([transaction.onerror]) and when opening the transaction throws
    (the [catch]): [cleared] tells which of the two happens. *)
Definition clearIndexedDB (cleared : bool) (st : Store) : Store :=
  {| localStorage := localStorage st;
     indexedDB :=
       match indexedDB st with
       | Some db => if cleared then Some ∅ else Some db
       | None => None
       end;
     storageWritable := storageWritable st;
     secureContext := secureContext st |}.

Section WithProvider.
Context `{WebCrypto}.

(** [calculateChecksum(data)] *)
Definition calculateChecksum (data : bytes) : string :=
  toHex (sha256 data).

(** [encryptKeyWithPassword(keyMaterial, password)]: the salt and
    then the IV are drawn from [entropy]. *)
Definition encryptKeyWithPassword (entropy : nat → byte)
    (keyMaterial : bytes) (password : string) : string :=
  let salt := getRandomValues entropy 0 16 in
  let derivedKey := pbkdf2 (JS.encode password) salt 100000%N in
  let iv := getRandomValues entropy 16 12 in
  let encrypted := aesGcmEncrypt derivedKey iv keyMaterial in
  toHex (salt ++ iv ++ encrypted).

(** [decryptKeyWithPassword(encryptedHex, password)] *)
Definition decryptKeyWithPassword (encryptedHex : string)
    (password : string) : Result bytes :=
  match fromHex encryptedHex with
  | None => Err TypeError
  | Some encrypted =>
      let salt := take 16 encrypted in
      let iv := take 12 (drop 16 encrypted) in
      let ciphertext := drop 28 encrypted in
      let derivedKey := pbkdf2 (JS.encode password) salt 100000%N in
      match aesGcmDecrypt derivedKey iv ciphertext with
      | Some decrypted => Ok decrypted
      | None => Err OperationError
      end
  end.

(** The [try] block of [parseStoredKey(stored, password)]. *)
Definition parseStoredKeyBody (stored : StoredText)
    (password : option string) : Result (option bytes) :=
  match stored with
  | Text _ => Err SyntaxError
  | Json keyInfo =>
      match encrypted keyInfo, givenPassword password with
      | true, Some pw =>
          match decryptKeyWithPassword (data keyInfo) pw with
          | Ok key => Ok (Some key)
          | Err e => Err e
          end
      | false, _ =>
          match fromHex (data keyInfo) with
          | Some key => Ok (Some key)
          | None => Err TypeError
          end
      | true, None => Err PasswordRequired
      end
  end.

(** [parseStoredKey(stored, password)]: the [catch] turns every error
    of the body into [null]. *)
Definition parseStoredKey (stored : StoredText) (password : option string)
  : option bytes :=
  match parseStoredKeyBody stored password with
  | Ok result => result
  | Err _ => None
  end.

(** The loop shared by [getFromLocalStorage] and [getFromIndexedDB]:
    the first of [keys] whose stored text parses to a key. *)
Fixpoint firstParsed (get : string → option StoredText)
    (password : option string) (keys : list string) : option bytes :=
  match keys with
  | [] => None
  | key :: rest =>
      match get key with
      | Some stored =>
          match parseStoredKey stored password with
          | Some result => Some result
          | None => firstParsed get password rest
          end
      | None => firstParsed get password rest
      end
  end.

Definition storageKeys : list string :=
  [plainStorageKey; encryptedStorageKey].

(** [getFromLocalStorage(password)] *)
Definition getFromLocalStorage (st : Store) (password : option string)
  : option bytes :=
  firstParsed (getItem st) password storageKeys.

(** [getFromIndexedDB(password)] *)
Definition getFromIndexedDB (st : Store) (password : option string)
  : option bytes :=
  firstParsed (getDataFromIndexedDB st) password storageKeys.

(** [getMasterKey(password)] *)
Definition getMasterKey (st : Store) (password : option string)
  : Result bytes :=
  match getFromLocalStorage st password with
  | Some keyData => Ok keyData
  | None =>
      match getFromIndexedDB st password with
      | Some keyData => Ok keyData
      | None => Err KeyNotFound
      end
  end.

(** [hasMasterKey()] *)
Definition hasMasterKey (st : Store) : bool :=
  if existsb (λ key, bool_decide (is_Some (getItem st key))) storageKeys
  then true
  else existsb (λ key, bool_decide (is_Some (getDataFromIndexedDB st key)))
         storageKeys.

(** [clearAllKeys()]: removes the prefixed entries of [localStorage],
    then calls [clearIndexedDB], whose clearing goes through or not
    ([cleared]). *)
Definition clearAllKeys (cleared : bool) (st : Store) : Store :=
  clearIndexedDB cleared
    {| localStorage :=
         filter (λ kv, JS.startsWith kv.1 STORAGE_PREFIX = false)
           (localStorage st);
       indexedDB := indexedDB st;
       storageWritable := storageWritable st;
       secureContext := secureContext st |}.

(** [isCryptoAvailable()] inside [generateAndStoreMasterKey] *)
Definition isCryptoAvailable (st : Store) : bool := secureContext st.

(** The [try] block of [generateAndStoreMasterKey(password)]. The key
    material, then the salt and the IV of the wrapping, are drawn
    from [entropy]. *)
Definition generateAndStoreMasterKeyBody (entropy : nat → byte) (now : Z)
    (password : option string) (st : Store) : Store * Result string :=
  if negb (isCryptoAvailable st) then (st, Err WebCryptoUnavailable)
  else
    let keyMaterial := getRandomValues entropy 0 32 in
    let '(storageKey, keyData) :=
      match givenPassword password with
      | Some pw =>
          let encryptedKey :=
            encryptKeyWithPassword (λ i, entropy (32 + i)) keyMaterial pw in
          (encryptedStorageKey,
           Json {| encrypted := true; data := encryptedKey;
                   timestamp := now; version := KEY_VERSION;
                   imported := false |})
      | None =>
          let hexKey := toHex keyMaterial in
          (plainStorageKey,
           Json {| encrypted := false; data := hexKey;
                   timestamp := now; version := KEY_VERSION;
                   imported := false |})
      end in
    match setItem st storageKey keyData with
    | Err e => (st, Err e)
    | Ok st1 =>
        let st2 :=
          match storeInIndexedDB st1 storageKey keyData with
          | Ok st' => st'
          | Err _ => st1
          end in
        (st2, Ok (toHex keyMaterial))
    end.

(** [generateAndStoreMasterKey(password)]: every error of the body is
    replaced by one message. *)
Definition generateAndStoreMasterKey (entropy : nat → byte) (now : Z)
    (password : option string) (st : Store) : Store * Result string :=
  match generateAndStoreMasterKeyBody entropy now password st with
  | (st', Ok hexKey) => (st', Ok hexKey)
  | (st', Err _) => (st', Err GenerationFailed)
  end.

(** The object [exportKeyForBackup] serialises. *)
Record BackupData : Type := {
  backupVersion : string;
  backupTimestamp : Z;
  backupPayload : string;
  checksum : string
}.

(** A backup string: the base64 text of a serialised [BackupData], or
    any other text. *)
Inductive BackupString : Type :=
  | Base64Json (backupData : BackupData)
  | OtherText (s : string).

(** [exportKeyForBackup(password)] *)
Definition exportKeyForBackup (entropy : nat → byte) (now : Z)
    (password : string) (st : Store) : Result BackupString :=
  match getMasterKey st None with
  | Err e => Err e
  | Ok masterKey =>
      let encryptedBackup :=
        encryptKeyWithPassword entropy masterKey password in
      Ok (Base64Json
            {| backupVersion := KEY_VERSION;
               backupTimestamp := now;
               backupPayload := encryptedBackup;
               checksum := calculateChecksum masterKey |})
  end.

(** The [try] block of [importKeyFromBackup(backupString, password)]. *)
Definition importKeyFromBackupBody (now : Z) (backupString : BackupString)
    (password : string) (st : Store) : Store * Result unit :=
  match backupString with
  | OtherText _ => (st, Err SyntaxError)
  | Base64Json backupData =>
      match decryptKeyWithPassword (backupPayload backupData) password with
      | Err e => (st, Err e)
      | Ok decryptedKey =>
          if negb (String.eqb (calculateChecksum decryptedKey)
                     (checksum backupData))
          then (st, Err ChecksumMismatch)
          else
            let hexKey := toHex decryptedKey in
            let storageKey := plainStorageKey in
            let keyData :=
              Json {| encrypted := false; data := hexKey;
                      timestamp := now; version := KEY_VERSION;
                      imported := true |} in
            match setItem st storageKey keyData with
            | Err e => (st, Err e)
            | Ok st1 =>
                match storeInIndexedDB st1 storageKey keyData with
                | Err e => (st1, Err e)
                | Ok st2 => (st2, Ok tt)
                end
            end
      end
  end.

(** [importKeyFromBackup(backupString, password)]: the [catch] throws
    one message for every error of the body. *)
Definition importKeyFromBackup (now : Z) (backupString : BackupString)
    (password : string) (st : Store) : Store * Result unit :=
  match importKeyFromBackupBody now backupString password st with
  | (st', Ok tt) => (st', Ok tt)
  | (st', Err _) => (st', Err ImportFailed)
  end.

(** [initializeOrGetMasterKey(password)] *)
Definition initializeOrGetMasterKey (entropy : nat → byte) (now : Z)
    (password : option string) (st : Store) : Store * Result bytes :=
  if negb (hasMasterKey st) then
    match generateAndStoreMasterKey entropy now password st with
    | (st', Ok hexKey) =>
        match fromHex hexKey with
        | Some key => (st', Ok key)
        | None => (st', Err TypeError)
        end
    | (st', Err e) => (st', Err e)
    end
  else (st, getMasterKey st password).

End WithProvider.

End SecureKeyManager.

(** ** Effects of the pipelines *)

(** A computation that emits items of type [E] (the chunks a generator
    yields, or the observable effects of a reconstruction) and ends with a
    value or a thrown error. What was emitted before an error stays
    emitted. *)
Definition Action (E A : Type) : Type := list E * Result A.

Definition ret {E A} (a : A) : Action E A := ([], Ok a).

Definition throw {E A} (e : Error) : Action E A := ([], Err e).

Definition emit {E} (x : E) : Action E unit := ([x], Ok tt).

Definition bind {E A B} (m : Action E A) (f : A → Action E B) : Action E B :=
  match m with
  | (out, Ok a) => let '(out', r) := f a in (out ++ out', r)
  | (out, Err e) => (out, Err e)
  end.

(** [try { m } catch (error) { throw handler(error) }] *)
Definition rethrow {E A} (handler : Error → Error) (m : Action E A)
  : Action E A :=
  match m with
  | (out, Err e) => (out, Err (handler e))
  | ok => ok
  end.

Global Instance action_ret {E} : MRet (Action E) := λ A a, ret a.
Global Instance action_bind {E} : MBind (Action E) := λ A B f m, bind m f.

(** What a reconstruction does to the world outside it. *)
Inductive Effect : Type :=
  | SubtleDecrypt (iv ciphertext : bytes)
      (* a call of [crypto.subtle.decrypt] *)
  | Confirm
      (* the [confirm] dialog shown after a hash mismatch *)
  | Download (blob : bytes) (filename : string).
      (* [DownloadManager.downloadWithDelay(blob, filename, 0)] *)

Definition isDecryption (e : Effect) : bool :=
  match e with
  | SubtleDecrypt _ _ => true
  | _ => false
  end.

(** ** keyManager.ts: [SecureCryptoUtils] *)

Module SecureCryptoUtils.
Section WithProvider.
Context `{WebCrypto}.

(** [initialize(password)]: the master key is generated or loaded
    and imported as the AES-GCM key, which takes 16, 24 or 32 bytes.
    The result is the new value of [cryptoKey]. *)
Definition initialize (entropy : nat → byte) (now : Z)
    (password : option string) (st : SecureKeyManager.Store)
  : SecureKeyManager.Store * Result bytes :=
  let '(st', r) :=
    if negb (SecureKeyManager.hasMasterKey st) then
      match SecureKeyManager.generateAndStoreMasterKey
              entropy now password st with
      | (st', Ok hexKey) =>
          match fromHex hexKey with
          | Some key => (st', Ok key)
          | None => (st', Err TypeError)
          end
      | (st', Err e) => (st', Err e)
      end
    else (st, SecureKeyManager.getMasterKey st password) in
  match r with
  | Ok masterKeyData =>
      if bool_decide (length masterKeyData ∈ [16; 24; 32])
      then (st', Ok masterKeyData)
      else (st', Err InitializationFailed)
  | Err _ => (st', Err InitializationFailed)
  end.

(** [encryptChunk(data)]: the IV is drawn from [entropy] at [pos]. *)
Definition encryptChunk (cryptoKey : option bytes) (entropy : nat → byte)
    (pos : nat) (data : bytes) : Result bytes :=
  match cryptoKey with
  | None => Err NotInitialized
  | Some key =>
      let iv := getRandomValues entropy pos 12 in
      let encrypted := aesGcmEncrypt key iv data in
      Ok (iv ++ encrypted)
  end.

(** [decryptChunk(data)] *)
Definition decryptChunk (cryptoKey : option bytes) (data : bytes)
  : Action Effect bytes :=
  match cryptoKey with
  | None => throw NotInitialized
  | Some key =>
      if length data <? 12 then throw InvalidEncryptedData
      else
        let iv := take 12 data in
        let encrypted := drop 12 data in
        emit (SubtleDecrypt iv encrypted);;
        match aesGcmDecrypt key iv encrypted with
        | Some decrypted => ret decrypted
        | None => throw DecryptionFailed
        end
  end.

(** [combineChunks(chunks)]: [new Uint8Array(totalLength)] throws when
    [totalLength] exceeds what the platform can allocate,
    [maxByteLength] when there is such a bound. *)
Definition combineChunks (maxByteLength : option nat)
    (chunks : list bytes) : Result bytes :=
  let totalLength := foldl (λ sum chunk, sum + length chunk) 0 chunks in
  match maxByteLength with
  | Some limit =>
      if limit <? totalLength then Err RangeError else Ok (concat chunks)
  | None => Ok (concat chunks)
  end.

(** [calculateHash(data)] *)
Definition calculateHash (data : bytes) : string :=
  toHex (sha256 data).

(** The [for] loop of [splitIntoChunks(buffer, chunkSize)] at index [i],
    with the chunks pushed so far. [fuel] bounds the iterations still
    allowed; the result is [None] when the loop is still running once
    they are spent. *)
Fixpoint splitLoop (fuel : nat) (uint8 : bytes) (chunkSize i : nat)
    (chunks : list bytes) : option (list bytes) :=
  if i <? length uint8 then
    match fuel with
    | 0 => None
    | S fuel' =>
        let stop := Nat.min (i + chunkSize) (length uint8) in
        let chunk := take (stop - i) (drop i uint8) in
        splitLoop fuel' uint8 chunkSize (i + chunkSize) (chunks ++ [chunk])
    end
  else Some chunks.

(** [splitIntoChunks(buffer, chunkSize)]. An iteration with a positive
    [chunkSize] moves [i] forward, so [length buffer] iterations are
    allowed for. *)
Definition splitIntoChunks (buffer : bytes) (chunkSize : nat)
  : option (list bytes) :=
  splitLoop (length buffer) buffer chunkSize 0 [].

End WithProvider.
End SecureCryptoUtils.

(** ** Files and metadata *)

(** The metadata object of the pipelines. [hashType] is absent in
    metadata written by the earlier [encryptFile]. *)
Record FileMetadata : Type := {
  originalFileName : string;
  originalExtension : string;
  originalSize : nat;
  totalChunks : nat;
  timestamp : Z;
  hash : string;
  hashType : option string;
  chunkSize : nat
}.

(** A [File], or an entry of a zip container: its name, the bytes
    [arrayBuffer()] gives, and what [JSON.parse(await file.text())]
    returns for it, [None] when that throws. *)
Record File : Type := {
  name : string;
  content : bytes;
  parsed : option FileMetadata
}.

(** [file.slice(start, end)] *)
Definition slice (start stop : nat) (data : bytes) : bytes :=
  take (stop - start) (drop start data).

(** An archive of the earlier JSON format, as [JSON.parse] reads it:
    [{metadata, chunks: [{filename, data}]}], [data] being an array of
    numbers. *)
Record ArchivedChunk : Type := {
  archivedFilename : string;
  archivedData : list Z
}.

Record ArchiveData : Type := {
  archiveMetadata : FileMetadata;
  archiveChunks : list ArchivedChunk
}.

(** A file selected for reconstruction, with the two further readings
    the archive paths make of it: [archiveData] is what
    [JSON.parse(await file.text())] returns for an archive of the JSON
    format, [None] when that throws; [zipEntries] is what
    [JSZip.loadAsync(file)] lists, in the order of
    [Object.keys(zip.files)], or the error it rejects with. *)
Record Upload : Type := {
  uploaded : File;
  archiveData : option ArchiveData;
  zipEntries : Result (list File)
}.

(** ** services/fileEncryptionService.ts *)

Module FileEncryptionService.

(** What the generator yields for a chunk. *)
Record Chunk : Type := {
  blob : bytes;
  filename : string;
  index : nat
}.

(** [Math.ceil(size / chunkSize)] for a positive [chunkSize]. At
    [chunkSize = 0] the JavaScript quotient is [Infinity] or [NaN],
    which this function does not represent. *)
Definition ceilDiv (size chunkSize : nat) : nat :=
  (size + chunkSize - 1) / chunkSize.

(** [file.name.split('.').pop() || 'bin'] *)
Definition extensionOf (fileName : string) : string :=
  match JS.afterLastDot fileName with
  | EmptyString => "bin"
  | ext => ext
  end.

(** [file.name.replace(`.${extension}`, '')] *)
Definition baseNameOf (fileName : string) : string :=
  JS.removeFirst (String "." (extensionOf fileName)) fileName.

(** [`${fileName}_chunk_${i.toString().padStart(4, '0')}.enc`] *)
Definition chunkFilename (fileName : string) (i : nat) : string :=
  fileName +:+ "_chunk_" +:+ JS.padStart 4 "0" (JS.toString i) +:+ ".enc".

(** The plaintext of chunk [i]:
    [file.slice(start, end)] with [start = i * chunkSize] and
    [end = Math.min(start + chunkSize, file.size)]. *)
Definition chunkData (file : File) (chunkSize i : nat) : bytes :=
  let start := i * chunkSize in
  let stop := Nat.min (start + chunkSize) (length (content file)) in
  slice start stop (content file).

Section WithProvider.
Context `{WebCrypto}.

(** The [for] loop of [encryptFileGenerator], over the indices still
    to do; [chunkHashes] is the array of the same name. Chunk [i]
    draws its IV at position [12 * i] of [entropy]. *)
Fixpoint encryptLoop (cryptoKey : option bytes) (entropy : nat → byte)
    (file : File) (chunkSize : nat) (fileName : string)
    (indices : list nat) (chunkHashes : list string)
  : Action Chunk (list string) :=
  match indices with
  | [] => ret chunkHashes
  | i :: rest =>
      let chunkData := chunkData file chunkSize i in
      let chunkHash := SecureCryptoUtils.calculateHash chunkData in
      let chunkHashes := chunkHashes ++ [chunkHash] in
      match SecureCryptoUtils.encryptChunk cryptoKey entropy (12 * i)
              chunkData with
      | Err e => throw e
      | Ok encrypted =>
          emit {| blob := encrypted;
                  filename := chunkFilename fileName i;
                  index := i |};;
          encryptLoop cryptoKey entropy file chunkSize fileName
            rest chunkHashes
      end
  end.

(** What the loop yields for chunk [i] under a loaded key. *)
Definition yielded (key : bytes) (entropy : nat → byte) (file : File)
    (chunkSize : nat) (fileName : string) (i : nat) : Chunk :=
  let iv := getRandomValues entropy (12 * i) 12 in
  {| blob := iv ++ aesGcmEncrypt key iv (chunkData file chunkSize i);
     filename := chunkFilename fileName i;
     index := i |}.

(** [encryptFileGenerator(file, chunkSize, onProgressUpdate)]: the
    chunks yielded, and the metadata returned at the end. *)
Definition encryptFileGenerator (cryptoKey : option bytes)
    (entropy : nat → byte) (now : Z) (file : File) (chunkSize : nat)
  : Action Chunk FileMetadata :=
  let size := length (content file) in
  let totalChunks := ceilDiv size chunkSize in
  let extension := extensionOf (name file) in
  let fileName := baseNameOf (name file) in
  chunkHashes ← encryptLoop cryptoKey entropy file chunkSize fileName
                  (seq 0 totalChunks) [];
  let combinedHashes := JS.encode (JS.join chunkHashes) in
  let finalHash := SecureCryptoUtils.calculateHash combinedHashes in
  ret {| originalFileName := fileName;
         originalExtension := extension;
         originalSize := size;
         totalChunks := totalChunks;
         timestamp := now;
         hash := finalHash;
         hashType := Some "composite";
         chunkSize := chunkSize |}.

(** The [for] loop of the earlier [encryptFile] over [chunks], from
    index [i] on: a chunk whose encryption throws is logged and left
    out. A pushed [{blob, filename}] is represented by the file it is
    downloaded as. *)
Fixpoint encryptChunks (cryptoKey : option bytes) (entropy : nat → byte)
    (fileName : string) (i : nat) (chunks : list bytes) : list File :=
  match chunks with
  | [] => []
  | chunk :: rest =>
      match SecureCryptoUtils.encryptChunk cryptoKey entropy (12 * i)
              chunk with
      | Ok encrypted =>
          {| name := chunkFilename fileName i;
             content := encrypted;
             parsed := None |}
          :: encryptChunks cryptoKey entropy fileName (S i) rest
      | Err _ => encryptChunks cryptoKey entropy fileName (S i) rest
      end
  end.

(** The earlier [encryptFile(file, chunkSize, onProgressUpdate)]: the
    array [encryptedChunks], which ends with the metadata file, and the
    metadata. [text] is the serialised metadata. The result is [None]
    when [splitIntoChunks] does not return. *)
Definition encryptFile (cryptoKey : option bytes) (entropy : nat → byte)
    (now : Z) (file : File) (chunkSize : nat) (text : bytes)
  : option (list File * FileMetadata) :=
  let originalHash := SecureCryptoUtils.calculateHash (content file) in
  match SecureCryptoUtils.splitIntoChunks (content file) chunkSize with
  | None => None
  | Some chunks =>
      let extension := extensionOf (name file) in
      let fileName := baseNameOf (name file) in
      let metadata :=
        {| originalFileName := fileName;
           originalExtension := extension;
           originalSize := length (content file);
           totalChunks := length chunks;
           timestamp := now;
           hash := originalHash;
           hashType := None;
           chunkSize := chunkSize |} in
      let encryptedChunks :=
        encryptChunks cryptoKey entropy fileName 0 chunks in
      Some (encryptedChunks ++
            [ {| name := fileName +:+ "_metadata.json";
                 content := text;
                 parsed := Some metadata |} ],
            metadata)
  end.

End WithProvider.
End FileEncryptionService.

(** ** components/FileUploader.tsx: what the consumer writes out *)

Module FileUploader.

(** A yielded chunk, written out under its file name. *)
Definition chunkFile (chunk : FileEncryptionService.Chunk) : File :=
  {| name := FileEncryptionService.filename chunk;
     content := FileEncryptionService.blob chunk;
     parsed := None |}.

(** The metadata file:
    [new Blob([JSON.stringify(metadata, null, 2)])] under the name
    [`${metadata.originalFileName}_metadata.json`]; [text] is the
    serialised text. *)
Definition metadataFile (metadata : FileMetadata) (text : bytes) : File :=
  {| name := originalFileName metadata +:+ "_metadata.json";
     content := text;
     parsed := Some metadata |}.

End FileUploader.

(** ** utils/downloadManager.ts *)

Module DownloadManager.

(** [zip.file(name, data)]: the entries of a container are the
    properties of the object [zip.files], so an entry of the same name
    is replaced where it stands and a new one comes last. *)
Fixpoint zipFile (entries : list File) (entry : File) : list File :=
  match entries with
  | [] => [entry]
  | e :: rest =>
      if String.eqb (name e) (name entry) then entry :: rest
      else e :: zipFile rest entry
  end.

(** A call of [downloadWithDelay(blob, filename, delay)]: the file is
    saved by a click [delay] milliseconds after the call. *)
Record Scheduled : Type := {
  scheduledFile : File;
  scheduledDelay : nat
}.

(** The [for] loop of [downloadInBatches] at index [i], with the batches
    run so far: a batch is the list of the calls that one [Promise.all]
    awaits. [fuel] bounds the iterations still allowed; the result is
    [None] when the loop is still running once they are spent. The
    progress callback and the pause between batches are left out. *)
Fixpoint batchLoop (fuel : nat) (chunks : list File) (batchSize i : nat)
    (batches : list (list Scheduled)) : option (list (list Scheduled)) :=
  if i <? length chunks then
    match fuel with
    | 0 => None
    | S fuel' =>
        let batch := take (i + batchSize - i) (drop i chunks) in
        let calls :=
          imap (λ index chunk,
                  {| scheduledFile := chunk;
                     scheduledDelay := index * 200 |}) batch in
        batchLoop fuel' chunks batchSize (i + batchSize) (batches ++ [calls])
    end
  else Some batches.

(** [downloadInBatches(chunks, maxConcurrent, onProgressUpdate)]. An
    iteration with a positive [maxConcurrent] moves [i] forward, so
    [length chunks] iterations are allowed for. *)
Definition downloadInBatches (chunks : list File) (maxConcurrent : nat)
  : option (list (list Scheduled)) :=
  let batchSize := maxConcurrent in
  batchLoop (length chunks) chunks batchSize 0 [].

(** [createZipDownloadV0(chunks, metadata)]: the archive of the JSON
    format that is handed to the browser for download, as a later
    selection presents it. [archiveJson] is the serialised text, and
    [loadError] what [JSZip.loadAsync] rejects that text with. *)
Definition createZipDownloadV0 (chunks : list File) (metadata : FileMetadata)
    (archiveJson : bytes) (loadError : Error) : Upload :=
  let archive :=
    {| archiveMetadata := metadata;
       archiveChunks :=
         map (λ chunk,
                {| archivedFilename := name chunk;
                   archivedData :=
                     map (λ b, Z.of_nat (Byte.to_nat b)) (content chunk) |})
           chunks |} in
  {| uploaded :=
       {| name := originalFileName metadata +:+ "_encrypted_archive.json";
          content := archiveJson;
          parsed := None |};
     archiveData := Some archive;
     zipEntries := Err loadError |}.

(** [createZipDownload(chunks, metadata)]: the container that is handed
    to the browser for download, as a later selection presents it.
    [metadataText] is the serialised metadata and [zipBlob] the
    compressed container. *)
Definition createZipDownload (chunks : list File) (metadata : FileMetadata)
    (metadataText zipBlob : bytes) : Upload :=
  let zip :=
    zipFile [] {| name := originalFileName metadata +:+ "_metadata.json";
                  content := metadataText;
                  parsed := Some metadata |} in
  let zip := foldl zipFile zip chunks in
  {| uploaded :=
       {| name := originalFileName metadata +:+ "_encrypted.zip";
          content := zipBlob;
          parsed := None |};
     archiveData := None;
     zipEntries := Ok zip |}.

End DownloadManager.

(** ** services/fileReconstructionService.ts *)

Module FileReconstructionService.

(** The value [reconstructFromChunks] returns. *)
Record Reconstruction : Type := {
  success : bool;
  reconstructed : list bytes;
  metadata : FileMetadata;
  hashMatch : bool;
  chunkFiles : list File
}.

(** The number the sort compares a name by:
    [match ? parseInt(match[1]) : 0] with [match = name.match(/chunk_(\d+)/)]. *)
Definition chunkNumber (fileName : string) : nat :=
  match JS.matchChunk fileName with
  | Some digits => JS.parseInt digits
  | None => 0
  end.

(** Whether the numbers the sort compares the names of [files] by are
    safe integers, the numbers on which [chunkNumber] is what the code
    computes. *)
Definition safelyNumbered (files : list File) : bool :=
  forallb (λ f, JS.isSafeInteger (chunkNumber (name f))) files.

(** [Array.from(files).filter(f => f.name.endsWith('.enc')).sort(...)] *)
Definition selectChunkFiles (files : list File) : list File :=
  JS.sortBy (λ f, chunkNumber (name f))
    (filter (λ f, JS.endsWith (name f) ".enc" = true) files).

(** [metadata.hashType === 'composite'] *)
Definition isComposite (metadata : FileMetadata) : bool :=
  bool_decide (hashType metadata = Some "composite").

(** The download at the end of a reconstruction:
    [new Blob(decryptedChunks)] under the reconstructed name. *)
Definition download (metadata : FileMetadata) (decryptedChunks : list bytes)
  : Action Effect unit :=
  emit (Download (concat decryptedChunks)
          (originalFileName metadata +:+ "_reconstructed." +:+
           originalExtension metadata)).

Section WithProvider.
Context `{WebCrypto}.

(** An authentic chunk: an IV of 12 bytes followed by the encryption
    of some plaintext under [key] and that IV, which is what
    [encryptChunk] produces. *)
Definition authentic (key data : bytes) : Prop :=
  ∃ iv plaintext,
    length iv = 12 ∧ data = iv ++ aesGcmEncrypt key iv plaintext.

(** A tampered chunk, as it reaches a run that has loaded [key]: an
    authentic chunk with one of its bits flipped (corruption), an
    authentic chunk with another IV in front (wrong IV), or a chunk
    that was made under another key (wrong key). *)
Inductive tampered (key : bytes) : bytes → Prop :=
  | tampered_bit (iv plaintext : bytes) (index bit : nat) :
      length iv = 12 →
      index < length (iv ++ aesGcmEncrypt key iv plaintext) →
      bit < 8 →
      tampered key (flipped index bit (iv ++ aesGcmEncrypt key iv plaintext))
  | tampered_iv (iv iv' plaintext : bytes) :
      length iv = 12 → length iv' = 12 → iv' ≠ iv →
      tampered key (iv' ++ aesGcmEncrypt key iv plaintext)
  | tampered_key (key' iv plaintext : bytes) :
      length iv = 12 → key' ≠ key →
      tampered key (iv ++ aesGcmEncrypt key' iv plaintext).

(** The decryption loop of [reconstructFromChunks] from index [i] on:
    the decrypted chunks and, for composite metadata, their hashes.
    The [catch] of the loop body reports the index and the name. *)
Fixpoint decryptLoop (cryptoKey : option bytes) (composite : bool)
    (i : nat) (chunkFiles : list File)
  : Action Effect (list bytes * list string) :=
  match chunkFiles with
  | [] => ret ([], [])
  | file :: rest =>
      decrypted ← rethrow (ChunkDecryptionFailure i (name file))
                    (SecureCryptoUtils.decryptChunk cryptoKey
                       (content file));
      '(decryptedChunks, chunkHashes) ←
        decryptLoop cryptoKey composite (S i) rest;
      ret (decrypted :: decryptedChunks,
           if composite
           then SecureCryptoUtils.calculateHash decrypted :: chunkHashes
           else chunkHashes)
  end.

(** The integrity verdict of [reconstructFromChunks]. In the legacy
    branch an error while combining or hashing sets it to [true]. *)
Definition verifyIntegrity (maxByteLength : option nat)
    (metadata : FileMetadata) (decryptedChunks : list bytes)
    (chunkHashes : list string) : bool :=
  if isComposite metadata then
    let combinedHashes := JS.encode (JS.join chunkHashes) in
    let finalHash := SecureCryptoUtils.calculateHash combinedHashes in
    String.eqb finalHash (hash metadata)
  else
    match SecureCryptoUtils.combineChunks maxByteLength decryptedChunks with
    | Ok reconstructed =>
        String.eqb (SecureCryptoUtils.calculateHash reconstructed)
          (hash metadata)
    | Err _ => true
    end.

(** [reconstructFromChunks(files)]. [userConfirms] is the answer the
    user gives to the [confirm] dialog. *)
Definition reconstructFromChunks (cryptoKey : option bytes)
    (maxByteLength : option nat) (userConfirms : bool)
    (files : list File) : Action Effect Reconstruction :=
  match find (λ f, JS.endsWith (name f) "_metadata.json") files with
  | None => throw MetadataNotFound
  | Some metadataFile =>
      match parsed metadataFile with
      | None => throw SyntaxError
      | Some metadata =>
          let chunkFiles := selectChunkFiles files in
          if negb (length chunkFiles =? totalChunks metadata) then
            throw (ChunkCountMismatch (totalChunks metadata)
                     (length chunkFiles))
          else
            '(decryptedChunks, chunkHashes) ←
              decryptLoop cryptoKey (isComposite metadata) 0 chunkFiles;
            let hashMatch :=
              verifyIntegrity maxByteLength metadata decryptedChunks
                chunkHashes in
            (if negb hashMatch then
               emit Confirm;;
               if negb userConfirms then throw UserCancelled else ret tt
             else ret tt);;
            download metadata decryptedChunks;;
            ret {| success := true;
                   reconstructed := decryptedChunks;
                   metadata := metadata;
                   hashMatch := hashMatch;
                   chunkFiles := chunkFiles |}
      end
  end.

(** The decryption loop of [reconstructFromZip]: no [catch] around
    the body. *)
Fixpoint decryptEntries (cryptoKey : option bytes) (composite : bool)
    (entries : list File) : Action Effect (list bytes * list string) :=
  match entries with
  | [] => ret ([], [])
  | entry :: rest =>
      decrypted ← SecureCryptoUtils.decryptChunk cryptoKey (content entry);
      '(decryptedChunks, chunkHashes) ←
        decryptEntries cryptoKey composite rest;
      ret (decrypted :: decryptedChunks,
           if composite
           then SecureCryptoUtils.calculateHash decrypted :: chunkHashes
           else chunkHashes)
  end.

(** [reconstructFromZip(zipFile)], on the entries [JSZip.loadAsync]
    lists for the container, in the order of [Object.keys(zip.files)]. *)
Definition reconstructFromZip (cryptoKey : option bytes)
    (maxByteLength : option nat) (userConfirms : bool)
    (entries : list File) : Action Effect bool :=
  match find (λ f, JS.endsWith (name f) "_metadata.json") entries with
  | None => throw MetadataNotFound
  | Some metadataFile =>
      match parsed metadataFile with
      | None => throw SyntaxError
      | Some metadata =>
          let chunkFiles := selectChunkFiles entries in
          '(decryptedChunks, chunkHashes) ←
            decryptEntries cryptoKey (isComposite metadata) chunkFiles;
          hashMatch ←
            (if isComposite metadata then
               let combinedHashes := JS.encode (JS.join chunkHashes) in
               let finalHash :=
                 SecureCryptoUtils.calculateHash combinedHashes in
               ret (String.eqb finalHash (hash metadata))
             else
               match SecureCryptoUtils.combineChunks maxByteLength
                       decryptedChunks with
               | Ok reconstructed =>
                   ret (String.eqb
                          (SecureCryptoUtils.calculateHash reconstructed)
                          (hash metadata))
               | Err e => throw e
               end);
          (if negb hashMatch then
             emit Confirm;;
             if negb userConfirms then throw UserCancelled else ret tt
           else ret tt);;
          download metadata decryptedChunks;;
          ret true
      end
  end.

(** The decryption loop of [reconstructFromArchiveV0]:
    [new Uint8Array(archiveData.chunks[i].data)] keeps every number
    modulo 256. *)
Fixpoint decryptArchived (cryptoKey : option bytes)
    (chunks : list ArchivedChunk) : Action Effect (list bytes) :=
  match chunks with
  | [] => ret []
  | chunk :: rest =>
      let chunkData := map toUint8 (archivedData chunk) in
      decrypted ← SecureCryptoUtils.decryptChunk cryptoKey chunkData;
      decryptedChunks ← decryptArchived cryptoKey rest;
      ret (decrypted :: decryptedChunks)
  end.

(** [reconstructFromArchiveV0(archiveFile)] *)
Definition reconstructFromArchiveV0 (cryptoKey : option bytes)
    (archiveFile : Upload) : Action Effect bool :=
  match archiveData archiveFile with
  | None => throw SyntaxError
  | Some archive =>
      let metadata := archiveMetadata archive in
      decryptedChunks ← decryptArchived cryptoKey (archiveChunks archive);
      download metadata decryptedChunks;;
      ret true
  end.

(** [reconstructFromArchive(archiveFile)] *)
Definition reconstructFromArchive (cryptoKey : option bytes)
    (maxByteLength : option nat) (userConfirms : bool)
    (archiveFile : Upload) : Action Effect bool :=
  if JS.endsWith (name (uploaded archiveFile)) ".zip" then
    match zipEntries archiveFile with
    | Ok entries =>
        reconstructFromZip cryptoKey maxByteLength userConfirms entries
    | Err e => throw e
    end
  else if JS.endsWith (name (uploaded archiveFile)) "_encrypted_archive.json"
  then reconstructFromArchiveV0 cryptoKey archiveFile
  else throw UnsupportedArchive.

End WithProvider.
End FileReconstructionService.

(** ** components/FileUploader.tsx: the reconstruction handler *)

Module Handlers.

(** What [showNotification] is called with at the end of
    [handleFileReconstruction]. *)
Inductive Notification : Type :=
  | ReconstructionSucceeded
      (* the message of the result, or 'File reconstructed successfully!' *)
  | ReconstructionFailed (e : Error).
      (* 'Reconstruction failed: ' + error.message *)

Section WithProvider.
Context `{WebCrypto}.

(** [handleFileReconstruction(e)] on the selection [e.target.files];
    [isInitialized] is the state of the hook. The result is [None] when
    the handler returns at once. *)
Definition handleFileReconstruction (cryptoKey : option bytes)
    (maxByteLength : option nat) (userConfirms : bool)
    (isInitialized : bool) (files : list Upload)
  : list Effect * option Notification :=
  if (length files =? 0) || negb isInitialized then ([], None)
  else
    let run : Action Effect unit :=
      match find (λ f, JS.endsWith (name (uploaded f))
                         "_encrypted_archive.json") files with
      | Some archiveFile =>
          FileReconstructionService.reconstructFromArchive cryptoKey
            maxByteLength userConfirms archiveFile;;
          ret tt
      | None =>
          FileReconstructionService.reconstructFromChunks cryptoKey
            maxByteLength userConfirms (map uploaded files);;
          ret tt
      end in
    match run with
    | (effects, Ok _) => (effects, Some ReconstructionSucceeded)
    | (effects, Err e) => (effects, Some (ReconstructionFailed e))
    end.

End WithProvider.
End Handlers.

(** ** A symbolic crypto provider *)

(** A provider whose primitives are perfect by construction: the digest
    is injective, and a ciphertext names the key and the IV it was made
    with, in a form that shows where each of them ends, and carries its
    plaintext twice. Decryption then accepts exactly the ciphertexts
    made with the same key and IV, and no ciphertext with one bit
    flipped. It instantiates the theorems below. *)
Module Symbolic.

(** A byte sequence written so that its end can be read off: [x01]
    before every byte, and [x00] after the last one. *)
Fixpoint frame (l : bytes) : bytes :=
  match l with
  | [] => [x00]
  | b :: l' => x01 :: b :: frame l'
  end.

Fixpoint stripBytes (p c : bytes) : option bytes :=
  match p with
  | [] => Some c
  | a :: p' =>
      match c with
      | b :: c' => if Byte.eqb a b then stripBytes p' c' else None
      | [] => None
      end
  end.

(** The plaintext of a ciphertext body: its first half, when the
    second half repeats it. *)
Definition opened (body : bytes) : option bytes :=
  let half := take (length body / 2) body in
  match stripBytes (half ++ half) body with
  | Some [] => Some half
  | _ => None
  end.

Definition provider : WebCrypto :=
  {| sha256 := λ data, data;
     pbkdf2 := λ password salt _, password ++ salt;
     aesGcmEncrypt := λ key iv data, frame key ++ frame iv ++ data ++ data;
     aesGcmDecrypt := λ key iv data,
       match stripBytes (frame key ++ frame iv) data with
       | Some body => opened body
       | None => None
       end |}.

(** An entropy source and the key it yields. *)
Definition entropy (i : nat) : byte := toUint8 (Z.of_nat (7 * i + 3)).

Definition masterKey : bytes := getRandomValues entropy 0 32.

(** The store after a first setup without a password, and after one
    with a password. *)
Definition plainStore : SecureKeyManager.Store :=
  (SecureKeyManager.generateAndStoreMasterKey (H := provider) entropy 0 None
     (SecureKeyManager.emptyStore true true true)).1.

Definition lockedStore : SecureKeyManager.Store :=
  (SecureKeyManager.generateAndStoreMasterKey (H := provider) entropy 0
     (Some "correct horse")
     (SecureKeyManager.emptyStore true true true)).1.

(** A backup of the key of [plainStore] under the password ["open"]. *)
Definition backup : SecureKeyManager.BackupString :=
  match SecureKeyManager.exportKeyForBackup (H := provider) entropy 1
          "open" plainStore with
  | Ok backupString => backupString
  | Err _ => SecureKeyManager.OtherText ""
  end.

(** A file of five bytes, encrypted in chunks of one byte and of four
    bytes. *)
Definition sample : File :=
  {| name := "report.pdf";
     content := [x01; x02; x03; x04; x05];
     parsed := None |}.

Definition written (run : Action FileEncryptionService.Chunk FileMetadata)
  : list File :=
  match run with
  | (chunks, Ok metadata) =>
      FileUploader.metadataFile metadata [] ::
      map FileUploader.chunkFile chunks
  | (_, Err _) => []
  end.

Definition sampleSet : list File :=
  written (FileEncryptionService.encryptFileGenerator (H := provider)
             (Some masterKey) entropy 0 sample 1).

(** The same set with its last chunk file missing. *)
Definition incompleteSet : list File := take 5 sampleSet.

(** A set with metadata of the earlier format (no [hashType]) whose
    hash is not the hash of the file. *)
Definition legacySet : list File :=
  [ {| name := "old_metadata.json";
       content := [];
       parsed :=
         Some {| originalFileName := "old";
                 originalExtension := "txt";
                 originalSize := 2;
                 totalChunks := 1;
                 timestamp := 0;
                 hash := "0000";
                 hashType := None;
                 chunkSize := 2 |} |};
    {| name := "old_chunk_0000.enc";
       content :=
         getRandomValues entropy 0 12 ++
         aesGcmEncrypt (WebCrypto := provider) masterKey
           (getRandomValues entropy 0 12) [x68; x69];
       parsed := None |} ].

(** A chunk that no encryption under [masterKey] produced. *)
Definition forged : bytes := replicate 13 x00.

(** The file [file] with [data] for its content. *)
Definition withContent (data : bytes) (file : File) : File :=
  {| name := name file; content := data; parsed := parsed file |}.

(** [sampleSet] with one bit flipped in the file of its second chunk:
    bit 0 of byte 102, the first byte after the IV, the key and the
    IV that the ciphertext names. *)
Definition tamperedSet : list File :=
  alter (λ file, withContent (flipped 102 0 (content file)) file) 2 sampleSet.

(** [sampleSet] with the bytes of its second chunk in the file of its
    first chunk too. *)
Definition substitutedSet : list File :=
  match sampleSet with
  | metadataFile :: first :: second :: rest =>
      metadataFile :: withContent (content second) first :: second :: rest
  | files => files
  end.

(** [incompleteSet] with a file that is no chunk file next to it. *)
Definition notes : File :=
  {| name := "notes.enc"; content := forged; parsed := None |}.

Definition straySet : list File := incompleteSet ++ [notes].

(** A second entropy source. *)
Definition entropy' (i : nat) : byte := entropy (S i).

(** A store that has lost its primary records and kept the secondary
    store of [lockedStore]. *)
Definition wipedStore : SecureKeyManager.Store :=
  {| SecureKeyManager.localStorage := ∅;
     SecureKeyManager.indexedDB := SecureKeyManager.indexedDB lockedStore;
     SecureKeyManager.storageWritable := true;
     SecureKeyManager.secureContext := true |}.

(** A store whose only record is a text that does not parse. *)
Definition corruptStore : SecureKeyManager.Store :=
  {| SecureKeyManager.localStorage :=
       {[ SecureKeyManager.plainStorageKey :=
            SecureKeyManager.Text "{broken" ]};
     SecureKeyManager.indexedDB := Some ∅;
     SecureKeyManager.storageWritable := true;
     SecureKeyManager.secureContext := true |}.

(** A file whose name holds a chunk number of its own. *)
Definition numbered : File :=
  {| name := "chunk_7.bin";
     content := [x0a; x0b; x0c];
     parsed := None |}.

(** An archive of the JSON format with the chunk of [legacySet], whose
    metadata states the hash [hash] and [count] chunks. *)
Definition jsonArchive (hash : string) (count : nat) : Upload :=
  {| uploaded :=
       {| name := "old_encrypted_archive.json";
          content := [];
          parsed := None |};
     archiveData :=
       Some {| archiveMetadata :=
                 {| originalFileName := "old";
                    originalExtension := "txt";
                    originalSize := 2;
                    totalChunks := count;
                    timestamp := 0;
                    hash := hash;
                    hashType := None;
                    chunkSize := 2 |};
               archiveChunks :=
                 [ {| archivedFilename := "old_chunk_0000.enc";
                      archivedData :=
                        map (λ b, Z.of_nat (Byte.to_nat b))
                          (getRandomValues entropy 0 12 ++
                           aesGcmEncrypt (WebCrypto := provider) masterKey
                             (getRandomValues entropy 0 12) [x68; x69]) |} ]
            |};
     zipEntries := Err DataError |}.

End Symbolic.

(** * Properties *)

(** ** Bit flips *)

Lemma flipBit_neq (bit : nat) (b : byte) : bit < 8 → flipBit bit b ≠ b.
Proof.
  intros Hbit.
  do 8 (destruct bit as [|bit]; [by destruct b|]). lia.
Qed.

Lemma flipped_length (index bit : nat) (data : bytes) :
  length (flipped index bit data) = length data.
Proof. apply length_alter. Qed.

Lemma flipped_neq (index bit : nat) (data : bytes) :
  index < length data → bit < 8 → flipped index bit data ≠ data.
Proof.
  intros Hindex Hbit Heq.
  destruct (lookup_lt_is_Some_2 data index Hindex) as [b Hb].
  pose proof (list_lookup_alter_eq (flipBit bit) data index) as Hflip.
  unfold flipped in Heq. rewrite Heq, Hb in Hflip.
  injection Hflip as Hflip. by eapply flipBit_neq.
Qed.

(** ** Hexadecimal text *)

Lemma byteToHex_parse (b : byte) :
  toUint8 (default 0%Z (JS.parseInt16 (byteToHex b))) = b.
Proof. destruct b; reflexivity. Qed.

Lemma byteToHex_shape (b : byte) :
  ∃ c d, byteToHex b = String c (String d "") ∧
         JS.isLineTerminator c = false ∧ JS.isLineTerminator d = false.
Proof. destruct b; do 2 eexists; repeat split. Qed.

Lemma matchPairs_pair (c d : ascii) (s : string) :
  JS.isLineTerminator c = false → JS.isLineTerminator d = false →
  JS.matchPairs (String c (String d s))
  = String c (String d "") :: JS.matchPairs s.
Proof. intros Hc Hd. cbn [JS.matchPairs]. by rewrite Hc, Hd. Qed.

Lemma matchPairs_toHex (data : bytes) :
  JS.matchPairs (toHex data) = map byteToHex data.
Proof.
  induction data as [|b data IH]; [reflexivity|].
  destruct (byteToHex_shape b) as (c & d & Hb & Hc & Hd).
  cbn [toHex map]. rewrite Hb.
  change (String c (String d "") +:+ toHex data)
    with (String c (String d (toHex data))).
  by rewrite matchPairs_pair, IH.
Qed.

(** Decoding the hexadecimal text of a non-empty array gives it back. *)
Lemma fromHex_toHex (data : bytes) :
  data ≠ [] → fromHex (toHex data) = Some data.
Proof.
  intros Hne. unfold fromHex. rewrite matchPairs_toHex.
  destruct data as [|b data]; [done|].
  cbn [map]. f_equal. rewrite byteToHex_parse. f_equal.
  clear Hne. induction data as [|b' data IH]; [reflexivity|].
  cbn [map]. by rewrite byteToHex_parse, IH.
Qed.

Lemma fromHex_nonempty (hex : string) (data : bytes) :
  fromHex hex = Some data → data ≠ [].
Proof.
  unfold fromHex. destruct (JS.matchPairs hex); [done|].
  intros [= <-]. done.
Qed.

Lemma toHex_cons (b : byte) (data : bytes) :
  toHex (b :: data) =
  String (hexDigit (Byte.to_nat b / 16))
    (String (hexDigit (Byte.to_nat b mod 16)) (toHex data)).
Proof. reflexivity. Qed.

Lemma toHex_app (a b : bytes) : toHex (a ++ b) = toHex a +:+ toHex b.
Proof.
  induction a as [|x a IH]; [reflexivity|].
  rewrite <- app_comm_cons, !toHex_cons, IH. reflexivity.
Qed.

Lemma toHex_inj (a b : bytes) : toHex a = toHex b → a = b.
Proof.
  destruct a as [|x a], b as [|y b]; rewrite ?toHex_cons;
    [done | discriminate | discriminate | ].
  intros Heq.
  assert (fromHex (toHex (x :: a)) = fromHex (toHex (y :: b))) as Hf
    by (by rewrite !toHex_cons, Heq).
  rewrite !fromHex_toHex in Hf by done. congruence.
Qed.

(** ** The key vault *)

Section KeyVault.
Context `{WebCrypto}.
Import SecureKeyManager.

Lemma storageKeys_prefixed (key : string) :
  key ∈ storageKeys → JS.startsWith key STORAGE_PREFIX = true.
Proof.
  unfold storageKeys. rewrite !elem_of_cons, elem_of_nil.
  intros [-> | [-> | []]]; reflexivity.
Qed.

Lemma getItem_setItem (st st' : Store) (key : string) (keyInfo : KeyInfo) :
  setItem st key (Json keyInfo) = Ok st' →
  getItem st' key = Some (Json keyInfo).
Proof.
  unfold setItem, getItem. destruct (storageWritable st); [|done].
  intros [= <-]. cbn. by rewrite lookup_insert_eq.
Qed.

Lemma getItem_storeInIndexedDB (st st' : Store) (key k : string)
    (value : StoredText) :
  storeInIndexedDB st key value = Ok st' → getItem st' k = getItem st k.
Proof.
  unfold storeInIndexedDB, getItem. destruct (indexedDB st); [|done].
  by intros [= <-].
Qed.

Lemma hasMasterKey_local (st : Store) (key : string) :
  key ∈ storageKeys → is_Some (getItem st key) → hasMasterKey st = true.
Proof.
  intros Hin Hsome. unfold hasMasterKey.
  assert (existsb (λ key, bool_decide (is_Some (getItem st key)))
            storageKeys = true) as ->; [|done].
  apply existsb_exists. exists key. split.
  - by apply list_elem_of_In.
  - by apply bool_decide_eq_true.
Qed.

Lemma firstParsed_absent (get : string → option StoredText)
    (password : option string) (keys : list string) :
  (∀ key, key ∈ keys → get key = None) →
  firstParsed get password keys = None.
Proof.
  induction keys as [|key keys IH]; intros Hget; [done|].
  cbn. rewrite Hget by left. apply IH. intros k Hk. apply Hget. by right.
Qed.

(** With no record under either name in either store, the lookup ends
    with [KeyNotFound]. *)
Lemma getMasterKey_absent (st : Store) (password : option string) :
  (∀ key, key ∈ storageKeys → getItem st key = None) →
  (∀ key, key ∈ storageKeys → getDataFromIndexedDB st key = None) →
  getMasterKey st password = Err KeyNotFound.
Proof.
  intros Hls Hdb. unfold getMasterKey, getFromLocalStorage, getFromIndexedDB.
  by rewrite !firstParsed_absent.
Qed.

(** The primary store is read first: a key it yields is returned
    whatever the secondary store holds. *)
Lemma getMasterKey_primary_first (st : Store) (password : option string)
    (key : bytes) :
  getFromLocalStorage st password = Some key →
  getMasterKey st password = Ok key.
Proof. unfold getMasterKey. by intros ->. Qed.

(** The secondary store is the fallback of the primary one. *)
Lemma getMasterKey_fallback (st : Store) (password : option string) :
  getFromLocalStorage st password = None →
  getMasterKey st password =
    match getFromIndexedDB st password with
    | Some key => Ok key
    | None => Err KeyNotFound
    end.
Proof. unfold getMasterKey. by intros ->. Qed.

Lemma clearAllKeys_getItem (cleared : bool) (st : Store) (key : string) :
  JS.startsWith key STORAGE_PREFIX = true →
  getItem (clearAllKeys cleared st) key = None.
Proof.
  intros Hpre. unfold getItem, clearAllKeys, clearIndexedDB. cbn.
  rewrite map_lookup_filter_None_2; [done|].
  right. intros t _. cbn [fst]. by rewrite Hpre.
Qed.

(** A clearing that goes through leaves no record in the secondary
    store. *)
Lemma clearAllKeys_getData (st : Store) (key : string) :
  getDataFromIndexedDB (clearAllKeys true st) key = None.
Proof.
  unfold getDataFromIndexedDB, clearAllKeys, clearIndexedDB. cbn.
  destruct (indexedDB st); [by rewrite lookup_empty|done].
Qed.

(** A clearing that fails leaves every record of the secondary store
    where it was. *)
Lemma clearAllKeys_stale (st : Store) (key : string) :
  getDataFromIndexedDB (clearAllKeys false st) key =
  getDataFromIndexedDB st key.
Proof.
  unfold getDataFromIndexedDB, clearAllKeys, clearIndexedDB. cbn.
  by destruct (indexedDB st).
Qed.

Lemma generate_stores (entropy : nat → byte) (now : Z)
    (password : option string) (st st' : Store) (hexKey : string) :
  generateAndStoreMasterKey entropy now password st = (st', Ok hexKey) →
  ∃ key keyInfo,
    key ∈ storageKeys ∧ getItem st' key = Some (Json keyInfo) ∧
    encrypted keyInfo = bool_decide (is_Some (givenPassword password)) ∧
    hexKey = toHex (getRandomValues entropy 0 32).
Proof.
  unfold generateAndStoreMasterKey, generateAndStoreMasterKeyBody.
  destruct (isCryptoAvailable st); cbn [negb]; [|done].
  destruct (givenPassword password) as [pw|] eqn:Hpw;
    (destruct (setItem st _ _) as [st1|e] eqn:Hset; [|done]);
    intros [= <- <-];
    (eexists _, _; split; [|split; [|split; [|reflexivity]]]);
    [ | destruct (storeInIndexedDB st1 _ _) as [st2|e] eqn:Hdb;
        [ erewrite getItem_storeInIndexedDB by done | ];
        by eapply getItem_setItem
      | reflexivity
      | | destruct (storeInIndexedDB st1 _ _) as [st2|e] eqn:Hdb;
        [ erewrite getItem_storeInIndexedDB by done | ];
        by eapply getItem_setItem
      | reflexivity ];
    unfold storageKeys; set_solver.
Qed.

(** C9, as the code has it. [hasMasterKey()] is [false] in the initial
    empty state, and [true] in every state a successful
    [generateAndStoreMasterKey] reaches, with or without a password.
    After [clearAllKeys] it is [false] again whenever the clearing of
    the secondary store goes through; when that clearing fails, which
    [clearIndexedDB] logs and [clearAllKeys] does not report,
    [hasMasterKey()] is [true] exactly when the secondary store holds
    a record under one of the two names. *)
Theorem hasMasterKey_lifecycle :
  (∀ idb writable secure,
     hasMasterKey (emptyStore idb writable secure) = false) ∧
  (∀ entropy now password st st' hexKey,
     generateAndStoreMasterKey entropy now password st = (st', Ok hexKey) →
     hasMasterKey st' = true) ∧
  (∀ st, hasMasterKey (clearAllKeys true st) = false) ∧
  (∀ st, hasMasterKey (clearAllKeys false st) =
         existsb (λ key, bool_decide (is_Some (getDataFromIndexedDB st key)))
           storageKeys).
Proof.
  split; [|split; [|split]].
  - intros [] writable secure; reflexivity.
  - intros entropy now password st st' hexKey Hgen.
    destruct (generate_stores _ _ _ _ _ _ Hgen) as (key & ki & Hin & Hget & _).
    eapply hasMasterKey_local; [done|]. by rewrite Hget.
  - intros st. unfold hasMasterKey, storageKeys. cbn [existsb].
    rewrite !clearAllKeys_getData.
    rewrite !clearAllKeys_getItem by reflexivity. reflexivity.
  - intros st. unfold hasMasterKey, storageKeys. cbn [existsb].
    rewrite !clearAllKeys_stale.
    rewrite !clearAllKeys_getItem by reflexivity. reflexivity.
Qed.

Lemma parseStoredKey_needs_password (keyInfo : KeyInfo)
    (password : option string) :
  encrypted keyInfo = true → givenPassword password = None →
  parseStoredKeyBody (Json keyInfo) password = Err PasswordRequired ∧
  parseStoredKey (Json keyInfo) password = None.
Proof.
  intros Henc Hpw. unfold parseStoredKey, parseStoredKeyBody.
  by rewrite Henc, Hpw.
Qed.

Lemma firstParsed_needs_password (get : string → option StoredText)
    (password : option string) (keys : list string) :
  givenPassword password = None →
  (∀ key t, key ∈ keys → get key = Some t →
     ∃ keyInfo, t = Json keyInfo ∧ encrypted keyInfo = true) →
  firstParsed get password keys = None.
Proof.
  intros Hpw. induction keys as [|key keys IH]; intros Hget; [done|].
  cbn. destruct (get key) as [t|] eqn:Ht.
  - destruct (Hget key t) as (keyInfo & -> & Henc); [by left|done|].
    destruct (parseStoredKey_needs_password keyInfo password) as [_ ->];
      [done..|].
    apply IH. intros k t Hk. apply Hget. by right.
  - apply IH. intros k t Hk. apply Hget. by right.
Qed.

(** C3. Where the specification has [PasswordRequired] the lookup ends
    with [KeyNotFound]: when every record stored under the two names is
    encrypted and no password is supplied, [parseStoredKey] throws
    'Password required for encrypted key' inside its own [try], its
    [catch] returns [null], and [getMasterKey] finds nothing. *)
Theorem getMasterKey_encrypted_without_password (st : Store)
    (password : option string) :
  givenPassword password = None →
  (∀ key t, key ∈ storageKeys → getItem st key = Some t →
     ∃ keyInfo, t = Json keyInfo ∧ encrypted keyInfo = true) →
  (∀ key t, key ∈ storageKeys → getDataFromIndexedDB st key = Some t →
     ∃ keyInfo, t = Json keyInfo ∧ encrypted keyInfo = true) →
  getMasterKey st password = Err KeyNotFound ∧
  getMasterKey st password ≠ Err PasswordRequired.
Proof.
  intros Hpw Hls Hdb.
  assert (getMasterKey st password = Err KeyNotFound) as Hres.
  { unfold getMasterKey, getFromLocalStorage, getFromIndexedDB.
    by rewrite !firstParsed_needs_password. }
  by rewrite Hres.
Qed.

Section Backup.
(** What an AEAD cipher does: decryption inverts encryption under the
    same key and IV. *)
Hypothesis decrypt_encrypt : ∀ key iv plaintext,
  aesGcmDecrypt key iv (aesGcmEncrypt key iv plaintext) = Some plaintext.

Lemma wrapped_layout (salt iv encrypted : bytes) :
  length salt = 16 → length iv = 12 →
  take 16 (salt ++ iv ++ encrypted) = salt ∧
  take 12 (drop 16 (salt ++ iv ++ encrypted)) = iv ∧
  drop 28 (salt ++ iv ++ encrypted) = encrypted.
Proof.
  intros Hs Hi. split; [|split].
  - by rewrite take_app_length'.
  - by rewrite drop_app_length', take_app_length'.
  - rewrite app_assoc, drop_app_length'; [done|].
    rewrite length_app. lia.
Qed.

Lemma getRandomValues_length (entropy : nat → byte) (pos len : nat) :
  length (getRandomValues entropy pos len) = len.
Proof. unfold getRandomValues. by rewrite length_map, length_seq. Qed.

(** Unwrapping reads back the salt and the IV that wrapping wrote. *)
Lemma decryptKeyWithPassword_wrapped (entropy : nat → byte)
    (keyMaterial : bytes) (password password' : string) :
  decryptKeyWithPassword
    (encryptKeyWithPassword entropy keyMaterial password) password' =
  let salt := getRandomValues entropy 0 16 in
  let iv := getRandomValues entropy 16 12 in
  match aesGcmDecrypt (pbkdf2 (JS.encode password') salt 100000%N) iv
          (aesGcmEncrypt (pbkdf2 (JS.encode password) salt 100000%N) iv
             keyMaterial) with
  | Some decrypted => Ok decrypted
  | None => Err OperationError
  end.
Proof.
  unfold decryptKeyWithPassword, encryptKeyWithPassword.
  set (salt := getRandomValues entropy 0 16).
  set (iv := getRandomValues entropy 16 12).
  set (encrypted := aesGcmEncrypt _ iv keyMaterial).
  rewrite fromHex_toHex by (by subst salt).
  destruct (wrapped_layout salt iv encrypted) as (-> & -> & ->);
    [apply getRandomValues_length..|].
  reflexivity.
Qed.

Lemma decryptKeyWithPassword_same (entropy : nat → byte)
    (keyMaterial : bytes) (password : string) :
  decryptKeyWithPassword
    (encryptKeyWithPassword entropy keyMaterial password) password =
  Ok keyMaterial.
Proof.
  rewrite decryptKeyWithPassword_wrapped. cbn zeta.
  by rewrite decrypt_encrypt.
Qed.

(** A store whose primary record under the plain name is the
    hexadecimal text of [key] yields [key] without a password. *)
Lemma getMasterKey_plain_record (st : Store) (key : bytes)
    (keyInfo : KeyInfo) :
  key ≠ [] →
  getItem st plainStorageKey = Some (Json keyInfo) →
  encrypted keyInfo = false → data keyInfo = toHex key →
  getMasterKey st None = Ok key.
Proof.
  intros Hne Hget Henc Hdata. apply getMasterKey_primary_first.
  unfold getFromLocalStorage, storageKeys. cbn [firstParsed].
  rewrite Hget. unfold parseStoredKey, parseStoredKeyBody.
  by rewrite Henc, Hdata, fromHex_toHex.
Qed.

(** What an import does once the wrapped key unwraps to [decrypted]:
    nothing when the checksum differs or the primary store refuses
    the write, and otherwise the record of [decrypted] is in the
    primary store, whether or not the secondary store takes it. *)
Lemma import_outcome (now : Z) (backupData : BackupData)
    (password : string) (st : Store) (decrypted : bytes) :
  decryptKeyWithPassword (backupPayload backupData) password
    = Ok decrypted →
  let result :=
    importKeyFromBackup now (Base64Json backupData) password st in
  (calculateChecksum decrypted ≠ checksum backupData ∧
   result = (st, Err ImportFailed)) ∨
  (storageWritable st = false ∧ result = (st, Err ImportFailed)) ∨
  (calculateChecksum decrypted = checksum backupData ∧
   storageWritable st = true ∧
   (is_Some (indexedDB st) → result.2 = Ok tt) ∧
   ∃ keyInfo, getItem result.1 plainStorageKey = Some (Json keyInfo) ∧
              encrypted keyInfo = false ∧
              data keyInfo = toHex decrypted).
Proof.
  intros Hdec. cbn zeta.
  unfold importKeyFromBackup, importKeyFromBackupBody.
  rewrite Hdec.
  destruct (String.eqb_spec (calculateChecksum decrypted)
              (checksum backupData)) as [Hsum|Hsum]; cbn [negb];
    [|by left].
  right.
  destruct (setItem st _ _) as [st1|e] eqn:Hset.
  2:{ left. split; [|done]. unfold setItem in Hset.
      by destruct (storageWritable st). }
  assert (storageWritable st = true) as Hw.
  { unfold setItem in Hset. by destruct (storageWritable st). }
  assert (indexedDB st1 = indexedDB st) as Hidb.
  { unfold setItem in Hset. rewrite Hw in Hset. by injection Hset as <-. }
  right. split; [done|]. split; [done|].
  destruct (storeInIndexedDB st1 _ _) as [st2|e] eqn:Hdb; cbn [fst snd].
  - split; [done|]. eexists. split;
      [erewrite getItem_storeInIndexedDB by done;
       by eapply getItem_setItem
      |split; reflexivity].
  - split.
    + intros [db Hsome]. unfold storeInIndexedDB in Hdb.
      rewrite Hidb in Hdb. by rewrite Hsome in Hdb.
    + eexists. split; [by eapply getItem_setItem|split; reflexivity].
Qed.

(** C2, as the code has it. For a stored 32-byte key [k] that is
    readable without a password, and every password [P]:
    [exportKeyForBackup(P)] succeeds; importing its result with [P]
    into a writable store leaves a record from which [getMasterKey()]
    recovers [k], and resolves when the secondary store is available
    too; importing it with a password under which the AEAD cipher
    rejects the wrapped key fails with the one error
    [importKeyFromBackup] throws for every failure ('Failed to import
    key - ...') and leaves the store as it was; with any password at
    all, the import never ends with the checksum error, and it either
    leaves the store as it was or stores the plain record of a key with
    the checksum of [k]; and that key is [k] itself, the one
    [getMasterKey()] then returns, whenever no other input shares the
    digest of [k]. *)
Theorem backup_symmetry (st : Store) (k : bytes) (P : string)
    (entropy : nat → byte) (now : Z) :
  length k = 32 →
  getMasterKey st None = Ok k →
  ∃ backupData,
    exportKeyForBackup entropy now P st = Ok (Base64Json backupData) ∧
    (∀ now' st0,
       storageWritable st0 = true →
       let '(st0', r) :=
         importKeyFromBackup now' (Base64Json backupData) P st0 in
       getMasterKey st0' None = Ok k ∧
       (is_Some (indexedDB st0) → r = Ok tt)) ∧
    (∀ P' now' st0,
       (let salt := getRandomValues entropy 0 16 in
        let iv := getRandomValues entropy 16 12 in
        aesGcmDecrypt (pbkdf2 (JS.encode P') salt 100000%N) iv
          (aesGcmEncrypt (pbkdf2 (JS.encode P) salt 100000%N) iv k)
        = None) →
       importKeyFromBackup now' (Base64Json backupData) P' st0
       = (st0, Err ImportFailed)) ∧
    (∀ P' now' st0,
       let '(st0', r) :=
         importKeyFromBackup now' (Base64Json backupData) P' st0 in
       r ≠ Err ChecksumMismatch ∧
       (st0' = st0 ∨
        ∃ k' keyInfo,
          sha256 k' = sha256 k ∧
          getItem st0' plainStorageKey = Some (Json keyInfo) ∧
          encrypted keyInfo = false ∧ data keyInfo = toHex k')) ∧
    ((∀ k', sha256 k' = sha256 k → k' = k) →
     ∀ P' now' st0,
       let st0' :=
         (importKeyFromBackup now' (Base64Json backupData) P' st0).1 in
       st0' = st0 ∨ getMasterKey st0' None = Ok k).
Proof.
  intros Hlen Hkey.
  assert (k ≠ []) as Hne by (by destruct k).
  unfold exportKeyForBackup. rewrite Hkey.
  set (bd := {| backupVersion := KEY_VERSION;
                backupTimestamp := now;
                backupPayload := encryptKeyWithPassword entropy k P;
                checksum := calculateChecksum k |}).
  assert (∀ P' now' st0,
    let '(st0', r) := importKeyFromBackup now' (Base64Json bd) P' st0 in
    r ≠ Err ChecksumMismatch ∧
    (st0' = st0 ∨
     ∃ k' keyInfo,
       sha256 k' = sha256 k ∧
       getItem st0' plainStorageKey = Some (Json keyInfo) ∧
       encrypted keyInfo = false ∧ data keyInfo = toHex k')) as Hany.
  { intros P' now' st0.
    destruct (decryptKeyWithPassword (backupPayload bd) P')
      as [k'|e] eqn:Hdec.
    - pose proof (import_outcome now' bd P' st0 k' Hdec) as Hout.
      cbn zeta in Hout.
      destruct (importKeyFromBackup _ _ _ _) as [st0' r] eqn:Himp.
      split.
      { unfold importKeyFromBackup in Himp.
        destruct (importKeyFromBackupBody _ _ _ _) as [st1 [[]|e]];
          by injection Himp as _ <-. }
      destruct Hout as [[_ [= -> _]] | [[_ [= -> _]] |
                        (Hsum & _ & _ & ki & Hget & Henc & Hd)]];
        [by left..|].
      right. exists k', ki. cbn in Hsum. by apply toHex_inj in Hsum.
    - unfold importKeyFromBackup, importKeyFromBackupBody.
      rewrite Hdec. split; [done|by left]. }
  exists bd. split; [done|]. split; [|split; [|split]].
  - intros now' st0 Hw.
    pose proof (import_outcome now' bd P st0 k
                  (decryptKeyWithPassword_same entropy k P)) as Hout.
    cbn zeta in Hout.
    destruct (importKeyFromBackup _ _ _ _) as [st0' r] eqn:Himp.
    destruct Hout as [[Hsum _] | [[Hw' _] |
                      (_ & _ & Hr & keyInfo & Hget & Henc & Hd)]].
    + done.
    + congruence.
    + split; [by eapply getMasterKey_plain_record|]. apply Hr.
  - intros P' now' st0 Hreject.
    unfold importKeyFromBackup, importKeyFromBackupBody.
    change (backupPayload bd) with (encryptKeyWithPassword entropy k P).
    rewrite decryptKeyWithPassword_wrapped. cbn zeta in *.
    by rewrite Hreject.
  - exact Hany.
  - intros digest_unique P' now' st0. cbn zeta.
    specialize (Hany P' now' st0).
    destruct (importKeyFromBackup _ _ _ _) as [st0' r]. cbn [fst].
    destruct Hany as [_ [->|(k' & ki & Hsum & Hget & Henc & Hd)]];
      [by left|].
    right. apply digest_unique in Hsum. subst k'.
    by eapply getMasterKey_plain_record.
Qed.

End Backup.

End KeyVault.

(** ** Strings and chunk names *)

Section Strings.

Lemma app_cons (c : ascii) (s t : string) :
  String c s +:+ t = String c (s +:+ t).
Proof. reflexivity. Qed.

Lemma app_nil_l (t : string) : "" +:+ t = t.
Proof. reflexivity. Qed.

Lemma string_app_assoc (a b c : string) : (a +:+ b) +:+ c = a +:+ b +:+ c.
Proof.
  induction a as [|x a IH]; [reflexivity|].
  by rewrite !app_cons, IH.
Qed.

Lemma endsWith_unfold (s suf : string) :
  JS.endsWith s suf =
  String.eqb s suf ||
  match s with
  | String _ s' => JS.endsWith s' suf
  | EmptyString => false
  end.
Proof. by destruct s. Qed.

Lemma endsWith_refl (s : string) : JS.endsWith s s = true.
Proof. by rewrite endsWith_unfold, String.eqb_refl. Qed.

Lemma endsWith_app (a suf : string) : JS.endsWith (a +:+ suf) suf = true.
Proof.
  induction a as [|x a IH]; [apply endsWith_refl|].
  rewrite app_cons, endsWith_unfold, IH. apply orb_true_r.
Qed.

Lemma lastChar_app (a b : string) :
  b ≠ "" → JS.lastChar (a +:+ b) = JS.lastChar b.
Proof.
  intros Hb. induction a as [|x a IH]; [reflexivity|].
  rewrite app_cons. cbn [JS.lastChar]. rewrite IH.
  destruct (a +:+ b) eqn:Hab; [|done].
  destruct a; [by rewrite app_nil_l in Hab|by rewrite app_cons in Hab].
Qed.

Lemma endsWith_lastChar (s suf : string) :
  suf ≠ "" → JS.endsWith s suf = true → JS.lastChar s = JS.lastChar suf.
Proof.
  intros Hsuf. induction s as [|x s IH]; rewrite endsWith_unfold.
  - rewrite orb_false_r. by intros ->%String.eqb_eq.
  - intros [->%String.eqb_eq | Hs]%orb_true_iff; [done|].
    rewrite <- (IH Hs). cbn [JS.lastChar].
    destruct s; [|done]. rewrite endsWith_unfold, orb_false_r in Hs.
    by apply String.eqb_eq in Hs.
Qed.

Lemma takeDigits_app (ds r : string) :
  JS.allDigits ds = true → JS.takeDigits r = "" →
  JS.takeDigits (ds +:+ r) = ds.
Proof.
  intros Hds Hr. induction ds as [|c ds IH]; [done|].
  cbn in Hds. apply andb_true_iff in Hds as [Hc Hds].
  rewrite app_cons. cbn [JS.takeDigits]. by rewrite Hc, IH.
Qed.

Lemma takeDigits_stop (s r : string) (c : ascii) :
  JS.isDigit c = false →
  JS.takeDigits (s +:+ String c r) = JS.takeDigits s.
Proof.
  intros Hc. induction s as [|x s IH].
  - rewrite app_nil_l. cbn [JS.takeDigits]. by rewrite Hc.
  - rewrite app_cons. cbn [JS.takeDigits]. by rewrite IH.
Qed.

Lemma allDigits_app (a b : string) :
  JS.allDigits a = true → JS.allDigits b = true →
  JS.allDigits (a +:+ b) = true.
Proof.
  intros Ha Hb. induction a as [|x a IH]; [done|].
  cbn in Ha. apply andb_true_iff in Ha as [Hx Ha].
  rewrite app_cons. cbn [JS.allDigits]. by rewrite Hx, IH.
Qed.

Lemma allDigits_repeatChar (n : nat) :
  JS.allDigits (JS.repeatChar "0" n) = true.
Proof.
  induction n as [|n IH]; [done|].
  cbn [JS.repeatChar JS.allDigits]. by rewrite IH.
Qed.

Lemma allDigits_string_of_uint (d : Decimal.uint) :
  JS.allDigits (NilEmpty.string_of_uint d) = true.
Proof.
  induction d; cbn [NilEmpty.string_of_uint JS.allDigits]; by rewrite ?IHd.
Qed.

Lemma parseDigits_string_of_uint (d : Decimal.uint) (acc : nat) :
  JS.parseDigits acc (NilEmpty.string_of_uint d) = Nat.of_uint_acc d acc.
Proof.
  revert acc. induction d; intros acc;
    cbn [NilEmpty.string_of_uint JS.parseDigits Nat.of_uint_acc];
    [done|rewrite IHd, Nat.tail_mul_spec; f_equal; cbn; lia..].
Qed.

Lemma parseDigits_zeros (n : nat) (s : string) :
  JS.parseDigits 0 (JS.repeatChar "0" n +:+ s) = JS.parseDigits 0 s.
Proof.
  induction n as [|n IH]; [done|].
  cbn [JS.repeatChar]. rewrite app_cons. cbn [JS.parseDigits]. apply IH.
Qed.

(** Reading back the padded decimal text of an index gives the index. *)
Lemma parseInt_padStart (i : nat) :
  JS.parseInt (JS.padStart 4 "0" (JS.toString i)) = i.
Proof.
  unfold JS.parseInt, JS.padStart, JS.toString.
  rewrite parseDigits_zeros, parseDigits_string_of_uint.
  apply Unsigned.of_to.
Qed.

Lemma padStart_digits (i : nat) :
  JS.allDigits (JS.padStart 4 "0" (JS.toString i)) = true ∧
  JS.padStart 4 "0" (JS.toString i) ≠ "".
Proof.
  unfold JS.padStart, JS.toString. split.
  - apply allDigits_app;
      [apply allDigits_repeatChar|apply allDigits_string_of_uint].
  - destruct (NilEmpty.string_of_uint (Nat.to_uint i)) as [|c s];
      [done|].
    destruct (JS.repeatChar "0" _); [by rewrite app_nil_l|by rewrite app_cons].
Qed.

Lemma stripPrefix_app (p s t u : string) :
  JS.stripPrefix p s = Some t → JS.stripPrefix p (s +:+ u) = Some (t +:+ u).
Proof.
  revert s. induction p as [|a p IH]; intros s; cbn [JS.stripPrefix].
  - by intros [= ->].
  - destruct s as [|b s]; [done|]. rewrite app_cons.
    destruct (Ascii.eqb a b); [apply IH|done].
Qed.

(** Where ["chunk_"] only fits once ["_"] and more text is appended,
    the text before was ["chunk"]: what follows is the appended rest. *)
Lemma stripPrefix_chunk_boundary (a r t : string) :
  JS.stripPrefix "chunk_" a = None →
  JS.stripPrefix "chunk_" (a +:+ String "_" r) = Some t →
  t = r.
Proof.
  destruct a as [|c1 [|c2 [|c3 [|c4 [|c5 [|c6 a]]]]]];
    rewrite ?app_cons, ?app_nil_l; cbn [JS.stripPrefix];
    repeat match goal with
      | |- context [Ascii.eqb ?x ?y] =>
          destruct (Ascii.eqb_spec x y); subst; try done
      end; cbn; try done; congruence.
Qed.

(** Appending ["_"] and a text that does not start with a digit adds
    no match inside [a] and changes none. *)
Lemma matchChunk_app (a r : string) :
  JS.takeDigits r = "" →
  JS.matchChunk (a +:+ String "_" r) =
    match JS.matchChunk a with
    | Some ds => Some ds
    | None => JS.matchChunk (String "_" r)
    end.
Proof.
  intros Hr. induction a as [|c a IH]; [by rewrite app_nil_l|].
  rewrite app_cons. cbn [JS.matchChunk]. rewrite <- app_cons.
  destruct (JS.stripPrefix "chunk_" (String c a)) as [t|] eqn:Hstrip.
  - rewrite (stripPrefix_app _ _ _ _ Hstrip).
    rewrite takeDigits_stop by done.
    destruct (JS.takeDigits t); [apply IH|done].
  - destruct (JS.stripPrefix "chunk_" (String c a +:+ String "_" r))
      as [t|] eqn:Hstrip'; [|apply IH].
    apply stripPrefix_chunk_boundary in Hstrip' as ->; [|done].
    rewrite Hr. apply IH.
Qed.

Lemma matchChunk_suffix (ds : string) :
  JS.allDigits ds = true → ds ≠ "" →
  JS.matchChunk ("_chunk_" +:+ ds +:+ ".enc") = Some ds.
Proof.
  intros Hds Hne.
  change ("_chunk_" +:+ ds +:+ ".enc")
    with (String "_" (String "c" (String "h" (String "u" (String "n"
           (String "k" (String "_" (ds +:+ ".enc")))))))).
  cbn [JS.matchChunk JS.stripPrefix Ascii.eqb Bool.eqb].
  rewrite takeDigits_app by done. by destruct ds.
Qed.

(** The number the sort reads from a chunk name: the index, unless the
    base name has a match of its own, which then is read for every
    chunk alike. *)
Lemma chunkNumber_chunkFilename (fileName : string) (i : nat) :
  FileReconstructionService.chunkNumber
    (FileEncryptionService.chunkFilename fileName i) =
  match JS.matchChunk fileName with
  | Some ds => JS.parseInt ds
  | None => i
  end.
Proof.
  unfold FileReconstructionService.chunkNumber,
    FileEncryptionService.chunkFilename.
  destruct (padStart_digits i) as [Hds Hne].
  change ("_chunk_" +:+ JS.padStart 4 "0" (JS.toString i) +:+ ".enc")
    with (String "_" ("chunk_" +:+ JS.padStart 4 "0" (JS.toString i)
                      +:+ ".enc")).
  rewrite matchChunk_app by done.
  destruct (JS.matchChunk fileName); [done|].
  change (String "_" ("chunk_" +:+ JS.padStart 4 "0" (JS.toString i)
                      +:+ ".enc"))
    with ("_chunk_" +:+ JS.padStart 4 "0" (JS.toString i) +:+ ".enc").
  rewrite matchChunk_suffix by done. apply parseInt_padStart.
Qed.

Lemma chunkFilename_enc (fileName : string) (i : nat) :
  JS.endsWith (FileEncryptionService.chunkFilename fileName i) ".enc" = true.
Proof.
  unfold FileEncryptionService.chunkFilename.
  rewrite <- !string_app_assoc. apply endsWith_app.
Qed.

Lemma chunkFilename_not_metadata (fileName : string) (i : nat) :
  JS.endsWith (FileEncryptionService.chunkFilename fileName i)
    "_metadata.json" = false.
Proof.
  apply not_true_is_false. intros Hends.
  apply endsWith_lastChar in Hends; [|done].
  unfold FileEncryptionService.chunkFilename in Hends.
  rewrite <- !string_app_assoc, lastChar_app in Hends; done.
Qed.

Lemma metadataName_not_enc (fileName : string) :
  JS.endsWith (fileName +:+ "_metadata.json") ".enc" = false.
Proof.
  apply not_true_is_false. intros Hends.
  apply endsWith_lastChar in Hends; [|done].
  rewrite lastChar_app in Hends; done.
Qed.

End Strings.

(** ** Sorting by chunk number *)

Section Sorting.
Context {A : Type} (key : A → nat).

Let le_key (x y : A) : Prop := key x ≤ key y.

Lemma insertBy_Permutation (x : A) (l : list A) :
  JS.insertBy key x l ≡ₚ x :: l.
Proof.
  induction l as [|y l IH]; [done|]. cbn.
  destruct (key x <=? key y); [done|].
  rewrite IH. apply Permutation_swap.
Qed.

Lemma sortBy_cons (x : A) (l : list A) :
  JS.sortBy key (x :: l) = JS.insertBy key x (JS.sortBy key l).
Proof. reflexivity. Qed.

Lemma sortBy_Permutation (l : list A) : JS.sortBy key l ≡ₚ l.
Proof.
  induction l as [|x l IH]; [done|].
  by rewrite sortBy_cons, insertBy_Permutation, IH.
Qed.

Lemma insertBy_sorted (x : A) (l : list A) :
  StronglySorted le_key l → StronglySorted le_key (JS.insertBy key x l).
Proof.
  induction l as [|y l IH]; intros Hs; cbn.
  - by repeat constructor.
  - destruct (Nat.leb_spec (key x) (key y)) as [Hle|Hlt].
    + constructor; [done|]. constructor; [done|].
      apply StronglySorted_inv in Hs as [_ Hall].
      eapply Forall_impl; [exact Hall|]. intros z Hz. unfold le_key in *. lia.
    + apply StronglySorted_inv in Hs as [Hs Hall].
      constructor; [by apply IH|].
      rewrite insertBy_Permutation. constructor; [|done].
      unfold le_key. lia.
Qed.

Lemma sortBy_sorted (l : list A) : StronglySorted le_key (JS.sortBy key l).
Proof.
  induction l as [|x l IH]; [constructor|].
  rewrite sortBy_cons. by apply insertBy_sorted.
Qed.

(** A list already in order is left as it is. *)
Lemma sortBy_id (l : list A) :
  StronglySorted le_key l → JS.sortBy key l = l.
Proof.
  induction l as [|x l IH]; [done|]. intros Hs.
  apply StronglySorted_inv in Hs as [Hs Hall].
  rewrite sortBy_cons, IH by done.
  destruct l as [|y l]; [done|]. cbn.
  apply Forall_cons in Hall as [Hxy _]. unfold le_key in Hxy.
  by apply Nat.leb_le in Hxy as ->.
Qed.

Lemma sorted_map_seq (f : nat → A) (a n : nat) :
  (∀ i j, i ≤ j → key (f i) ≤ key (f j)) →
  StronglySorted le_key (map f (seq a n)).
Proof.
  intros Hmono. revert a. induction n as [|n IH]; intros a; [constructor|].
  cbn. constructor; [apply IH|].
  apply Forall_forall. intros y Hy. apply list_elem_of_In, in_map_iff in Hy.
  destruct Hy as (j & <- & Hj). apply in_seq in Hj.
  apply Hmono. lia.
Qed.

End Sorting.

(** ** The encryption pipeline *)

Section Encryption.
Context `{WebCrypto}.
Import FileEncryptionService.

(** [ceilDiv] is the ceiling of the quotient: the least number of
    chunks of [chunkSize] bytes that cover [size] bytes. *)
Lemma ceilDiv_least (size chunkSize : nat) :
  0 < chunkSize →
  size ≤ ceilDiv size chunkSize * chunkSize ∧
  ∀ n, size ≤ n * chunkSize → ceilDiv size chunkSize ≤ n.
Proof.
  intros Hpos. unfold ceilDiv.
  assert (chunkSize ≠ 0) as Hne by lia.
  pose proof (Nat.div_mod (size + chunkSize - 1) chunkSize Hne) as Hdm.
  pose proof (Nat.mod_upper_bound (size + chunkSize - 1) chunkSize Hne)
    as Hub.
  set (q := (size + chunkSize - 1) `div` chunkSize) in *.
  set (r := (size + chunkSize - 1) `mod` chunkSize) in *.
  clearbody q r. split; [nia|]. intros n Hn.
  destruct (Nat.le_gt_cases q n) as [Hle|Hgt]; [done|]. exfalso.
  assert (chunkSize * (n + 1) ≤ chunkSize * q) as Hmul
    by (apply Nat.mul_le_mono_l; lia).
  lia.
Qed.

(** The chunks, put end to end, are the first [n * chunkSize] bytes of
    the file. *)
Lemma concat_chunkData (file : File) (chunkSize n : nat) :
  concat (map (chunkData file chunkSize) (seq 0 n)) =
  take (n * chunkSize) (content file).
Proof.
  induction n as [|n IH]; [done|].
  rewrite seq_S, map_app, concat_app, IH. cbn [map concat plus].
  rewrite app_nil_r. unfold chunkData, slice.
  replace (S n * chunkSize) with (n * chunkSize + chunkSize) by lia.
  rewrite <- take_take_drop. f_equal.
  destruct (Nat.le_gt_cases (n * chunkSize + chunkSize)
              (length (content file))) as [Hle|Hgt].
  - rewrite Nat.min_l by done. f_equal. lia.
  - rewrite Nat.min_r by lia.
    rewrite !take_ge; [done|rewrite length_drop; lia..].
Qed.

Lemma concat_all_chunkData (file : File) (chunkSize : nat) :
  0 < chunkSize →
  concat (map (chunkData file chunkSize)
            (seq 0 (ceilDiv (length (content file)) chunkSize))) =
  content file.
Proof.
  intros Hpos. rewrite concat_chunkData. apply take_ge.
  by apply ceilDiv_least.
Qed.

Lemma encryptLoop_loaded (key : bytes) (entropy : nat → byte) (file : File)
    (chunkSize : nat) (fileName : string) (indices : list nat)
    (chunkHashes : list string) :
  encryptLoop (Some key) entropy file chunkSize fileName indices chunkHashes =
  (map (yielded key entropy file chunkSize fileName) indices,
   Ok (chunkHashes ++
       map (λ i, SecureCryptoUtils.calculateHash (chunkData file chunkSize i))
         indices)).
Proof.
  revert chunkHashes. induction indices as [|i indices IH];
    intros chunkHashes; cbn [encryptLoop map].
  - by rewrite app_nil_r.
  - cbn [SecureCryptoUtils.encryptChunk]. rewrite IH.
    unfold mbind, action_bind, bind, emit. cbn.
    by rewrite <- app_assoc.
Qed.

Lemma encryptFileGenerator_loaded (key : bytes) (entropy : nat → byte)
    (now : Z) (file : File) (chunkSize : nat) :
  let n := ceilDiv (length (content file)) chunkSize in
  let fileName := baseNameOf (name file) in
  encryptFileGenerator (Some key) entropy now file chunkSize =
  (map (yielded key entropy file chunkSize fileName) (seq 0 n),
   Ok {| originalFileName := fileName;
         originalExtension := extensionOf (name file);
         originalSize := length (content file);
         totalChunks := n;
         timestamp := now;
         hash :=
           SecureCryptoUtils.calculateHash
             (JS.encode
                (JS.join
                   (map (λ i, SecureCryptoUtils.calculateHash
                                (chunkData file chunkSize i))
                      (seq 0 n))));
         hashType := Some "composite";
         chunkSize := chunkSize |}).
Proof.
  cbn zeta. unfold encryptFileGenerator. rewrite encryptLoop_loaded.
  unfold mbind, action_bind, bind, mret, action_ret, ret.
  by rewrite app_nil_r.
Qed.

(** Without a loaded key the first chunk already fails, and an empty
    file has no chunk to fail on. *)
Lemma encryptLoop_unloaded (entropy : nat → byte) (file : File)
    (chunkSize : nat) (fileName : string) (indices : list nat)
    (chunkHashes : list string) :
  encryptLoop None entropy file chunkSize fileName indices chunkHashes =
  match indices with
  | [] => ([], Ok chunkHashes)
  | _ :: _ => ([], Err NotInitialized)
  end.
Proof. by destruct indices. Qed.

(** C6. For every input file and positive chunk size, the pipeline
    under a loaded key ends with its metadata; and whenever the
    pipeline ends with metadata, [totalChunks] is the ceiling of
    [originalSize / chunkSize] (the least count of chunks that covers
    the file), [hashType] is ['composite'], and [hash] is the digest of
    the concatenated digests of the plaintext chunks in index order. *)
Theorem metadata_invariants (entropy : nat → byte) (now : Z) (file : File)
    (chunkSize : nat) :
  0 < chunkSize →
  (∀ key, ∃ metadata,
     (encryptFileGenerator (Some key) entropy now file chunkSize).2
     = Ok metadata) ∧
  (∀ cryptoKey metadata,
     (encryptFileGenerator cryptoKey entropy now file chunkSize).2
     = Ok metadata →
     originalSize metadata = length (content file) ∧
     totalChunks metadata
     = ceilDiv (originalSize metadata) chunkSize ∧
     originalSize metadata ≤ totalChunks metadata * chunkSize ∧
     (∀ n, originalSize metadata ≤ n * chunkSize →
           totalChunks metadata ≤ n) ∧
     hashType metadata = Some "composite" ∧
     hash metadata =
       SecureCryptoUtils.calculateHash
         (JS.encode
            (JS.join
               (map (λ i, SecureCryptoUtils.calculateHash
                            (chunkData file chunkSize i))
                  (seq 0 (totalChunks metadata)))))).
Proof.
  intros Hpos. split.
  - intros key. unfold encryptFileGenerator. rewrite encryptLoop_loaded.
    by eexists.
  - intros cryptoKey metadata. unfold encryptFileGenerator.
    destruct (ceilDiv_least (length (content file)) chunkSize Hpos)
      as [Hcover Hleast].
    destruct cryptoKey as [key|].
    + rewrite encryptLoop_loaded. cbn. intros [= <-]. cbn. done.
    + rewrite encryptLoop_unloaded.
      destruct (seq 0 _) eqn:Hseq; cbn; [|done].
      intros [= <-]. cbn. rewrite Hseq. cbn.
      apply (f_equal length) in Hseq. rewrite length_seq in Hseq.
      cbn in Hseq. rewrite Hseq in *. done.
Qed.

End Encryption.

(** ** The reconstruction pipeline *)

Section Reconstruction.
Context `{WebCrypto}.
Import FileEncryptionService FileReconstructionService.

Abbreviation byChunkNumber :=
  (λ a b : File, chunkNumber (name a) ≤ chunkNumber (name b)).

Lemma decryptChunk_short (cryptoKey : option bytes) (data : bytes) :
  length data < 12 →
  SecureCryptoUtils.decryptChunk cryptoKey data =
  ([], Err match cryptoKey with
           | Some _ => InvalidEncryptedData
           | None => NotInitialized
           end).
Proof.
  intros Hlen. unfold SecureCryptoUtils.decryptChunk.
  destruct cryptoKey; [|done].
  by apply Nat.ltb_lt in Hlen as ->.
Qed.

Lemma decryptChunk_long (key data : bytes) :
  12 ≤ length data →
  SecureCryptoUtils.decryptChunk (Some key) data =
  ([SubtleDecrypt (take 12 data) (drop 12 data)],
   match aesGcmDecrypt key (take 12 data) (drop 12 data) with
   | Some decrypted => Ok decrypted
   | None => Err DecryptionFailed
   end).
Proof.
  intros Hlen. unfold SecureCryptoUtils.decryptChunk.
  apply Nat.ltb_ge in Hlen as ->.
  unfold mbind, action_bind, bind, emit.
  by destruct (aesGcmDecrypt _ _ _).
Qed.

(** [decryptChunk] never fails with anything but its three errors, and
    calls the provider at most once. *)
Lemma decryptChunk_outcome (cryptoKey : option bytes) (data : bytes) :
  ∃ out r, SecureCryptoUtils.decryptChunk cryptoKey data = (out, r) ∧
    (out = [] ∨ out = [SubtleDecrypt (take 12 data) (drop 12 data)]) ∧
    match r with
    | Ok _ => True
    | Err e => e ∈ [NotInitialized; InvalidEncryptedData; DecryptionFailed]
    end.
Proof.
  destruct (Nat.lt_ge_cases (length data) 12) as [Hlt|Hge].
  - rewrite decryptChunk_short by done. eexists _, _. split; [done|].
    split; [by left|]. destruct cryptoKey; set_solver.
  - destruct cryptoKey as [key|].
    + rewrite decryptChunk_long by done. eexists _, _. split; [done|].
      split; [by right|]. destruct (aesGcmDecrypt _ _ _); set_solver.
    + eexists _, _. split; [done|]. split; [by left|]. set_solver.
Qed.

Lemma selectChunkFiles_Permutation (files : list File) :
  selectChunkFiles files ≡ₚ
  filter (λ f, JS.endsWith (name f) ".enc" = true) files.
Proof. apply sortBy_Permutation. Qed.

Lemma selectChunkFiles_sorted (files : list File) :
  StronglySorted byChunkNumber (selectChunkFiles files).
Proof. apply (sortBy_sorted (λ f, chunkNumber (name f))). Qed.


Lemma decryptLoop_cons (cryptoKey : option bytes) (composite : bool)
    (i : nat) (file : File) (rest : list File) :
  decryptLoop cryptoKey composite i (file :: rest) =
  (decrypted ← rethrow (ChunkDecryptionFailure i (name file))
                 (SecureCryptoUtils.decryptChunk cryptoKey (content file));
   '(decryptedChunks, chunkHashes) ←
     decryptLoop cryptoKey composite (S i) rest;
   ret (decrypted :: decryptedChunks,
        if composite
        then SecureCryptoUtils.calculateHash decrypted :: chunkHashes
        else chunkHashes)).
Proof. reflexivity. Qed.

Section RoundTrip.
(** Decryption inverts encryption under the same key and IV. *)
Hypothesis decrypt_encrypt : ∀ key iv plaintext,
  aesGcmDecrypt key iv (aesGcmEncrypt key iv plaintext) = Some plaintext.

Variables (key : bytes) (entropy : nat → byte) (file : File)
  (chunkSize : nat) (fileName : string).

Let produced (i : nat) : File :=
  FileUploader.chunkFile (yielded key entropy file chunkSize fileName i).

Lemma decryptChunk_authentic (iv plaintext : bytes) :
  length iv = 12 →
  SecureCryptoUtils.decryptChunk (Some key)
    (iv ++ aesGcmEncrypt key iv plaintext) =
  ([SubtleDecrypt iv (aesGcmEncrypt key iv plaintext)], Ok plaintext).
Proof.
  intros Hiv. rewrite decryptChunk_long by (rewrite length_app; lia).
  rewrite take_app_length', drop_app_length' by done.
  by rewrite decrypt_encrypt.
Qed.

Lemma decryptLoop_produced (composite : bool) (j : nat)
    (indices : list nat) :
  ∃ effects,
    decryptLoop (Some key) composite j (map produced indices) =
    (effects,
     Ok (map (chunkData file chunkSize) indices,
         if composite
         then map (λ i, SecureCryptoUtils.calculateHash
                          (chunkData file chunkSize i)) indices
         else [])) ∧
    Forall (λ e, ∃ iv c, e = SubtleDecrypt iv c) effects.
Proof.
  revert j. induction indices as [|i indices IH]; intros j.
  - exists []. split; [by destruct composite|constructor].
  - destruct (IH (S j)) as (effects & Hloop & Hall).
    rewrite map_cons, decryptLoop_cons, Hloop.
    change (content (produced i))
      with (getRandomValues entropy (12 * i) 12 ++
            aesGcmEncrypt key (getRandomValues entropy (12 * i) 12)
              (chunkData file chunkSize i)).
    rewrite decryptChunk_authentic by apply getRandomValues_length.
    eexists. split.
    + unfold mbind, action_bind, bind, rethrow.
      cbn -[getRandomValues chunkData SecureCryptoUtils.calculateHash].
      destruct composite; reflexivity.
    + constructor; [by eexists _, _|by rewrite app_nil_r].
Qed.

Lemma find_metadata_produced (indices : list nat) (m : File) :
  JS.endsWith (name m) "_metadata.json" = true →
  find (λ f, JS.endsWith (name f) "_metadata.json")
    (map produced indices ++ [m]) = Some m.
Proof.
  intros Hm. induction indices as [|i indices IH]; cbn.
  - by rewrite Hm.
  - by rewrite chunkFilename_not_metadata.
Qed.

Lemma filter_enc_produced (indices : list nat) (m : File) :
  JS.endsWith (name m) ".enc" = false →
  filter (λ f, JS.endsWith (name f) ".enc" = true)
    (map produced indices ++ [m]) = map produced indices.
Proof.
  intros Hm. induction indices as [|i indices IH]; cbn [map app].
  - rewrite filter_cons_False; [done|]. by rewrite Hm.
  - rewrite filter_cons_True; [by rewrite IH|].
    apply chunkFilename_enc.
Qed.

(** The chunk files, in the order the generator yields them, are in
    the order of the sort. *)
Lemma produced_sorted (n : nat) :
  StronglySorted byChunkNumber (map produced (seq 0 n)).
Proof.
  apply (sorted_map_seq (λ f, chunkNumber (name f))).
  intros i j Hij. unfold produced.
  cbn [name FileUploader.chunkFile yielded filename].
  rewrite !chunkNumber_chunkFilename.
  by destruct (JS.matchChunk fileName).
Qed.

Lemma selectChunkFiles_produced (n : nat) (m : File) :
  JS.endsWith (name m) ".enc" = false →
  selectChunkFiles (map produced (seq 0 n) ++ [m]) =
  map produced (seq 0 n).
Proof.
  intros Hm. unfold selectChunkFiles. rewrite filter_enc_produced by done.
  apply sortBy_id, produced_sorted.
Qed.

End RoundTrip.

(** The round trip holds for a file of any size. *)
Lemma round_trip_any_size
    (decrypt_encrypt : ∀ key iv plaintext,
       aesGcmDecrypt key iv (aesGcmEncrypt key iv plaintext)
       = Some plaintext)
    (key : bytes) (entropy : nat → byte) (now : Z) (file : File)
    (chunkSize : nat) (maxByteLength : option nat) (userConfirms : bool)
    (text : bytes) :
  0 < chunkSize →
  ∃ chunks metadata effects result,
    encryptFileGenerator (Some key) entropy now file chunkSize
    = (chunks, Ok metadata) ∧
    reconstructFromChunks (Some key) maxByteLength userConfirms
      (map FileUploader.chunkFile chunks
       ++ [FileUploader.metadataFile metadata text])
    = (effects, Ok result) ∧
    concat (reconstructed result) = content file ∧
    hashMatch result = true ∧
    (Confirm ∉ effects) ∧
    (Download (content file)
       (originalFileName metadata +:+ "_reconstructed." +:+
        originalExtension metadata)) ∈ effects.
Proof.
  intros Hpos. rewrite encryptFileGenerator_loaded. cbn zeta.
  set (n := ceilDiv (length (content file)) chunkSize).
  set (fileName := baseNameOf (name file)).
  set (hashes := map (λ i, SecureCryptoUtils.calculateHash
                             (chunkData file chunkSize i)) (seq 0 n)).
  set (metadata := {| originalFileName := fileName |}).
  destruct (decryptLoop_produced decrypt_encrypt key entropy file chunkSize
              fileName true 0 (seq 0 n)) as (effects & Hloop & Hall).
  eexists _, metadata, (effects ++ [Download _ _]), _.
  split; [done|].
  rewrite map_map. unfold reconstructFromChunks.
  rewrite find_metadata_produced by apply endsWith_app.
  cbn [parsed FileUploader.metadataFile].
  rewrite selectChunkFiles_produced by apply metadataName_not_enc.
  rewrite length_map, length_seq.
  change (totalChunks metadata) with n. rewrite Nat.eqb_refl. cbn [negb].
  change (isComposite metadata) with true.
  rewrite Hloop. unfold verifyIntegrity.
  change (isComposite metadata) with true. cbn iota.
  change (hash metadata)
    with (SecureCryptoUtils.calculateHash (JS.encode (JS.join hashes))).
  unfold mbind at 1. unfold action_bind at 1. unfold bind at 1.
  cbn beta iota. fold hashes. rewrite String.eqb_refl.
  unfold mbind, action_bind, bind, mret, action_ret, ret, download, emit.
  cbn [negb app].
  split; [reflexivity|]. cbn [reconstructed hashMatch].
  rewrite concat_all_chunkData by done.
  split; [done|]. split; [done|]. split.
  - intros [Hin|Hin]%elem_of_app.
    + rewrite Forall_forall in Hall. by destruct (Hall _ Hin) as (? & ? & ?).
    + by apply list_elem_of_singleton in Hin.
  - apply elem_of_app. right. by apply list_elem_of_singleton.
Qed.

(** C1. For every file whose size is 0, 1, chunkSize - 1, chunkSize,
    chunkSize + 1 or 10 * chunkSize bytes, encrypting it with
    [encryptFileGenerator] and reconstructing with
    [reconstructFromChunks] from the chunk files produced and the
    metadata file gives back exactly the bytes of the file, with
    [hashMatch] true. *)
Theorem round_trip
    (decrypt_encrypt : ∀ key iv plaintext,
       aesGcmDecrypt key iv (aesGcmEncrypt key iv plaintext)
       = Some plaintext)
    (key : bytes) (entropy : nat → byte) (now : Z) (file : File)
    (chunkSize : nat) (maxByteLength : option nat) (userConfirms : bool)
    (text : bytes) :
  0 < chunkSize →
  length (content file) ∈
    [0; 1; chunkSize - 1; chunkSize; chunkSize + 1; 10 * chunkSize] →
  ∃ chunks metadata effects result,
    encryptFileGenerator (Some key) entropy now file chunkSize
    = (chunks, Ok metadata) ∧
    reconstructFromChunks (Some key) maxByteLength userConfirms
      (map FileUploader.chunkFile chunks
       ++ [FileUploader.metadataFile metadata text])
    = (effects, Ok result) ∧
    concat (reconstructed result) = content file ∧
    hashMatch result = true.
Proof.
  intros Hpos _.
  destruct (round_trip_any_size decrypt_encrypt key entropy now file
              chunkSize maxByteLength userConfirms text Hpos)
    as (chunks & metadata & effects & result & Henc & Hrec & Hbytes & Hhash & _).
  by exists chunks, metadata, effects, result.
Qed.

(** C10, as the code has it. For every input shorter than 12 bytes
    [decryptChunk] fails before any decryption is attempted and before
    the IV is sliced: with the invalid-data error when a key is loaded,
    and with the not-initialised error, whose test comes first, when
    none is. *)
Theorem decryptChunk_too_short (cryptoKey : option bytes) (data : bytes) :
  length data < 12 →
  SecureCryptoUtils.decryptChunk cryptoKey data =
  ([], Err (if cryptoKey is Some _
            then InvalidEncryptedData else NotInitialized)).
Proof.
  intros Hlen. rewrite decryptChunk_short by done. by destruct cryptoKey.
Qed.

Section Tampering.
(** What an AEAD cipher is: decryption inverts encryption, and it
    accepts a ciphertext under a key and an IV only if the ciphertext
    is the encryption of the plaintext it returns under that key and
    that IV. *)
Hypothesis decrypt_encrypt : ∀ key iv plaintext,
  aesGcmDecrypt key iv (aesGcmEncrypt key iv plaintext) = Some plaintext.
Hypothesis decrypt_authentic : ∀ key iv ciphertext plaintext,
  aesGcmDecrypt key iv ciphertext = Some plaintext →
  ciphertext = aesGcmEncrypt key iv plaintext.
(** What its authentication gives: it rejects an encryption output
    with one bit flipped, and every encryption output under another
    key or under another IV. *)
Hypothesis decrypt_corrupted : ∀ key iv plaintext index bit,
  index < length (aesGcmEncrypt key iv plaintext) → bit < 8 →
  aesGcmDecrypt key iv (flipped index bit (aesGcmEncrypt key iv plaintext))
  = None.
Hypothesis decrypt_wrong_key : ∀ key key' iv plaintext,
  key' ≠ key →
  aesGcmDecrypt key' iv (aesGcmEncrypt key iv plaintext) = None.
Hypothesis decrypt_wrong_iv : ∀ key iv iv' plaintext,
  iv' ≠ iv →
  aesGcmDecrypt key iv' (aesGcmEncrypt key iv plaintext) = None.

Lemma decryptChunk_rejects (key data : bytes) :
  ¬ authentic key data →
  ∃ effects cause,
    SecureCryptoUtils.decryptChunk (Some key) data = (effects, Err cause) ∧
    cause = (if length data <? 12
             then InvalidEncryptedData else DecryptionFailed) ∧
    Forall (λ e, ∃ iv c, e = SubtleDecrypt iv c) effects.
Proof.
  intros Hforged.
  destruct (Nat.ltb_spec (length data) 12) as [Hlt|Hge].
  - rewrite decryptChunk_short by done. by eexists _, _.
  - rewrite decryptChunk_long by done.
    destruct (aesGcmDecrypt key (take 12 data) (drop 12 data))
      as [plaintext|] eqn:Hdec.
    + exfalso. apply Hforged. exists (take 12 data), plaintext.
      split; [rewrite length_take; lia|].
      apply decrypt_authentic in Hdec. rewrite <- Hdec.
      by rewrite take_drop.
    + eexists _, _. split; [done|]. split; [done|].
      constructor; [by eexists _, _|constructor].
Qed.

Lemma decryptChunk_accepts (key data : bytes) :
  authentic key data →
  ∃ effects plaintext,
    SecureCryptoUtils.decryptChunk (Some key) data
    = (effects, Ok plaintext) ∧
    Forall (λ e, ∃ iv c, e = SubtleDecrypt iv c) effects.
Proof.
  intros (iv & plaintext & Hiv & ->).
  rewrite (decryptChunk_authentic decrypt_encrypt) by done.
  eexists _, _. split; [done|].
  constructor; [by eexists _, _|constructor].
Qed.

(** The cipher rejects what [decryptChunk] reads from a tampered
    chunk: a flipped bit is in the IV or in the ciphertext. *)
Lemma tampered_rejected (key data : bytes) :
  tampered key data →
  12 ≤ length data ∧
  aesGcmDecrypt key (take 12 data) (drop 12 data) = None.
Proof.
  intros [iv plaintext index bit Hiv Hindex Hbit
         |iv iv' plaintext Hiv Hiv' Hne
         |key' iv plaintext Hiv Hne].
  - split; [rewrite flipped_length, length_app; lia|].
    unfold flipped. rewrite length_app in Hindex.
    destruct (Nat.lt_ge_cases index (length iv)) as [Hhead|Hbody].
    + rewrite alter_app_l by done.
      rewrite take_app_length', drop_app_length'
        by (by rewrite length_alter).
      apply decrypt_wrong_iv. intros Heq. by eapply flipped_neq.
    + rewrite alter_app_r_alt by done.
      rewrite take_app_length', drop_app_length' by done.
      apply decrypt_corrupted; [lia|done].
  - split; [rewrite length_app; lia|].
    rewrite take_app_length', drop_app_length' by done.
    by apply decrypt_wrong_iv.
  - split; [rewrite length_app; lia|].
    rewrite take_app_length', drop_app_length' by done.
    by apply decrypt_wrong_key.
Qed.

Lemma decryptChunk_tampered (key data : bytes) :
  tampered key data →
  SecureCryptoUtils.decryptChunk (Some key) data =
  ([SubtleDecrypt (take 12 data) (drop 12 data)], Err DecryptionFailed).
Proof.
  intros [Hlen Hreject]%tampered_rejected.
  by rewrite decryptChunk_long, Hreject.
Qed.

Lemma tampered_not_authentic (key data : bytes) :
  tampered key data → ¬ authentic key data.
Proof.
  intros Htampered (iv & plaintext & Hiv & ->).
  apply decryptChunk_tampered in Htampered.
  by rewrite (decryptChunk_authentic decrypt_encrypt) in Htampered.
Qed.

(** The loop stops at the first chunk that is not authentic, and
    reports its index. *)
Lemma decryptLoop_rejects (key : bytes) (composite : bool)
    (files : list File) (j i : nat) (file : File) :
  files !! i = Some file →
  ¬ authentic key (content file) →
  (∀ k f, k < i → files !! k = Some f → authentic key (content f)) →
  ∃ effects cause,
    decryptLoop (Some key) composite j files =
    (effects, Err (ChunkDecryptionFailure (j + i) (name file) cause)) ∧
    cause = (if length (content file) <? 12
             then InvalidEncryptedData else DecryptionFailed) ∧
    Forall (λ e, ∃ iv c, e = SubtleDecrypt iv c) effects.
Proof.
  revert j i. induction files as [|f files IH]; intros j i Hi Hforged Hok;
    [done|].
  rewrite decryptLoop_cons. destruct i as [|i].
  - injection Hi as ->.
    destruct (decryptChunk_rejects key (content file) Hforged)
      as (effects & cause & -> & Hcause & Hall).
    exists effects, cause. by rewrite Nat.add_0_r.
  - destruct (decryptChunk_accepts key (content f)) as
      (effects & plaintext & -> & Hall); [by apply (Hok 0); [lia|]|].
    destruct (IH (S j) i) as (effects' & cause & -> & Hcause & Hall');
      [done|done| |].
    { intros k f' Hk. apply (Hok (S k)). lia. }
    exists (effects ++ effects'), cause.
    replace (j + S i) with (S j + i) by lia.
    split; [done|]. split; [done|]. by apply Forall_app.
Qed.


End Tampering.

(** The length [combineChunks] adds up is the length of the
    concatenation. *)
Lemma totalLength_concat (chunks : list bytes) (n : nat) :
  foldl (λ sum chunk, sum + length chunk) n chunks
  = n + length (concat chunks).
Proof.
  revert n. induction chunks as [|chunk chunks IH]; intros n; cbn.
  - lia.
  - rewrite IH, length_app. lia.
Qed.

(** [combineChunks] returns the concatenation whenever the buffer can
    be allocated, and throws otherwise. *)
Lemma combineChunks_outcome (maxByteLength : option nat)
    (chunks : list bytes) :
  SecureCryptoUtils.combineChunks maxByteLength chunks =
  match maxByteLength with
  | Some limit =>
      if limit <? length (concat chunks) then Err RangeError
      else Ok (concat chunks)
  | None => Ok (concat chunks)
  end.
Proof.
  unfold SecureCryptoUtils.combineChunks.
  by rewrite totalLength_concat, Nat.add_0_l.
Qed.

(** C8. In the legacy branch of [reconstructFromChunks], once the
    chunks of a set whose chunk numbers are safe integers are
    decrypted: whenever the platform can allocate the whole buffer, [combineChunks] returns the concatenation of the decrypted
    chunks, its digest is compared with [metadata.hash], and the
    comparison is the verdict: on a match the file is downloaded, on a
    mismatch the user is asked first. And when combining throws, the
    run goes on with [hashMatch] true: the file is downloaded without
    any warning, whatever [metadata.hash] says. *)
Theorem legacy_verification (cryptoKey : option bytes)
    (maxByteLength : option nat) (userConfirms : bool) (files : list File)
    (metadataFile : File) (metadata : FileMetadata) (effects : list Effect)
    (decryptedChunks : list bytes) (chunkHashes : list string) :
  find (λ f, JS.endsWith (name f) "_metadata.json") files
  = Some metadataFile →
  parsed metadataFile = Some metadata →
  hashType metadata ≠ Some "composite" →
  safelyNumbered files = true →
  length (selectChunkFiles files) = totalChunks metadata →
  decryptLoop cryptoKey false 0 (selectChunkFiles files)
  = (effects, Ok (decryptedChunks, chunkHashes)) →
  let reconstructedBuffer := concat decryptedChunks in
  let saved :=
    Download reconstructedBuffer
      (originalFileName metadata +:+ "_reconstructed." +:+
       originalExtension metadata) in
  let result := λ verdict,
    {| success := true;
       reconstructed := decryptedChunks;
       FileReconstructionService.metadata := metadata;
       hashMatch := verdict;
       chunkFiles := selectChunkFiles files |} in
  (match maxByteLength with
   | Some limit => length reconstructedBuffer ≤ limit
   | None => True
   end →
   SecureCryptoUtils.combineChunks maxByteLength decryptedChunks
   = Ok reconstructedBuffer ∧
   reconstructFromChunks cryptoKey maxByteLength userConfirms files =
   if String.eqb (SecureCryptoUtils.calculateHash reconstructedBuffer)
        (hash metadata)
   then (effects ++ [saved], Ok (result true))
   else if userConfirms
        then (effects ++ [Confirm; saved], Ok (result false))
        else (effects ++ [Confirm], Err UserCancelled)) ∧
  (∀ limit,
     maxByteLength = Some limit → limit < length reconstructedBuffer →
     SecureCryptoUtils.combineChunks maxByteLength decryptedChunks
     = Err RangeError ∧
     reconstructFromChunks cryptoKey maxByteLength userConfirms files
     = (effects ++ [saved], Ok (result true))).
Proof.
  intros Hfind Hparsed Hlegacy _ Hcount Hloop. cbn zeta.
  assert (isComposite metadata = false) as Hcomp
    by (by apply bool_decide_eq_false).
  assert (∀ verdict,
    verifyIntegrity maxByteLength metadata decryptedChunks chunkHashes
    = verdict →
    reconstructFromChunks cryptoKey maxByteLength userConfirms files =
    ((effects, Ok (decryptedChunks, chunkHashes)) ≫=
     λ '(decryptedChunks, chunkHashes),
       (if negb verdict then
          emit Confirm;;
          if negb userConfirms then throw UserCancelled else ret tt
        else ret tt);;
       download metadata decryptedChunks;;
       ret {| success := true;
              reconstructed := decryptedChunks;
              FileReconstructionService.metadata := metadata;
              hashMatch := verdict;
              chunkFiles := selectChunkFiles files |})) as Hrun.
  { intros verdict <-. unfold reconstructFromChunks.
    rewrite Hfind, Hparsed, Hcount, Nat.eqb_refl, Hcomp. cbn [negb].
    by rewrite Hloop. }
  split.
  - intros Hfits.
    assert (SecureCryptoUtils.combineChunks maxByteLength decryptedChunks
            = Ok (concat decryptedChunks)) as Hcombine.
    { rewrite combineChunks_outcome.
      destruct maxByteLength as [limit|]; [|done].
      by apply Nat.ltb_ge in Hfits as ->. }
    split; [exact Hcombine|].
    rewrite (Hrun (String.eqb
                     (SecureCryptoUtils.calculateHash (concat decryptedChunks))
                     (hash metadata))).
    2:{ unfold verifyIntegrity. by rewrite Hcomp, Hcombine. }
    unfold mbind, action_bind, bind, mret, action_ret, ret, download,
      emit, throw.
    destruct (String.eqb _ _); cbn [negb]; [done|].
    destruct userConfirms; cbn [negb]; reflexivity.
  - intros limit -> Hlimit.
    assert (SecureCryptoUtils.combineChunks (Some limit) decryptedChunks
            = Err RangeError) as Hcombine.
    { rewrite combineChunks_outcome. by apply Nat.ltb_lt in Hlimit as ->. }
    split; [exact Hcombine|]. rewrite (Hrun true).
    2:{ unfold verifyIntegrity. by rewrite Hcomp, Hcombine. }
    reflexivity.
Qed.

(** The decryption loop of the container path throws nothing but the
    errors of [decryptChunk]. *)
Lemma decryptEntries_errors (cryptoKey : option bytes) (composite : bool)
    (entries : list File) (effects : list Effect) (e : Error) :
  decryptEntries cryptoKey composite entries = (effects, Err e) →
  e ∈ [NotInitialized; InvalidEncryptedData; DecryptionFailed].
Proof.
  revert effects. induction entries as [|entry entries IH]; intros effects;
    [done|].
  cbn [decryptEntries].
  destruct (decryptChunk_outcome cryptoKey (content entry))
    as (out & r & -> & _ & Hr).
  destruct r as [decrypted|e']; unfold mbind, action_bind, bind.
  - destruct (decryptEntries cryptoKey composite entries) as [out' [[??]|e']]
      eqn:Hrest; cbn; [done|].
    intros [= _ <-]. by eapply IH.
  - by intros [= _ <-].
Qed.

(** The container path never compares the number of chunk entries with
    [metadata.totalChunks]: no run of it ends with
    [ChunkCountMismatch]. *)
Lemma reconstructFromZip_never_counts (cryptoKey : option bytes)
    (maxByteLength : option nat) (userConfirms : bool)
    (entries : list File) (expected found : nat) :
  (reconstructFromZip cryptoKey maxByteLength userConfirms entries).2
  ≠ Err (ChunkCountMismatch expected found).
Proof.
  unfold reconstructFromZip.
  destruct (find _ entries) as [metadataFile|]; [|done].
  destruct (parsed metadataFile) as [metadata|]; [|done].
  destruct (decryptEntries cryptoKey (isComposite metadata)
              (selectChunkFiles entries)) as [effects [[chunks hashes]|e]]
    eqn:Hloop.
  - unfold mbind, action_bind, bind, mret, action_ret, ret, download, emit,
      throw.
    destruct (isComposite metadata).
    + destruct (String.eqb _ _); cbn; [done|]. by destruct userConfirms.
    + destruct (SecureCryptoUtils.combineChunks _ _) as [buffer|e] eqn:Hc.
      * destruct (String.eqb _ _); cbn; [done|]. by destruct userConfirms.
      * cbn. unfold SecureCryptoUtils.combineChunks in Hc.
        destruct maxByteLength; [destruct (_ <? _)|]; congruence.
  - apply decryptEntries_errors in Hloop.
    unfold mbind, action_bind, bind. cbn. intros [= ->].
    rewrite !elem_of_cons, elem_of_nil in Hloop.
    by destruct Hloop as [?|[?|[?|[]]]].
Qed.

End Reconstruction.

(** ** The theorems at the symbolic provider *)

Lemma stripBytes_app (p rest : bytes) :
  Symbolic.stripBytes p (p ++ rest) = Some rest.
Proof.
  induction p as [|a p IH]; [done|]. cbn.
  by rewrite (byte_dec_lb (eq_refl a)).
Qed.

Lemma stripBytes_Some (p c rest : bytes) :
  Symbolic.stripBytes p c = Some rest → c = p ++ rest.
Proof.
  revert c. induction p as [|a p IH]; intros c; cbn; [by intros [= ->]|].
  destruct c as [|b c]; [done|].
  destruct (Byte.eqb a b) eqn:Hab; [|done].
  apply byte_dec_bl in Hab as ->. by intros ->%IH.
Qed.

Lemma stripBytes_differs (p p' rest : bytes) :
  length p = length p' → p ≠ p' →
  Symbolic.stripBytes p (p' ++ rest) = None.
Proof.
  intros Hlen Hne.
  destruct (Symbolic.stripBytes p (p' ++ rest)) as [r|] eqn:Hstrip; [|done].
  apply stripBytes_Some in Hstrip.
  by apply app_inj_1 in Hstrip as [-> _].
Qed.

Lemma opened_double (plaintext : bytes) :
  Symbolic.opened (plaintext ++ plaintext) = Some plaintext.
Proof.
  unfold Symbolic.opened.
  assert (length (plaintext ++ plaintext) / 2 = length plaintext) as ->.
  { rewrite length_app.
    replace (length plaintext + length plaintext)
      with (length plaintext * 2) by lia.
    by apply Nat.div_mul. }
  rewrite take_app_length.
  rewrite <- (app_nil_r (plaintext ++ plaintext)) at 2.
  by rewrite stripBytes_app.
Qed.

Lemma opened_Some (body plaintext : bytes) :
  Symbolic.opened body = Some plaintext → body = plaintext ++ plaintext.
Proof.
  unfold Symbolic.opened.
  destruct (Symbolic.stripBytes _ body) as [[|b rest]|] eqn:Hstrip; [|done..].
  intros [= <-]. apply stripBytes_Some in Hstrip.
  by rewrite app_nil_r in Hstrip.
Qed.

(** A framed sequence shows where it ends. *)
Lemma frame_app_inj (a b r r' : bytes) :
  Symbolic.frame a ++ r = Symbolic.frame b ++ r' → a = b ∧ r = r'.
Proof.
  revert b. induction a as [|x a IH]; intros [|y b]; cbn; intros [= Heq];
    try done.
  subst y. by destruct (IH b) as [-> ->]; [congruence|].
Qed.

Lemma symbolic_decrypt_encrypt (key iv plaintext : bytes) :
  aesGcmDecrypt (WebCrypto := Symbolic.provider) key iv
    (aesGcmEncrypt (WebCrypto := Symbolic.provider) key iv plaintext)
  = Some plaintext.
Proof.
  cbn. rewrite (app_assoc (Symbolic.frame key)), stripBytes_app.
  apply opened_double.
Qed.

Lemma symbolic_decrypt_authentic (key iv ciphertext plaintext : bytes) :
  aesGcmDecrypt (WebCrypto := Symbolic.provider) key iv ciphertext
  = Some plaintext →
  ciphertext = aesGcmEncrypt (WebCrypto := Symbolic.provider) key iv plaintext.
Proof.
  cbn.
  destruct (Symbolic.stripBytes _ ciphertext) as [body|] eqn:Hstrip; [|done].
  intros ->%opened_Some. apply stripBytes_Some in Hstrip.
  by rewrite Hstrip, <- app_assoc.
Qed.

(** The symbolic cipher rejects a ciphertext under another key. *)
Lemma symbolic_decrypt_wrong_key (key key' iv plaintext : bytes) :
  key' ≠ key →
  aesGcmDecrypt (WebCrypto := Symbolic.provider) key' iv
    (aesGcmEncrypt (WebCrypto := Symbolic.provider) key iv plaintext)
  = None.
Proof.
  intros Hkey. cbn.
  destruct (Symbolic.stripBytes _ _) as [body|] eqn:Hstrip; [|done].
  apply stripBytes_Some in Hstrip. rewrite <- app_assoc in Hstrip.
  by apply frame_app_inj in Hstrip as [-> _].
Qed.

(** The symbolic cipher rejects a ciphertext under another IV. *)
Lemma symbolic_decrypt_wrong_iv (key iv iv' plaintext : bytes) :
  iv' ≠ iv →
  aesGcmDecrypt (WebCrypto := Symbolic.provider) key iv'
    (aesGcmEncrypt (WebCrypto := Symbolic.provider) key iv plaintext)
  = None.
Proof.
  intros Hiv. cbn.
  destruct (Symbolic.stripBytes _ _) as [body|] eqn:Hstrip; [|done].
  apply stripBytes_Some in Hstrip. rewrite <- app_assoc in Hstrip.
  apply app_inv_head in Hstrip.
  by apply frame_app_inj in Hstrip as [-> _].
Qed.

(** The symbolic cipher rejects a ciphertext with one bit flipped. *)
Lemma symbolic_decrypt_corrupted (key iv plaintext : bytes)
    (index bit : nat) :
  index < length (aesGcmEncrypt (WebCrypto := Symbolic.provider) key iv
                    plaintext) →
  bit < 8 →
  aesGcmDecrypt (WebCrypto := Symbolic.provider) key iv
    (flipped index bit
       (aesGcmEncrypt (WebCrypto := Symbolic.provider) key iv plaintext))
  = None.
Proof.
  cbn. rewrite (app_assoc (Symbolic.frame key)).
  set (head := Symbolic.frame key ++ Symbolic.frame iv).
  intros Hindex Hbit. unfold flipped.
  destruct (Nat.lt_ge_cases index (length head)) as [Hhead|Hbody].
  - rewrite alter_app_l by done.
    rewrite stripBytes_differs; [done|by rewrite length_alter|].
    intros Heq. by eapply flipped_neq.
  - rewrite alter_app_r_alt, stripBytes_app by done.
    rewrite length_app in Hindex.
    set (j := index - length head).
    assert (j < length (plaintext ++ plaintext)) as Hj by (subst j; lia).
    clearbody j.
    destruct (Symbolic.opened _) as [q|] eqn:Hopen; [exfalso|done].
    apply opened_Some in Hopen.
    assert (length q = length plaintext) as Hq.
    { apply (f_equal length) in Hopen.
      rewrite length_alter, !length_app in Hopen. lia. }
    rewrite length_app in Hj.
    destruct (Nat.lt_ge_cases j (length plaintext)) as [Hfirst|Hsecond].
    + rewrite alter_app_l in Hopen by done.
      apply app_inj_2 in Hopen as [Hflip <-]; [|done].
      by eapply flipped_neq.
    + rewrite alter_app_r_alt in Hopen by done.
      apply app_inj_1 in Hopen as [<- Hflip]; [|done].
      eapply (flipped_neq (j - length plaintext)); [|done..]. lia.
Qed.

Lemma symbolic_digest_injective (a b : bytes) :
  sha256 (WebCrypto := Symbolic.provider) a
  = sha256 (WebCrypto := Symbolic.provider) b → a = b.
Proof. exact id. Qed.

Lemma forged_not_authentic :
  ¬ FileReconstructionService.authentic (H := Symbolic.provider)
      Symbolic.masterKey Symbolic.forged.
Proof.
  intros (iv & plaintext & Hiv & Heq).
  apply (f_equal length) in Heq. cbn in Heq.
  rewrite !length_app, Hiv in Heq. cbn in Heq. lia.
Qed.

Section Instances.
Import SecureKeyManager FileEncryptionService FileReconstructionService.

Let provider := Symbolic.provider.
Existing Instance provider.

(** The round trip of a file of [chunkSize + 1] bytes. *)
Lemma round_trip_witness :
  0 < 4 ∧
  length (content Symbolic.sample) ∈ [0; 1; 4 - 1; 4; 4 + 1; 10 * 4] ∧
  ∃ chunks metadata effects result,
    encryptFileGenerator (Some Symbolic.masterKey) Symbolic.entropy 0
      Symbolic.sample 4 = (chunks, Ok metadata) ∧
    reconstructFromChunks (Some Symbolic.masterKey) None false
      (map FileUploader.chunkFile chunks
       ++ [FileUploader.metadataFile metadata []])
    = (effects, Ok result) ∧
    concat (reconstructed result) = content Symbolic.sample ∧
    hashMatch result = true.
Proof.
  assert (length (content Symbolic.sample)
          ∈ [0; 1; 4 - 1; 4; 4 + 1; 10 * 4]) as Hsize.
  { apply list_elem_of_In. cbn. tauto. }
  split; [lia|]. split; [exact Hsize|].
  apply (round_trip symbolic_decrypt_encrypt); [lia|exact Hsize].
Defined.

(** A backup of the key of a store set up without a password, restored
    into an empty store. *)
Lemma backup_symmetry_witness :
  length Symbolic.masterKey = 32 ∧
  getMasterKey Symbolic.plainStore None = Ok Symbolic.masterKey ∧
  ∃ backupData,
    exportKeyForBackup Symbolic.entropy 1 "open" Symbolic.plainStore
    = Ok (Base64Json backupData) ∧
    getMasterKey
      (importKeyFromBackup 2 (Base64Json backupData) "open"
         (emptyStore true true true)).1 None
    = Ok Symbolic.masterKey ∧
    importKeyFromBackup 2 (Base64Json backupData) "shut"
      (emptyStore true true true)
    = (emptyStore true true true, Err ImportFailed) ∧
    (importKeyFromBackup 2 (Base64Json backupData) "shut"
       (emptyStore true true true)).2 ≠ Err ChecksumMismatch ∧
    (∀ k', sha256 k' = sha256 Symbolic.masterKey → k' = Symbolic.masterKey) ∧
    ∀ P',
      (importKeyFromBackup 2 (Base64Json backupData) P'
         (emptyStore true true true)).1 = emptyStore true true true ∨
      getMasterKey
        (importKeyFromBackup 2 (Base64Json backupData) P'
           (emptyStore true true true)).1 None
      = Ok Symbolic.masterKey.
Proof.
  assert (getMasterKey Symbolic.plainStore None = Ok Symbolic.masterKey)
    as Hkey by (vm_compute; reflexivity).
  split; [reflexivity|].
  split; [exact Hkey|].
  destruct (backup_symmetry symbolic_decrypt_encrypt Symbolic.plainStore
              Symbolic.masterKey "open" Symbolic.entropy 1 eq_refl Hkey)
    as (backupData & Hexport & Hsame & Hwrong & Hany & Hunique).
  exists backupData. split; [exact Hexport|]. split; [|split; [|split]].
  - specialize (Hsame 2%Z (emptyStore true true true) eq_refl).
    destruct (importKeyFromBackup 2 (Base64Json backupData) "open"
                (emptyStore true true true)) as [st r].
    exact (proj1 Hsame).
  - apply Hwrong. vm_compute. reflexivity.
  - specialize (Hany "shut" 2%Z (emptyStore true true true)).
    destruct (importKeyFromBackup 2 (Base64Json backupData) "shut"
                (emptyStore true true true)) as [st r].
    exact (proj1 Hany).
  - split; [exact (λ k', symbolic_digest_injective k' Symbolic.masterKey)|].
    intros P'.
    exact (Hunique (λ k', symbolic_digest_injective k' Symbolic.masterKey)
             P' 2%Z (emptyStore true true true)).
Defined.

(** C2, where the specification fails: with a wrong password the import
    does not end with the checksum error. The AEAD cipher rejects the wrapped
    key before any checksum is compared, and what the caller gets is
    the error [importKeyFromBackup] throws for every failure. *)
Lemma import_wrong_password_error :
  (importKeyFromBackup 2 Symbolic.backup "shut"
     (emptyStore true true true)).2 = Err ImportFailed ∧
  (importKeyFromBackup 2 Symbolic.backup "shut"
     (emptyStore true true true)).2 ≠ Err ChecksumMismatch ∧
  (importKeyFromBackupBody 2 Symbolic.backup "shut"
     (emptyStore true true true)).2 = Err OperationError.
Proof.
  split; [|split]; vm_compute; [reflexivity|discriminate|reflexivity].
Qed.

(** A store set up with a password, read without one. *)
Lemma getMasterKey_encrypted_without_password_witness :
  is_Some (getItem Symbolic.lockedStore encryptedStorageKey) ∧
  getMasterKey Symbolic.lockedStore None = Err KeyNotFound ∧
  getMasterKey Symbolic.lockedStore None ≠ Err PasswordRequired.
Proof.
  split; [vm_compute; eexists; reflexivity|].
  apply (getMasterKey_encrypted_without_password Symbolic.lockedStore None);
    [reflexivity|..];
    intros key t Hkey; apply list_elem_of_In in Hkey;
    destruct Hkey as [<-|[<-|[]]]; vm_compute; intros Ht;
    try discriminate Ht; injection Ht as <-; eexists; split; reflexivity.
Defined.

(** The metadata of a file of five bytes in chunks of four. *)
Lemma metadata_invariants_witness :
  0 < 4 ∧
  ∃ metadata,
    (encryptFileGenerator (Some Symbolic.masterKey) Symbolic.entropy 0
       Symbolic.sample 4).2 = Ok metadata.
Proof.
  split; [lia|].
  apply (proj1 (metadata_invariants Symbolic.entropy 0 Symbolic.sample 4
                  (Nat.lt_0_succ 3))).
Defined.





(** Legacy metadata with a wrong hash. On a platform that can
    allocate the combined buffer the digest is compared, the user is
    asked, and declines; on one that cannot, the file is downloaded as
    if it had been verified. *)
Lemma legacy_verification_witness :
  ∃ effects,
    decryptLoop (Some Symbolic.masterKey) false 0
      (selectChunkFiles Symbolic.legacySet)
    = (effects, Ok ([[x68; x69]], [])) ∧
    safelyNumbered Symbolic.legacySet = true ∧
    SecureCryptoUtils.calculateHash [x68; x69] ≠ "0000" ∧
    SecureCryptoUtils.combineChunks None [[x68; x69]] = Ok [x68; x69] ∧
    reconstructFromChunks (Some Symbolic.masterKey) None false
      Symbolic.legacySet = (effects ++ [Confirm], Err UserCancelled) ∧
    SecureCryptoUtils.combineChunks (Some 1) [[x68; x69]]
    = Err RangeError ∧
    ∃ result,
      reconstructFromChunks (Some Symbolic.masterKey) (Some 1) false
        Symbolic.legacySet
      = (effects ++ [Download [x68; x69] "old_reconstructed.txt"],
         Ok result) ∧
      hash (metadata result) = "0000" ∧
      hashMatch result = true.
Proof.
  assert (∃ effects,
            decryptLoop (Some Symbolic.masterKey) false 0
              (selectChunkFiles Symbolic.legacySet)
            = (effects, Ok ([[x68; x69]], []))) as [effects Hloop].
  { eexists. vm_compute. reflexivity. }
  assert (SecureCryptoUtils.calculateHash [x68; x69] ≠ "0000") as Hhash
    by (vm_compute; discriminate).
  pose proof (proj1 (legacy_verification (Some Symbolic.masterKey) None
                       false Symbolic.legacySet _ _ effects [[x68; x69]] []
                       eq_refl eq_refl ltac:(discriminate) eq_refl eq_refl
                       Hloop) I) as [Hcombine Hrun].
  pose proof (proj2 (legacy_verification (Some Symbolic.masterKey) (Some 1)
                       false Symbolic.legacySet _ _ effects [[x68; x69]] []
                       eq_refl eq_refl ltac:(discriminate) eq_refl eq_refl
                       Hloop) 1 eq_refl (Nat.lt_succ_diag_r 1))
    as [Hcombine' Hrun'].
  exists effects. split; [exact Hloop|]. split; [reflexivity|].
  split; [exact Hhash|]. split; [exact Hcombine|].
  split.
  { rewrite Hrun. apply String.eqb_neq in Hhash. cbn [concat app hash].
    by rewrite Hhash. }
  split; [exact Hcombine'|].
  eexists. split; [exact Hrun'|]. split; reflexivity.
Defined.

(** A first setup without a password, then a reset whose clearing of
    the secondary store goes through, and one whose clearing fails. *)
Lemma hasMasterKey_lifecycle_witness :
  hasMasterKey (emptyStore true true true) = false ∧
  (generateAndStoreMasterKey Symbolic.entropy 0 None
     (emptyStore true true true)).2 = Ok (toHex Symbolic.masterKey) ∧
  hasMasterKey Symbolic.plainStore = true ∧
  hasMasterKey (clearAllKeys true Symbolic.plainStore) = false ∧
  hasMasterKey (clearAllKeys false Symbolic.plainStore) =
    existsb (λ key, bool_decide
                      (is_Some (getDataFromIndexedDB Symbolic.plainStore key)))
      storageKeys.
Proof.
  destruct hasMasterKey_lifecycle
    as (Hempty & Hgenerated & Hcleared & Hstale).
  split; [apply Hempty|]. split; [vm_compute; reflexivity|].
  split; [|split; [apply Hcleared|apply Hstale]].
  apply (Hgenerated Symbolic.entropy 0%Z None (emptyStore true true true)
           Symbolic.plainStore (toHex Symbolic.masterKey)).
  vm_compute. reflexivity.
Defined.

(** C9, where the specification fails: a reset whose clearing of the
    secondary store fails. The store was set up without a password, so
    that both stores hold the record; [clearAllKeys] removes it from
    the primary store, [clearIndexedDB] resolves without having removed
    it from the secondary one, and [hasMasterKey()] still finds it. *)
Lemma hasMasterKey_after_failed_clear :
  is_Some (getDataFromIndexedDB Symbolic.plainStore plainStorageKey) ∧
  getItem (clearAllKeys false Symbolic.plainStore) plainStorageKey = None ∧
  hasMasterKey (clearAllKeys false Symbolic.plainStore) = true ∧
  hasMasterKey (clearAllKeys false Symbolic.plainStore) ≠ false.
Proof.
  split; [vm_compute; eexists; reflexivity|].
  split; [vm_compute; reflexivity|].
  split; [vm_compute; reflexivity|vm_compute; discriminate].
Qed.

(** An input of three bytes under a loaded key. *)
Lemma decryptChunk_too_short_witness :
  length [x00; x01; x02] < 12 ∧
  SecureCryptoUtils.decryptChunk (Some Symbolic.masterKey) [x00; x01; x02]
  = ([], Err InvalidEncryptedData).
Proof.
  split; [cbn; lia|].
  apply (decryptChunk_too_short (Some Symbolic.masterKey) [x00; x01; x02]).
  cbn. lia.
Defined.

(** C10, where the specification fails: with no key loaded, an input shorter
    than 12 bytes is refused with the not-initialised error, not with
    the invalid-data error. *)
Lemma decryptChunk_short_uninitialized :
  length [x00; x01; x02] < 12 ∧
  SecureCryptoUtils.decryptChunk None [x00; x01; x02]
  = ([], Err NotInitialized) ∧
  (SecureCryptoUtils.decryptChunk None [x00; x01; x02]).2
  ≠ Err InvalidEncryptedData.
Proof. split; [cbn; lia|]. split; [reflexivity|discriminate]. Qed.

(** C4. A container whose metadata declares five chunks and which holds
    four: the loose-file path refuses the set with
    [ChunkCountMismatch] before decrypting anything, while the container
    path decrypts the four chunks, finds the hash different, and on the
    user's confirmation downloads the truncated file and reports
    success. *)
Theorem reconstructFromZip_ignores_count :
  (∃ metadataFile metadata,
     find (λ f, JS.endsWith (name f) "_metadata.json")
       Symbolic.incompleteSet = Some metadataFile ∧
     parsed metadataFile = Some metadata ∧
     totalChunks metadata = 5 ∧
     length (selectChunkFiles Symbolic.incompleteSet) = 4) ∧
  reconstructFromChunks (Some Symbolic.masterKey) None true
    Symbolic.incompleteSet = ([], Err (ChunkCountMismatch 5 4)) ∧
  ∃ effects,
    reconstructFromZip (Some Symbolic.masterKey) None true
      Symbolic.incompleteSet = (effects, Ok true) ∧
    length (filter (λ e, isDecryption e = true) effects) = 4 ∧
    last effects = Some (Download [x01; x02; x03; x04]
                           "report_reconstructed.pdf").
Proof.
  split; [eexists _, _; repeat split; vm_compute; reflexivity|].
  split; [vm_compute; reflexivity|].
  eexists. split; [vm_compute; reflexivity|].
  split; reflexivity.
Qed.

End Instances.

(** * Further properties *)

(** ** The key vault: setup, unlocking and reset *)

Section Vault.
Context `{WebCrypto}.
Import SecureKeyManager.

Lemma hasMasterKey_false (st : Store) (key : string) :
  hasMasterKey st = false → key ∈ storageKeys →
  getItem st key = None ∧ getDataFromIndexedDB st key = None.
Proof.
  unfold hasMasterKey. intros Hhas Hkey.
  destruct (existsb _ storageKeys) eqn:Hls in Hhas; [done|].
  split.
  - destruct (getItem st key) as [t|] eqn:Hget; [exfalso|done].
    apply not_true_iff_false in Hls. apply Hls, existsb_exists.
    exists key. split; [by apply list_elem_of_In|].
    apply bool_decide_eq_true. by rewrite Hget.
  - destruct (getDataFromIndexedDB st key) as [t|] eqn:Hget; [exfalso|done].
    apply not_true_iff_false in Hhas. apply Hhas, existsb_exists.
    exists key. split; [by apply list_elem_of_In|].
    apply bool_decide_eq_true. by rewrite Hget.
Qed.

Lemma firstParsed_Some (get : string → option StoredText)
    (password : option string) (keys : list string) (k : bytes) :
  firstParsed get password keys = Some k →
  ∃ key, key ∈ keys ∧ is_Some (get key).
Proof.
  induction keys as [|key keys IH]; [done|]. cbn.
  destruct (get key) as [t|] eqn:Hget.
  - intros _. exists key. split; [by left|by rewrite Hget].
  - intros (key' & Hin & Hsome)%IH. exists key'. split; [by right|done].
Qed.

(** The record a generation writes, and the name it writes it under. *)
Let generated (entropy : nat → byte) (now : Z) (password : option string)
  : string * StoredText :=
  match givenPassword password with
  | Some pw =>
      (encryptedStorageKey,
       Json {| encrypted := true;
               data := encryptKeyWithPassword (λ i, entropy (32 + i))
                         (getRandomValues entropy 0 32) pw;
               timestamp := now; version := KEY_VERSION;
               imported := false |})
  | None =>
      (plainStorageKey,
       Json {| encrypted := false;
               data := toHex (getRandomValues entropy 0 32);
               timestamp := now; version := KEY_VERSION;
               imported := false |})
  end.

(** A generation either fails and leaves the store as it was, or
    writes its record to the primary store and, when it can be opened,
    to the secondary one. *)
Lemma generate_outcome (entropy : nat → byte) (now : Z)
    (password : option string) (st : Store) :
  let '(storageKey, keyData) := generated entropy now password in
  if secureContext st && storageWritable st then
    generateAndStoreMasterKey entropy now password st =
    ({| localStorage := <[storageKey := keyData]> (localStorage st);
        indexedDB := (λ db, <[storageKey := keyData]> db) <$> indexedDB st;
        storageWritable := true;
        secureContext := true |},
     Ok (toHex (getRandomValues entropy 0 32)))
  else
    generateAndStoreMasterKey entropy now password st
    = (st, Err GenerationFailed).
Proof.
  unfold generated, generateAndStoreMasterKey, generateAndStoreMasterKeyBody,
    isCryptoAvailable, setItem, storeInIndexedDB.
  destruct st as [ls idb [] []]; cbn [secureContext storageWritable
    localStorage indexedDB negb andb];
    destruct (givenPassword password); try reflexivity;
    destruct idb; reflexivity.
Qed.


Lemma getItem_inserted (st st' : Store) (key : string) (keyInfo : KeyInfo) :
  localStorage st' = <[key := Json keyInfo]> (localStorage st) →
  getItem st' key = Some (Json keyInfo) ∧
  ∀ k, k ≠ key → getItem st' k = getItem st k.
Proof.
  intros Hls. unfold getItem. rewrite Hls. split.
  - by rewrite lookup_insert_eq.
  - intros k Hk. by rewrite lookup_insert_ne.
Qed.

Lemma getData_inserted (st st' : Store) (key : string) (keyInfo : KeyInfo) :
  indexedDB st' = (λ db, <[key := Json keyInfo]> db) <$> indexedDB st →
  (is_Some (indexedDB st) →
   getDataFromIndexedDB st' key = Some (Json keyInfo)) ∧
  (indexedDB st = None → ∀ k, getDataFromIndexedDB st' k = None) ∧
  ∀ k, k ≠ key → getDataFromIndexedDB st' k = getDataFromIndexedDB st k.
Proof.
  intros Hdb. unfold getDataFromIndexedDB. rewrite Hdb.
  destruct (indexedDB st) as [db|]; cbn.
  - split; [by rewrite lookup_insert_eq|]. split; [done|].
    intros k Hk. by rewrite lookup_insert_ne.
  - split; [by intros [? ?]|done].
Qed.

(** What a successful generation leaves in the two stores. *)
Lemma generate_written (entropy : nat → byte) (now : Z)
    (password : option string) (st st' : Store) (hexKey : string) :
  generateAndStoreMasterKey entropy now password st = (st', Ok hexKey) →
  ∃ keyInfo,
    generated entropy now password
    = ((generated entropy now password).1, Json keyInfo) ∧
    hexKey = toHex (getRandomValues entropy 0 32) ∧
    localStorage st'
    = <[(generated entropy now password).1 := Json keyInfo]>
        (localStorage st) ∧
    indexedDB st'
    = (λ db, <[(generated entropy now password).1 := Json keyInfo]> db)
        <$> indexedDB st.
Proof.
  intros Hgen. pose proof (generate_outcome entropy now password st) as Hout.
  destruct (generated entropy now password) as [storageKey keyData] eqn:Hrec.
  destruct (secureContext st && storageWritable st);
    rewrite Hgen in Hout; [|done].
  injection Hout as -> ->.
  assert (∃ keyInfo, keyData = Json keyInfo) as [keyInfo ->].
  { unfold generated in Hrec.
    destruct (givenPassword password); injection Hrec as _ <-; by eexists. }
  exists keyInfo. by repeat split.
Qed.

Lemma parseStoredKey_plain (keyInfo : KeyInfo) (password : option string) :
  encrypted keyInfo = false →
  parseStoredKey (Json keyInfo) password = fromHex (data keyInfo).
Proof.
  intros Henc. unfold parseStoredKey, parseStoredKeyBody. rewrite Henc.
  by destruct (fromHex (data keyInfo)).
Qed.

Lemma parseStoredKey_text (s : string) (password : option string) :
  parseStoredKey (Text s) password = None.
Proof. reflexivity. Qed.


Lemma firstParsed_unparsed (get : string → option StoredText)
    (password : option string) (keys : list string) :
  (∀ key t, key ∈ keys → get key = Some t →
     parseStoredKey t password = None) →
  firstParsed get password keys = None.
Proof.
  induction keys as [|key keys IH]; intros Hget; [done|]. cbn.
  destruct (get key) as [t|] eqn:Ht.
  - rewrite (Hget key t) by (done || by left).
    apply IH. intros k t' Hk. apply Hget. by right.
  - apply IH. intros k t' Hk. apply Hget. by right.
Qed.

Lemma entropy_key_nonempty (entropy : nat → byte) :
  getRandomValues entropy 0 32 ≠ [].
Proof. done. Qed.

(** X6. [generateAndStoreMasterKey] succeeds exactly when the page is a
    secure context and the primary store takes the write, whether or
    not the secondary store can be opened; when it fails, it fails with
    its one error ('Failed to generate secure master key') and leaves
    both stores as they were. *)
Theorem generate_all_or_nothing (entropy : nat → byte) (now : Z)
    (password : option string) (st : Store) :
  let result := generateAndStoreMasterKey entropy now password st in
  isOk result.2 = secureContext st && storageWritable st ∧
  (isOk result.2 = false → result = (st, Err GenerationFailed)).
Proof.
  cbn zeta. pose proof (generate_outcome entropy now password st) as Hout.
  destruct (generated entropy now password) as [storageKey keyData].
  destruct (secureContext st && storageWritable st); rewrite Hout; done.
Qed.

(** X7. [clearAllKeys] removes from the primary store exactly the
    entries whose name starts with the prefix of the key manager and
    keeps every other entry, whether or not the clearing of the
    secondary store goes through. When it goes through, the secondary
    store is left empty and no password retrieves a key any more; when
    it fails, the secondary store is left as it was, and a lookup
    returns what the secondary store alone yields. *)
Theorem clearAllKeys_frame (cleared : bool) (st : Store) :
  (∀ key, JS.startsWith key STORAGE_PREFIX = true →
          localStorage (clearAllKeys cleared st) !! key = None) ∧
  (∀ key, JS.startsWith key STORAGE_PREFIX = false →
          localStorage (clearAllKeys cleared st) !! key
          = localStorage st !! key) ∧
  indexedDB (clearAllKeys cleared st) =
    (if cleared then (λ _, ∅) <$> indexedDB st else indexedDB st) ∧
  (∀ password,
     getMasterKey (clearAllKeys cleared st) password =
     if cleared then Err KeyNotFound
     else match getFromIndexedDB st password with
          | Some key => Ok key
          | None => Err KeyNotFound
          end).
Proof.
  split; [|split; [|split]].
  - intros key Hpre. cbn. apply map_lookup_filter_None_2.
    right. intros t _. cbn [fst]. by rewrite Hpre.
  - intros key Hpre. cbn.
    destruct (localStorage st !! key) as [t|] eqn:Hget.
    + by apply map_lookup_filter_Some_2.
    + apply map_lookup_filter_None_2. by left.
  - cbn. by destruct (indexedDB st), cleared.
  - intros password. destruct cleared.
    + apply getMasterKey_absent; intros key Hkey.
      * by apply clearAllKeys_getItem, storageKeys_prefixed.
      * apply clearAllKeys_getData.
    + rewrite getMasterKey_fallback.
      * unfold getFromIndexedDB, storageKeys. cbn [firstParsed].
        by rewrite !clearAllKeys_stale.
      * apply firstParsed_absent. intros key Hkey.
        by apply clearAllKeys_getItem, storageKeys_prefixed.
Qed.

(** X10. Without a record under either name in either store there is
    no key to retrieve, whatever the password, and nothing to export. *)
Theorem getMasterKey_without_record (st : Store) :
  hasMasterKey st = false →
  (∀ password, getMasterKey st password = Err KeyNotFound) ∧
  (∀ entropy now password,
     exportKeyForBackup entropy now password st = Err KeyNotFound).
Proof.
  intros Hnone.
  assert (∀ password, getMasterKey st password = Err KeyNotFound) as Hget.
  { intros password.
    apply getMasterKey_absent; intros key Hkey;
      by destruct (hasMasterKey_false st key Hnone Hkey). }
  split; [done|]. intros entropy now password.
  unfold exportKeyForBackup. by rewrite Hget.
Qed.

(** X2. A generation with a password does not replace a readable plain
    record already in the primary store: the new key is written under
    the other name, and every later lookup, with any password or none,
    still returns the key of the plain record. *)
Theorem generate_shadowed_by_plain_record (entropy : nat → byte) (now : Z)
    (password : option string) (st st' : Store) (hexKey : string)
    (keyInfo : KeyInfo) (k0 : bytes) :
  getItem st plainStorageKey = Some (Json keyInfo) →
  encrypted keyInfo = false →
  fromHex (data keyInfo) = Some k0 →
  is_Some (givenPassword password) →
  generateAndStoreMasterKey entropy now password st = (st', Ok hexKey) →
  hexKey = toHex (getRandomValues entropy 0 32) ∧
  getItem st' plainStorageKey = Some (Json keyInfo) ∧
  ∀ password', getMasterKey st' password' = Ok k0.
Proof.
  intros Hplain Henc Hdata [pw Hpw] Hgen.
  destruct (generate_written _ _ _ _ _ _ Hgen) as (ki & _ & -> & Hls & _).
  unfold generated in Hls. rewrite Hpw in Hls. cbn [fst] in Hls.
  destruct (getItem_inserted _ _ _ _ Hls) as [_ Hmiss].
  assert (getItem st' plainStorageKey = Some (Json keyInfo)) as Hkept.
  { by rewrite Hmiss. }
  split; [done|]. split; [done|]. intros password'.
  apply getMasterKey_primary_first.
  unfold getFromLocalStorage, storageKeys. cbn [firstParsed].
  by rewrite Hkept, parseStoredKey_plain, Hdata.
Qed.

(** X4. A key set up with a password cannot be exported: the export
    reads the key without a password, finds only the encrypted record,
    and fails with 'No master key found' whatever backup password is
    given. *)
Theorem export_fails_on_protected_store (entropy : nat → byte) (now : Z)
    (password : option string) (st st' : Store) (hexKey : string) :
  hasMasterKey st = false →
  is_Some (givenPassword password) →
  generateAndStoreMasterKey entropy now password st = (st', Ok hexKey) →
  hasMasterKey st' = true ∧
  ∀ entropy' now' backupPassword,
    exportKeyForBackup entropy' now' backupPassword st' = Err KeyNotFound.
Proof.
  intros Hfresh [pw Hpw] Hgen.
  destruct (generate_written _ _ _ _ _ _ Hgen) as (ki & Hrec & _ & Hls & Hdb).
  unfold generated in Hrec, Hls, Hdb. rewrite Hpw in Hrec, Hls, Hdb.
  cbn [fst] in Hrec, Hls, Hdb. injection Hrec as Hki.
  destruct (getItem_inserted _ _ _ _ Hls) as [Hhit Hmiss].
  destruct (getData_inserted _ _ _ _ Hdb) as (Hdhit & Hdnone & Hdmiss).
  split.
  { apply (hasMasterKey_local st' encryptedStorageKey);
      [unfold storageKeys; set_solver|by rewrite Hhit]. }
  intros entropy' now' backupPassword. unfold exportKeyForBackup.
  assert (getMasterKey st' None = Err KeyNotFound) as ->; [|done].
  assert (parseStoredKey (Json ki) None = None) as Hparse.
  { apply parseStoredKey_needs_password; [by rewrite <- Hki|done]. }
  unfold getMasterKey, getFromLocalStorage, getFromIndexedDB.
  rewrite !firstParsed_unparsed; [done|..]; intros key t Hkey Hget;
    apply list_elem_of_In in Hkey; destruct Hkey as [<-|[<-|[]]].
  - rewrite Hdmiss in Hget by done.
    destruct (hasMasterKey_false st plainStorageKey Hfresh) as [_ Hn];
      [unfold storageKeys; set_solver|congruence].
  - destruct (indexedDB st) as [db|] eqn:Hidb.
    + rewrite Hdhit in Hget by done. by injection Hget as <-.
    + by rewrite Hdnone in Hget.
  - rewrite Hmiss in Hget by done.
    destruct (hasMasterKey_false st plainStorageKey Hfresh) as [Hn _];
      [unfold storageKeys; set_solver|congruence].
  - rewrite Hhit in Hget. by injection Hget as <-.
Qed.


(** X5. [initializeOrGetMasterKey] fails only with the error of the
    generation or with 'No master key found'; on a store that holds a
    record it generates nothing and leaves the store as it is, and on a
    store without one a key it returns is the generated key
    material. *)
Theorem initializeOrGetMasterKey_outcome (entropy : nat → byte) (now : Z)
    (password : option string) (st : Store) :
  let '(st', r) := initializeOrGetMasterKey entropy now password st in
  (∀ e, r = Err e → e = GenerationFailed ∨ e = KeyNotFound) ∧
  (hasMasterKey st = true → st' = st) ∧
  (hasMasterKey st = false →
   ∀ k, r = Ok k → k = getRandomValues entropy 0 32).
Proof.
  unfold initializeOrGetMasterKey.
  destruct (hasMasterKey st) eqn:Hhas; cbn [negb].
  - split; [|done]. intros e.
    unfold getMasterKey.
    destruct (getFromLocalStorage st password); [done|].
    destruct (getFromIndexedDB st password); [done|].
    intros [= <-]. by right.
  - pose proof (generate_outcome entropy now password st) as Hout.
    destruct (generated entropy now password) as [storageKey keyData].
    destruct (secureContext st && storageWritable st); rewrite Hout.
    + rewrite fromHex_toHex by apply entropy_key_nonempty.
      split; [done|]. split; [done|]. by intros _ k [= <-].
    + split; [|done]. intros e [= <-]. by left.
Qed.

(** X3. A wrong password is reported as a missing key. After a setup
    with the password [pw], a lookup with a password under which the
    AEAD cipher rejects the wrapped key ends with 'No master key
    found', and [initialize] with it fails and leaves the store as it
    is. *)
Theorem unlock_with_wrong_password (entropy : nat → byte) (now : Z)
    (pw pw' : string) (st st' : Store) (hexKey : string) :
  hasMasterKey st = false →
  pw ≠ "" →
  generateAndStoreMasterKey entropy now (Some pw) st = (st', Ok hexKey) →
  (let salt := getRandomValues (λ i, entropy (32 + i)) 0 16 in
   let iv := getRandomValues (λ i, entropy (32 + i)) 16 12 in
   aesGcmDecrypt (pbkdf2 (JS.encode pw') salt 100000%N) iv
     (aesGcmEncrypt (pbkdf2 (JS.encode pw) salt 100000%N) iv
        (getRandomValues entropy 0 32)) = None) →
  getMasterKey st' (Some pw') = Err KeyNotFound ∧
  ∀ entropy' now',
    SecureCryptoUtils.initialize entropy' now' (Some pw') st'
    = (st', Err InitializationFailed).
Proof.
  intros Hfresh Hpw Hgen Hreject.
  assert (givenPassword (Some pw) = Some pw) as Hgiven.
  { by destruct pw. }
  destruct (generate_written _ _ _ _ _ _ Hgen) as (ki & Hrec & _ & Hls & Hdb).
  unfold generated in Hrec, Hls, Hdb. rewrite Hgiven in Hrec, Hls, Hdb.
  cbn [fst] in Hrec, Hls, Hdb. injection Hrec as Hki.
  destruct (getItem_inserted _ _ _ _ Hls) as [Hhit Hmiss].
  destruct (getData_inserted _ _ _ _ Hdb) as (Hdhit & Hdnone & Hdmiss).
  assert (parseStoredKey (Json ki) (Some pw') = None) as Hparse.
  { unfold parseStoredKey, parseStoredKeyBody. rewrite <- Hki.
    cbn [encrypted data]. destruct (givenPassword (Some pw')) as [p|] eqn:Hp;
      [|done].
    assert (p = pw') as -> by (destruct pw'; cbn in Hp; congruence).
    rewrite decryptKeyWithPassword_wrapped. cbv zeta.
    match goal with
    | |- context [aesGcmDecrypt ?k ?iv ?c] =>
        replace (aesGcmDecrypt k iv c) with (@None bytes)
          by (symmetry; exact Hreject)
    end.
    done. }
  assert (getMasterKey st' (Some pw') = Err KeyNotFound) as Hget.
  { unfold getMasterKey, getFromLocalStorage, getFromIndexedDB.
    rewrite !firstParsed_unparsed; [done|..]; intros key t Hkey Hget;
      apply list_elem_of_In in Hkey; destruct Hkey as [<-|[<-|[]]].
    - rewrite Hdmiss in Hget by done.
      destruct (hasMasterKey_false st plainStorageKey Hfresh) as [_ Hn];
        [unfold storageKeys; set_solver|congruence].
    - destruct (indexedDB st) as [db|] eqn:Hidb.
      + rewrite Hdhit in Hget by done. by injection Hget as <-.
      + by rewrite Hdnone in Hget.
    - rewrite Hmiss in Hget by done.
      destruct (hasMasterKey_false st plainStorageKey Hfresh) as [Hn _];
        [unfold storageKeys; set_solver|congruence].
    - rewrite Hhit in Hget. by injection Hget as <-. }
  split; [done|]. intros entropy' now'.
  unfold SecureCryptoUtils.initialize.
  rewrite (hasMasterKey_local st' encryptedStorageKey);
    [|unfold storageKeys; set_solver|by rewrite Hhit].
  cbn [negb]. by rewrite Hget.
Qed.

(** X27. An unreadable record locks the key manager. When a record
    exists and every record under the two names, in either store, is a
    text that does not parse, [initialize] fails for every password:
    [hasMasterKey] is [true], so no key is generated, and the lookup
    finds no key. The store is left as it is. *)
Theorem initialize_on_unreadable_records (entropy : nat → byte) (now : Z)
    (password : option string) (st : Store) :
  hasMasterKey st = true →
  (∀ key t, key ∈ storageKeys → getItem st key = Some t → ∃ s, t = Text s) →
  (∀ key t, key ∈ storageKeys → getDataFromIndexedDB st key = Some t →
     ∃ s, t = Text s) →
  getMasterKey st password = Err KeyNotFound ∧
  SecureCryptoUtils.initialize entropy now password st
  = (st, Err InitializationFailed).
Proof.
  intros Hhas Hls Hdb.
  assert (getMasterKey st password = Err KeyNotFound) as Hget.
  { unfold getMasterKey, getFromLocalStorage, getFromIndexedDB.
    rewrite !firstParsed_unparsed; [done|..]; intros key t Hkey Ht.
    - by destruct (Hdb key t Hkey Ht) as [s ->].
    - by destruct (Hls key t Hkey Ht) as [s ->]. }
  split; [done|]. unfold SecureCryptoUtils.initialize.
  rewrite Hhas. cbn [negb]. by rewrite Hget.
Qed.

Section Unlocking.
(** What an AEAD cipher does: decryption inverts encryption under the
    same key and IV. *)
Hypothesis decrypt_encrypt : ∀ key iv plaintext,
  aesGcmDecrypt key iv (aesGcmEncrypt key iv plaintext) = Some plaintext.

Lemma parseStoredKey_generated (entropy : nat → byte) (now : Z)
    (password : option string) (keyInfo : KeyInfo) :
  (generated entropy now password).2 = Json keyInfo →
  parseStoredKey (Json keyInfo) password
  = Some (getRandomValues entropy 0 32).
Proof.
  unfold generated. destruct (givenPassword password) as [pw|] eqn:Hpw;
    cbn [snd]; intros [= <-].
  - unfold parseStoredKey, parseStoredKeyBody. cbn [encrypted data].
    by rewrite Hpw, (decryptKeyWithPassword_same decrypt_encrypt).
  - rewrite parseStoredKey_plain by done.
    exact (fromHex_toHex _ (entropy_key_nonempty entropy)).
Qed.

Lemma generate_readable (entropy : nat → byte) (now : Z)
    (password : option string) (st st' : Store) (hexKey : string) :
  hasMasterKey st = false →
  generateAndStoreMasterKey entropy now password st = (st', Ok hexKey) →
  getMasterKey st' password = Ok (getRandomValues entropy 0 32) ∧
  hasMasterKey st' = true.
Proof.
  intros Hfresh Hgen.
  destruct (generate_written _ _ _ _ _ _ Hgen) as (ki & Hrec & -> & Hls & _).
  destruct (getItem_inserted _ _ _ _ Hls) as [Hhit Hmiss].
  assert (parseStoredKey (Json ki) password
          = Some (getRandomValues entropy 0 32)) as Hparse.
  { apply (parseStoredKey_generated entropy now). by rewrite Hrec. }
  split.
  - apply getMasterKey_primary_first.
    unfold getFromLocalStorage, storageKeys. cbn [firstParsed].
    unfold generated in Hhit, Hmiss.
    destruct (givenPassword password) as [pw|]; cbv [fst] in Hhit, Hmiss.
    + rewrite Hmiss by done.
      destruct (hasMasterKey_false st plainStorageKey Hfresh) as [-> _];
        [unfold storageKeys; set_solver|].
      by rewrite Hhit, Hparse.
    + by rewrite Hhit, Hparse.
  - apply (hasMasterKey_local st' (generated entropy now password).1);
      [|by rewrite Hhit].
    unfold generated, storageKeys.
    destruct (givenPassword password); cbv [fst]; set_solver.
Qed.

(** X1. Setup, then unlock. A key generated into a store without a
    record is the key a lookup with the same password returns, and the
    hexadecimal text the generation returns decodes to it: with a
    password the stored record is unwrapped, without one it is
    decoded. *)
Theorem generate_then_getMasterKey (entropy : nat → byte) (now : Z)
    (password : option string) (st st' : Store) (hexKey : string) :
  hasMasterKey st = false →
  generateAndStoreMasterKey entropy now password st = (st', Ok hexKey) →
  fromHex hexKey = Some (getRandomValues entropy 0 32) ∧
  getMasterKey st' password = Ok (getRandomValues entropy 0 32).
Proof.
  intros Hfresh Hgen. split.
  - destruct (generate_written _ _ _ _ _ _ Hgen) as (_ & _ & -> & _).
    apply fromHex_toHex, entropy_key_nonempty.
  - by destruct (generate_readable _ _ _ _ _ _ Hfresh Hgen).
Qed.


Lemma parseStoredKey_None_nonempty (t : StoredText) (k : bytes) :
  parseStoredKey t None = Some k → k ≠ [].
Proof.
  unfold parseStoredKey, parseStoredKeyBody. destruct t as [ki|s]; [|done].
  destruct (encrypted ki); cbn [givenPassword]; [done|].
  destruct (fromHex (data ki)) as [k'|] eqn:Hhex; [|done].
  intros [= <-]. by eapply fromHex_nonempty.
Qed.

Lemma firstParsed_None_nonempty (get : string → option StoredText)
    (keys : list string) (k : bytes) :
  firstParsed get None keys = Some k → k ≠ [].
Proof.
  induction keys as [|key keys IH]; [done|]. cbn.
  destruct (get key) as [t|]; [|done].
  destruct (parseStoredKey t None) as [k'|] eqn:Hparse; [|done].
  intros [= <-]. by eapply parseStoredKey_None_nonempty.
Qed.

Lemma getMasterKey_None_nonempty (st : Store) (k : bytes) :
  getMasterKey st None = Ok k → k ≠ [].
Proof.
  unfold getMasterKey, getFromLocalStorage, getFromIndexedDB.
  destruct (firstParsed (getItem st) None storageKeys) as [k'|] eqn:Hls.
  - intros [= <-]. by eapply firstParsed_None_nonempty.
  - destruct (firstParsed (getDataFromIndexedDB st) None storageKeys)
      as [k'|] eqn:Hdb; [|done].
    intros [= <-]. by eapply firstParsed_None_nonempty.
Qed.

(** X9. An import can report failure after it has stored the key. When
    the secondary store cannot be opened, importing a backup with its
    own password into a writable store ends with 'Failed to import
    key', and yet the store then holds the key: a lookup returns it and
    [hasMasterKey] is [true]. *)
Theorem import_fails_after_storing (st st0 : Store) (k : bytes)
    (P : string) (entropy : nat → byte) (now now' : Z) :
  getMasterKey st None = Ok k →
  storageWritable st0 = true →
  indexedDB st0 = None →
  ∃ backupString st0',
    exportKeyForBackup entropy now P st = Ok backupString ∧
    importKeyFromBackup now' backupString P st0
    = (st0', Err ImportFailed) ∧
    getMasterKey st0' None = Ok k ∧
    hasMasterKey st0' = true.
Proof.
  intros Hkey Hw Hidb.
  pose proof (getMasterKey_None_nonempty st k Hkey) as Hne.
  unfold exportKeyForBackup. rewrite Hkey.
  eexists _, _. split; [reflexivity|].
  unfold importKeyFromBackup, importKeyFromBackupBody.
  cbn [backupPayload checksum].
  rewrite (decryptKeyWithPassword_same decrypt_encrypt).
  rewrite String.eqb_refl. cbn [negb].
  unfold setItem, storeInIndexedDB. rewrite Hw. cbn [indexedDB].
  rewrite Hidb. split; [reflexivity|].
  split.
  - eapply getMasterKey_plain_record;
      [exact Hne
      |unfold getItem; cbn [localStorage]; by rewrite lookup_insert_eq
      |reflexivity..].
  - apply (hasMasterKey_local _ plainStorageKey);
      [unfold storageKeys; set_solver|].
    unfold getItem. cbn [localStorage]. by rewrite lookup_insert_eq.
Qed.

(** X11. The first [initialize] on a store without a record succeeds
    exactly when the page is a secure context and the primary store
    takes the write; it then loads the 32 generated bytes as the key,
    and every later [initialize] with the same password loads the same
    key and leaves the store as it is. Otherwise it fails with its one
    error and the store is as before. *)
Theorem initialize_first_run (entropy : nat → byte) (now : Z)
    (password : option string) (st : Store) :
  hasMasterKey st = false →
  (secureContext st = true → storageWritable st = true →
   ∃ st',
     SecureCryptoUtils.initialize entropy now password st
     = (st', Ok (getRandomValues entropy 0 32)) ∧
     ∀ entropy' now',
       SecureCryptoUtils.initialize entropy' now' password st'
       = (st', Ok (getRandomValues entropy 0 32))) ∧
  (secureContext st && storageWritable st = false →
   SecureCryptoUtils.initialize entropy now password st
   = (st, Err InitializationFailed)).
Proof.
  intros Hfresh.
  assert (bool_decide (length (getRandomValues entropy 0 32) ∈ [16; 24; 32])
          = true) as Hlen.
  { apply bool_decide_eq_true_2. rewrite getRandomValues_length. set_solver. }
  pose proof (generate_outcome entropy now password st) as Hout.
  destruct (generated entropy now password) as [storageKey keyData].
  split.
  - intros Hsec Hw. rewrite Hsec, Hw in Hout. cbn [andb] in Hout.
    destruct (generate_readable _ _ _ _ _ _ Hfresh Hout) as [Hget Hhas].
    eexists. split.
    + unfold SecureCryptoUtils.initialize. rewrite Hfresh. cbn [negb].
      rewrite Hout, fromHex_toHex by apply entropy_key_nonempty.
      by rewrite Hlen.
    + intros entropy' now'. unfold SecureCryptoUtils.initialize.
      rewrite Hhas. cbn [negb]. by rewrite Hget, Hlen.
  - intros Hno. rewrite Hno in Hout.
    unfold SecureCryptoUtils.initialize. rewrite Hfresh. cbn [negb].
    by rewrite Hout.
Qed.

(** X28. An imported key needs no password. A backup of a 32-byte key,
    imported with its password into a writable store, leaves a plain
    record in the primary store: from then on every lookup returns the
    key and every [initialize] loads it, whatever password is given,
    and whether or not the import itself reported success. *)
Theorem imported_key_needs_no_password (st st0 : Store) (k : bytes)
    (P : string) (entropy : nat → byte) (now now' : Z) :
  length k = 32 →
  getMasterKey st None = Ok k →
  storageWritable st0 = true →
  ∃ backupString st0' r,
    exportKeyForBackup entropy now P st = Ok backupString ∧
    importKeyFromBackup now' backupString P st0 = (st0', r) ∧
    ∀ password,
      getMasterKey st0' password = Ok k ∧
      ∀ entropy' now'',
        SecureCryptoUtils.initialize entropy' now'' password st0'
        = (st0', Ok k).
Proof.
  intros Hlen Hkey Hw.
  assert (k ≠ []) as Hne by (by destruct k).
  unfold exportKeyForBackup. rewrite Hkey.
  set (bd := {| backupVersion := KEY_VERSION;
                backupTimestamp := now;
                backupPayload := encryptKeyWithPassword entropy k P;
                checksum := calculateChecksum k |}).
  pose proof (import_outcome now' bd P st0 k
                (decryptKeyWithPassword_same decrypt_encrypt entropy k P))
    as Hout.
  cbn zeta in Hout.
  destruct (importKeyFromBackup now' (Base64Json bd) P st0) as [st0' r]
    eqn:Himp.
  exists (Base64Json bd), st0', r. split; [done|]. split; [done|].
  destruct Hout as [[Hsum _] | [[Hw' _] |
                    (_ & _ & _ & keyInfo & Hget & Henc & Hd)]];
    [done|congruence|].
  cbn [fst] in Hget. intros password.
  assert (getMasterKey st0' password = Ok k) as Hread.
  { apply getMasterKey_primary_first.
    unfold getFromLocalStorage, storageKeys. cbn [firstParsed].
    by rewrite Hget, parseStoredKey_plain, Hd, fromHex_toHex. }
  split; [done|]. intros entropy' now''.
  unfold SecureCryptoUtils.initialize.
  rewrite (hasMasterKey_local st0' plainStorageKey);
    [|unfold storageKeys; set_solver|by rewrite Hget].
  cbn [negb]. rewrite Hread, Hlen.
  by rewrite bool_decide_eq_true_2 by set_solver.
Qed.

End Unlocking.

End Vault.

(** ** Hexadecimal text, chunking and the chunk cipher *)

(** X12. The hexadecimal text of a byte array has two characters per
    byte, and decoding it gives the array back, except for the empty
    array: the text is then empty, its match is [null], and the decoding
    throws. *)
Theorem hex_round_trip (data : bytes) :
  String.length (toHex data) = 2 * length data ∧
  fromHex (toHex data) = match data with [] => None | _ => Some data end.
Proof.
  split.
  - induction data as [|b data IH]; [done|].
    rewrite toHex_cons. cbn [String.length length]. rewrite IH. lia.
  - destruct data as [|b data]; [done|]. by apply fromHex_toHex.
Qed.

Section Chunking.
Import FileEncryptionService.

Variables (buffer : bytes) (chunkSize : nat).
Hypothesis chunkSize_positive : 0 < chunkSize.

(** The chunk the loop cuts at index [k * chunkSize]. *)
Let piece (k : nat) : bytes :=
  take (Nat.min (k * chunkSize + chunkSize) (length buffer) - k * chunkSize)
    (drop (k * chunkSize) buffer).

Let n : nat := ceilDiv (length buffer) chunkSize.

Lemma splitLoop_pieces (fuel k : nat) (chunks : list bytes) :
  k ≤ n → n - k ≤ fuel →
  SecureCryptoUtils.splitLoop fuel buffer chunkSize (k * chunkSize) chunks
  = Some (chunks ++ map piece (seq k (n - k))).
Proof.
  destruct (ceilDiv_least (length buffer) chunkSize chunkSize_positive)
    as [Hcover Hleast]. fold n in Hcover, Hleast.
  revert k chunks. induction fuel as [|fuel IH]; intros k chunks Hk Hfuel.
  - assert (k = n) as -> by lia. rewrite Nat.sub_diag.
    cbn [SecureCryptoUtils.splitLoop seq map]. rewrite app_nil_r.
    destruct (Nat.ltb_spec (n * chunkSize) (length buffer)); [lia|done].
  - cbn [SecureCryptoUtils.splitLoop].
    destruct (Nat.ltb_spec (k * chunkSize) (length buffer)) as [Hlt|Hge].
    + assert (k < n) as Hkn.
      { destruct (Nat.lt_ge_cases k n) as [|Hnk]; [done|].
        pose proof (Nat.mul_le_mono_r n k chunkSize Hnk). lia. }
      replace (k * chunkSize + chunkSize) with (S k * chunkSize) by lia.
      rewrite IH by lia.
      replace (n - k) with (S (n - S k)) by lia.
      cbn [seq map]. rewrite <- app_assoc. cbn [app].
      unfold piece at 2.
      by replace (S k * chunkSize) with (k * chunkSize + chunkSize) by lia.
    + assert (n ≤ k) as Hnk by by apply Hleast.
      replace (n - k) with 0 by lia. cbn [seq map]. by rewrite app_nil_r.
Qed.

Lemma ceilDiv_le_length : n ≤ length buffer.
Proof.
  destruct (ceilDiv_least (length buffer) chunkSize chunkSize_positive)
    as [_ Hleast].
  apply Hleast. nia.
Qed.

(** [splitIntoChunks] cuts the pieces the generator slices. *)
Lemma splitIntoChunks_pieces :
  SecureCryptoUtils.splitIntoChunks buffer chunkSize
  = Some (map piece (seq 0 n)).
Proof.
  unfold SecureCryptoUtils.splitIntoChunks.
  change 0 with (0 * chunkSize) at 1.
  rewrite splitLoop_pieces; [|lia|pose proof ceilDiv_le_length; lia].
  by rewrite Nat.sub_0_r.
Qed.

Lemma piece_length (k : nat) :
  k < n →
  0 < length (piece k) ≤ chunkSize ∧
  (S k < n → length (piece k) = chunkSize).
Proof.
  destruct (ceilDiv_least (length buffer) chunkSize chunkSize_positive)
    as [Hcover Hleast]. fold n in Hcover, Hleast.
  intros Hk. unfold piece. rewrite length_take, length_drop.
  assert (k * chunkSize < length buffer) as Hlt.
  { destruct (Nat.lt_ge_cases (k * chunkSize) (length buffer)) as [|Hge];
      [done|]. apply Hleast in Hge. lia. }
  split; [lia|]. intros Hnext.
  assert (S k * chunkSize < length buffer) as Hlt'.
  { destruct (Nat.lt_ge_cases (S k * chunkSize) (length buffer)) as [|Hge];
      [done|]. apply Hleast in Hge. lia. }
  lia.
Qed.

End Chunking.

(** X13. For a positive chunk size, [splitIntoChunks] returns, and
    [combineChunks] puts its chunks together into the buffer they were
    cut from. There are [Math.ceil(length / chunkSize)] chunks, none is
    empty or longer than the chunk size, and all but the last have
    exactly that size. *)
Theorem splitIntoChunks_combineChunks (buffer : bytes) (chunkSize : nat) :
  0 < chunkSize →
  ∃ chunks,
    SecureCryptoUtils.splitIntoChunks buffer chunkSize = Some chunks ∧
    SecureCryptoUtils.combineChunks None chunks = Ok buffer ∧
    length chunks
    = FileEncryptionService.ceilDiv (length buffer) chunkSize ∧
    ∀ i chunk, chunks !! i = Some chunk →
      0 < length chunk ≤ chunkSize ∧
      (S i < length chunks → length chunk = chunkSize).
Proof.
  intros Hpos. eexists. split; [by apply splitIntoChunks_pieces|].
  split; [|split].
  - unfold SecureCryptoUtils.combineChunks. f_equal.
    exact (concat_all_chunkData
             {| name := ""; content := buffer; parsed := None |}
             chunkSize Hpos).
  - by rewrite length_map, length_seq.
  - intros i chunk Hi. rewrite length_map, length_seq.
    rewrite list_lookup_fmap in Hi.
    destruct (seq 0 _ !! i) as [k|] eqn:Hk; [|done].
    apply lookup_seq in Hk as [-> Hk]. injection Hi as <-.
    by apply piece_length.
Qed.

(** X14. With a chunk size of zero the loop of [splitIntoChunks] does
    not advance: on a non-empty buffer it is still running after any
    number of iterations, so the function does not return. *)
Theorem splitIntoChunks_zero_chunkSize (buffer : bytes) :
  buffer ≠ [] →
  (∀ fuel chunks,
     SecureCryptoUtils.splitLoop fuel buffer 0 0 chunks = None) ∧
  SecureCryptoUtils.splitIntoChunks buffer 0 = None.
Proof.
  intros Hne.
  assert (0 < length buffer) as Hlen by (destruct buffer; [done|cbn; lia]).
  assert (∀ fuel chunks,
            SecureCryptoUtils.splitLoop fuel buffer 0 0 chunks = None)
    as Hloop.
  { induction fuel as [|fuel IH]; intros chunks;
      cbn [SecureCryptoUtils.splitLoop];
      destruct (Nat.ltb_spec 0 (length buffer)); try lia; [done|].
    apply IH. }
  split; [done|]. apply Hloop.
Qed.

Section ChunkCipher.
Context `{WebCrypto}.

(** X15. What [encryptChunk] returns under a loaded key starts with the
    IV it drew, is never too short for [decryptChunk], and decrypts to
    the data under the same key. *)
Theorem encryptChunk_decryptChunk
    (decrypt_encrypt : ∀ key iv plaintext,
       aesGcmDecrypt key iv (aesGcmEncrypt key iv plaintext)
       = Some plaintext)
    (key : bytes) (entropy : nat → byte) (pos : nat) (data : bytes) :
  ∃ encrypted,
    SecureCryptoUtils.encryptChunk (Some key) entropy pos data
    = Ok encrypted ∧
    take 12 encrypted = getRandomValues entropy pos 12 ∧
    12 ≤ length encrypted ∧
    (SecureCryptoUtils.decryptChunk (Some key) encrypted).2 = Ok data.
Proof.
  eexists. split; [reflexivity|].
  pose proof (getRandomValues_length entropy pos 12) as Hiv.
  split; [by rewrite take_app_length'|].
  split; [rewrite length_app; lia|].
  by rewrite (decryptChunk_authentic decrypt_encrypt).
Qed.

End ChunkCipher.

Section Batches.
Import FileEncryptionService.

Lemma concat_take_drop {A} (l : list A) (size n : nat) :
  concat (map (λ k, take size (drop (k * size) l)) (seq 0 n))
  = take (n * size) l.
Proof.
  induction n as [|n IH]; [by rewrite take_0|].
  rewrite seq_S, map_app, concat_app, IH. cbn [map concat Nat.add].
  rewrite app_nil_r, take_take_drop. f_equal. lia.
Qed.

Variables (chunks : list File) (batchSize : nat).
Hypothesis batchSize_positive : 0 < batchSize.

Let calls (k : nat) : list DownloadManager.Scheduled :=
  imap (λ index chunk,
          {| DownloadManager.scheduledFile := chunk;
             DownloadManager.scheduledDelay := index * 200 |})
    (take batchSize (drop (k * batchSize) chunks)).

Let n : nat := ceilDiv (length chunks) batchSize.

Lemma batchLoop_batches (fuel k : nat)
    (batches : list (list DownloadManager.Scheduled)) :
  k ≤ n → n - k ≤ fuel →
  DownloadManager.batchLoop fuel chunks batchSize (k * batchSize) batches
  = Some (batches ++ map calls (seq k (n - k))).
Proof.
  destruct (ceilDiv_least (length chunks) batchSize batchSize_positive)
    as [Hcover Hleast]. fold n in Hcover, Hleast.
  revert k batches. induction fuel as [|fuel IH]; intros k batches Hk Hfuel.
  - assert (k = n) as -> by lia. rewrite Nat.sub_diag.
    cbn [DownloadManager.batchLoop seq map]. rewrite app_nil_r.
    destruct (Nat.ltb_spec (n * batchSize) (length chunks)); [lia|done].
  - cbn [DownloadManager.batchLoop].
    destruct (Nat.ltb_spec (k * batchSize) (length chunks)) as [Hlt|Hge].
    + assert (k < n) as Hkn.
      { destruct (Nat.lt_ge_cases k n) as [|Hnk]; [done|].
        pose proof (Nat.mul_le_mono_r n k batchSize Hnk). lia. }
      replace (k * batchSize + batchSize - k * batchSize) with batchSize
        by lia.
      replace (k * batchSize + batchSize) with (S k * batchSize) by lia.
      rewrite IH by lia.
      replace (n - k) with (S (n - S k)) by lia.
      cbn [seq map]. by rewrite <- app_assoc.
    + assert (n ≤ k) as Hnk by by apply Hleast.
      replace (n - k) with 0 by lia. cbn [seq map]. by rewrite app_nil_r.
Qed.

Lemma downloadInBatches_batches :
  DownloadManager.downloadInBatches chunks batchSize
  = Some (map calls (seq 0 n)).
Proof.
  unfold DownloadManager.downloadInBatches. cbn zeta.
  change 0 with (0 * batchSize) at 1.
  rewrite batchLoop_batches; [by rewrite Nat.sub_0_r|lia|].
  destruct (ceilDiv_least (length chunks) batchSize batchSize_positive)
    as [_ Hleast]. fold n in Hleast.
  assert (n ≤ length chunks) by (apply Hleast; nia). lia.
Qed.

Lemma calls_files (k : nat) :
  map DownloadManager.scheduledFile (calls k)
  = take batchSize (drop (k * batchSize) chunks).
Proof.
  unfold calls. generalize (take batchSize (drop (k * batchSize) chunks)).
  intros l. apply list_eq. intros i.
  rewrite list_lookup_fmap, list_lookup_imap. by destruct (l !! i).
Qed.

Lemma calls_delays (k : nat) :
  map DownloadManager.scheduledDelay (calls k)
  = map (λ index, index * 200) (seq 0 (length (calls k))).
Proof.
  unfold calls. generalize (take batchSize (drop (k * batchSize) chunks)).
  intros l. rewrite length_imap.
  apply list_eq. intros i.
  rewrite !list_lookup_fmap, list_lookup_imap.
  destruct (l !! i) as [x|] eqn:Hx.
  - rewrite lookup_seq_lt by (by eapply lookup_lt_Some). done.
  - rewrite lookup_seq_ge by (by apply lookup_ge_None). done.
Qed.

Lemma calls_length (k : nat) :
  k < n → 0 < length (calls k) ≤ batchSize.
Proof.
  destruct (ceilDiv_least (length chunks) batchSize batchSize_positive)
    as [Hcover Hleast]. fold n in Hcover, Hleast.
  intros Hk. unfold calls. rewrite length_imap, length_take, length_drop.
  assert (k * batchSize < length chunks) as Hlt.
  { destruct (Nat.lt_ge_cases (k * batchSize) (length chunks)) as [|Hge];
      [done|]. apply Hleast in Hge. lia. }
  lia.
Qed.

End Batches.

(** X29. For a positive [maxConcurrent], [downloadInBatches] returns
    after [Math.ceil(length / maxConcurrent)] batches; the batches save
    every file exactly once and in the order given; no batch is empty
    or larger than [maxConcurrent]; and within a batch the files are
    saved 0, 200, 400, ... milliseconds after the batch starts. *)
Theorem downloadInBatches_each_once (chunks : list File)
    (maxConcurrent : nat) :
  0 < maxConcurrent →
  ∃ batches,
    DownloadManager.downloadInBatches chunks maxConcurrent = Some batches ∧
    map DownloadManager.scheduledFile (concat batches) = chunks ∧
    length batches
    = FileEncryptionService.ceilDiv (length chunks) maxConcurrent ∧
    Forall (λ batch,
              0 < length batch ≤ maxConcurrent ∧
              map DownloadManager.scheduledDelay batch
              = map (λ index, index * 200) (seq 0 (length batch)))
      batches.
Proof.
  intros Hpos. eexists. split; [by apply downloadInBatches_batches|].
  set (n := FileEncryptionService.ceilDiv (length chunks) maxConcurrent).
  split; [|split].
  - rewrite concat_map, map_map.
    erewrite map_ext by (intros k; apply calls_files).
    rewrite concat_take_drop. apply take_ge.
    by destruct (ceilDiv_least (length chunks)
                   maxConcurrent Hpos).
  - by rewrite length_map, length_seq.
  - apply Forall_forall. intros batch (k & -> & Hk)%list_elem_of_fmap.
    apply elem_of_seq in Hk. split.
    + apply calls_length; [done|]. fold n. lia.
    + apply calls_delays.
Qed.

(** ** File names *)

Section Names.
Import FileEncryptionService.

Lemma string_app_inv_head (a b c : string) : a +:+ b = a +:+ c → b = c.
Proof.
  induction a as [|x a IH]; [done|].
  rewrite !app_cons. intros [= Heq]. by apply IH.
Qed.

Lemma chunkFilename_inj (fileName : string) (i j : nat) :
  chunkFilename fileName i = chunkFilename fileName j → i = j.
Proof.
  unfold chunkFilename. intros Heq.
  do 2 apply string_app_inv_head in Heq.
  apply (f_equal JS.takeDigits) in Heq.
  rewrite !takeDigits_app in Heq by (done || apply padStart_digits).
  apply (f_equal JS.parseInt) in Heq.
  by rewrite !parseInt_padStart in Heq.
Qed.

Lemma contains_app (c : ascii) (a b : string) :
  JS.contains c (a +:+ b) = JS.contains c a || JS.contains c b.
Proof.
  induction a as [|x a IH]; [done|].
  rewrite app_cons. cbn [JS.contains]. by rewrite IH, orb_assoc.
Qed.

Lemma contains_cons_false (c x : ascii) (s : string) :
  JS.contains c (String x s) = false →
  Ascii.eqb c x = false ∧ JS.contains c s = false.
Proof. cbn [JS.contains]. by intros ?%orb_false_elim. Qed.

Lemma afterLastDot_dotless (s : string) :
  JS.contains "." s = false → JS.afterLastDot s = s.
Proof.
  destruct s as [|c s]; [done|].
  intros [Hc Hs]%contains_cons_false. cbn [JS.afterLastDot].
  by rewrite Hs, Ascii.eqb_sym, Hc.
Qed.

Lemma afterLastDot_ext (base ext : string) :
  JS.contains "." ext = false →
  JS.afterLastDot (base +:+ String "." ext) = ext.
Proof.
  intros Hext. induction base as [|c base IH].
  - rewrite app_nil_l. cbn [JS.afterLastDot]. by rewrite Hext.
  - rewrite app_cons. cbn [JS.afterLastDot].
    by rewrite contains_app, orb_true_r.
Qed.

Lemma removeFirst_unfold (pat s : string) :
  JS.removeFirst pat s =
  match JS.stripPrefix pat s with
  | Some rest => rest
  | None =>
      match s with
      | String c s' => String c (JS.removeFirst pat s')
      | EmptyString => ""
      end
  end.
Proof. by destruct s. Qed.

Lemma stripPrefix_self (p : string) : JS.stripPrefix p p = Some "".
Proof.
  induction p as [|c p IH]; [done|]. cbn. by rewrite Ascii.eqb_refl.
Qed.

Lemma removeFirst_absent (c : ascii) (pat s : string) :
  JS.contains c s = false → JS.removeFirst (String c pat) s = s.
Proof.
  induction s as [|x s IH]; [done|].
  intros [Hx Hs]%contains_cons_false.
  rewrite removeFirst_unfold. cbn [JS.stripPrefix]. rewrite Hx.
  by rewrite IH.
Qed.

Lemma removeFirst_suffix (c : ascii) (pat base : string) :
  JS.contains c base = false →
  JS.removeFirst (String c pat) (base +:+ String c pat) = base.
Proof.
  induction base as [|x base IH].
  - intros _. rewrite app_nil_l, removeFirst_unfold.
    by rewrite stripPrefix_self.
  - intros [Hx Hs]%contains_cons_false.
    rewrite app_cons, removeFirst_unfold. cbn [JS.stripPrefix]. rewrite Hx.
    by rewrite IH.
Qed.

(** X16. How a file name is taken apart. For a name [base.ext] whose
    base has no dot, the extension is [ext] and the file name is
    [base]. A name without any dot is its own extension, and the file
    name is the whole name as well; a name that ends in its only dot
    has the extension ['bin'] and keeps the dot in its file name. *)
Theorem file_name_parts (base ext : string) :
  JS.contains "." base = false →
  JS.contains "." ext = false →
  (ext ≠ "" →
   extensionOf (base +:+ "." +:+ ext) = ext ∧
   baseNameOf (base +:+ "." +:+ ext) = base) ∧
  (base ≠ "" → extensionOf base = base ∧ baseNameOf base = base) ∧
  (extensionOf (base +:+ ".") = "bin" ∧
   baseNameOf (base +:+ ".") = base +:+ ".").
Proof.
  intros Hbase Hext. split; [|split].
  - intros Hne. change ("." +:+ ext) with (String "." ext).
    assert (extensionOf (base +:+ String "." ext) = ext) as Hx.
    { unfold extensionOf. rewrite afterLastDot_ext by done.
      by destruct ext. }
    split; [done|]. unfold baseNameOf. rewrite Hx.
    by apply removeFirst_suffix.
  - intros Hne.
    assert (extensionOf base = base) as Hx.
    { unfold extensionOf. rewrite afterLastDot_dotless by done.
      by destruct base. }
    split; [done|]. unfold baseNameOf. rewrite Hx.
    by apply removeFirst_absent.
  - assert (extensionOf (base +:+ ".") = "bin") as Hx.
    { unfold extensionOf. by rewrite (afterLastDot_ext base ""). }
    split; [done|]. unfold baseNameOf. rewrite Hx.
    clear Hx. induction base as [|x base IH]; [done|].
    apply contains_cons_false in Hbase as [Hx Hs].
    rewrite app_cons, removeFirst_unfold. cbn [JS.stripPrefix]. rewrite Hx.
    by rewrite IH.
Qed.

End Names.

Section Yields.
Context `{WebCrypto}.
Import FileEncryptionService.

(** X17. What the generator yields under a loaded key, for a positive
    chunk size: as many chunks as the metadata counts, with the indices
    [0, 1, ...] in order, each under the name made of the file name and
    its index; no two chunks share a name, and none has the name of the
    metadata file. *)
Theorem generator_chunk_names (key : bytes) (entropy : nat → byte) (now : Z)
    (file : File) (chunkSize : nat) (chunks : list Chunk)
    (metadata : FileMetadata) :
  0 < chunkSize →
  encryptFileGenerator (Some key) entropy now file chunkSize
  = (chunks, Ok metadata) →
  length chunks = totalChunks metadata ∧
  map index chunks = seq 0 (totalChunks metadata) ∧
  (∀ chunk, chunk ∈ chunks →
     filename chunk
     = chunkFilename (originalFileName metadata) (index chunk)) ∧
  NoDup (map filename chunks) ∧
  originalFileName metadata +:+ "_metadata.json" ∉ map filename chunks.
Proof.
  intros _. rewrite encryptFileGenerator_loaded. cbn zeta. intros [= <- <-].
  cbn [totalChunks originalFileName].
  set (n := ceilDiv (length (content file)) chunkSize).
  set (fileName := baseNameOf (name file)).
  split; [by rewrite length_map, length_seq|].
  split; [rewrite <- list_fmap_compose; apply list_fmap_id|].
  split.
  { intros chunk (i & -> & _)%list_elem_of_fmap. reflexivity. }
  rewrite <- list_fmap_compose.
  split.
  - apply NoDup_fmap_2_strong; [|apply NoDup_seq].
    intros i j _ _. apply chunkFilename_inj.
  - intros (i & Heq & _)%list_elem_of_fmap. cbn in Heq.
    pose proof (chunkFilename_enc fileName i) as Henc.
    rewrite <- Heq in Henc. by rewrite metadataName_not_enc in Henc.
Qed.

End Yields.

(** ** Reconstruction from the written files *)

Section Selection.

Lemma find_unique_Permutation {A} (P : A → bool) (l l' : list A) (m : A) :
  l' ≡ₚ l → m ∈ l → P m = true →
  (∀ x, x ∈ l → P x = true → x = m) →
  find P l' = Some m.
Proof.
  intros Hperm Hin Hm Huniq.
  destruct (find P l') as [x|] eqn:Hfind.
  - apply find_some in Hfind as [Hx HPx].
    apply list_elem_of_In in Hx. rewrite Hperm in Hx.
    by rewrite (Huniq x Hx HPx).
  - rewrite <- Hperm in Hin. apply list_elem_of_In in Hin.
    by rewrite (find_none _ _ Hfind m Hin) in Hm.
Qed.

(** Sorting by a key that numbers the elements [0, 1, ...] puts any
    arrangement of them in that order. *)
Lemma sortBy_by_index {A} (key : A → nat) (f : nat → A) (n : nat)
    (l : list A) :
  (∀ i, key (f i) = i) →
  l ≡ₚ map f (seq 0 n) →
  JS.sortBy key l = map f (seq 0 n).
Proof.
  intros Hkey Hperm.
  apply (StronglySorted_unique_strong (λ x y, key x ≤ key y)).
  - intros x1 x2 Hx1 Hx2 H12 H21.
    rewrite sortBy_Permutation, Hperm in Hx1.
    apply list_elem_of_fmap in Hx1 as (i & -> & _).
    apply list_elem_of_fmap in Hx2 as (j & -> & _).
    rewrite !Hkey in H12, H21. f_equal. lia.
  - apply sortBy_sorted.
  - apply (sorted_map_seq key). intros i j Hij. by rewrite !Hkey.
  - by rewrite sortBy_Permutation.
Qed.

(** Sorting by a key that is the same for all elements keeps them as
    they are. *)
Lemma sortBy_constant {A} (key : A → nat) (c : nat) (l : list A) :
  (∀ x, x ∈ l → key x = c) → JS.sortBy key l = l.
Proof.
  intros Hconst. apply sortBy_id.
  induction l as [|x l IH]; constructor.
  - apply IH. intros y Hy. apply Hconst. by right.
  - apply Forall_forall. intros y Hy.
    rewrite (Hconst x), (Hconst y); [done|by right|by left].
Qed.

End Selection.

Section Written.
Context `{WebCrypto}.
Import FileEncryptionService FileReconstructionService.

Variables (key : bytes) (entropy : nat → byte) (file : File)
  (chunkSize : nat) (fileName : string).

Let produced (i : nat) : File :=
  FileUploader.chunkFile (yielded key entropy file chunkSize fileName i).

(** A reconstruction whose selected chunk files are the produced files
    of [indices], in that order. *)
Lemma reconstruct_produced
    (decrypt_encrypt : ∀ key iv plaintext,
       aesGcmDecrypt key iv (aesGcmEncrypt key iv plaintext)
       = Some plaintext)
    (maxByteLength : option nat) (userConfirms : bool)
    (files : list File) (metadataFile : File) (metadata : FileMetadata)
    (indices : list nat) :
  find (λ f, JS.endsWith (name f) "_metadata.json") files
  = Some metadataFile →
  parsed metadataFile = Some metadata →
  selectChunkFiles files = map produced indices →
  length indices = totalChunks metadata →
  let decrypted := map (chunkData file chunkSize) indices in
  let hashes :=
    if isComposite metadata
    then map (λ i, SecureCryptoUtils.calculateHash
                     (chunkData file chunkSize i)) indices
    else [] in
  let verdict := verifyIntegrity maxByteLength metadata decrypted hashes in
  let saved :=
    Download (concat decrypted)
      (originalFileName metadata +:+ "_reconstructed." +:+
       originalExtension metadata) in
  let result :=
    {| success := true;
       reconstructed := decrypted;
       FileReconstructionService.metadata := metadata;
       hashMatch := verdict;
       chunkFiles := map produced indices |} in
  ∃ effects,
    Forall (λ e, ∃ iv c, e = SubtleDecrypt iv c) effects ∧
    reconstructFromChunks (Some key) maxByteLength userConfirms files =
    if verdict then (effects ++ [saved], Ok result)
    else if userConfirms then (effects ++ [Confirm; saved], Ok result)
    else (effects ++ [Confirm], Err UserCancelled).
Proof.
  intros Hfind Hparsed Hselect Hcount. cbn zeta.
  destruct (decryptLoop_produced decrypt_encrypt key entropy file chunkSize
              fileName (isComposite metadata) 0 indices)
    as (effects & Hloop & Hall).
  exists effects. split; [done|].
  unfold reconstructFromChunks. rewrite Hfind, Hparsed, Hselect.
  rewrite length_map, Hcount, Nat.eqb_refl. cbn [negb].
  fold produced in Hloop. rewrite Hloop.
  unfold mbind at 1. unfold action_bind at 1. unfold bind at 1.
  cbn beta iota.
  destruct (verifyIntegrity _ _ _ _); [|destruct userConfirms];
    unfold mbind, action_bind, bind, mret, action_ret, ret, download, emit,
      throw;
    cbn [negb app]; rewrite ?app_nil_r; try reflexivity.
Qed.


Lemma find_metadata_Permutation (n : nat) (m : File) (files : list File) :
  files ≡ₚ map produced (seq 0 n) ++ [m] →
  JS.endsWith (name m) "_metadata.json" = true →
  find (λ f, JS.endsWith (name f) "_metadata.json") files = Some m.
Proof.
  intros Hperm Hm.
  apply (find_unique_Permutation _ (map produced (seq 0 n) ++ [m]));
    [done|set_solver|done|].
  intros x [Hx|Hx]%elem_of_app Hends; [|by apply list_elem_of_singleton in Hx].
  apply list_elem_of_fmap in Hx as (i & -> & _).
  cbn in Hends. by rewrite chunkFilename_not_metadata in Hends.
Qed.

Lemma selectChunkFiles_Permutation_produced (n : nat) (m : File)
    (files : list File) :
  JS.matchChunk fileName = None →
  files ≡ₚ map produced (seq 0 n) ++ [m] →
  JS.endsWith (name m) ".enc" = false →
  selectChunkFiles files = map produced (seq 0 n).
Proof.
  intros Hbase Hperm Hm. unfold selectChunkFiles.
  apply (sortBy_by_index (λ f, chunkNumber (name f)) produced).
  - intros i. unfold produced.
    cbn [name FileUploader.chunkFile yielded filename].
    by rewrite chunkNumber_chunkFilename, Hbase.
  - rewrite Hperm. unfold produced. by rewrite filter_enc_produced.
Qed.

Lemma selectChunkFiles_constant (ds : string) (indices : list nat)
    (m : File) :
  JS.matchChunk fileName = Some ds →
  JS.endsWith (name m) ".enc" = false →
  selectChunkFiles (map produced indices ++ [m]) = map produced indices.
Proof.
  intros Hbase Hm. unfold selectChunkFiles.
  unfold produced at 1. rewrite filter_enc_produced by done.
  apply (sortBy_constant _ (JS.parseInt ds)).
  intros x (i & -> & _)%list_elem_of_fmap. unfold produced.
  cbn [name FileUploader.chunkFile yielded filename].
  by rewrite chunkNumber_chunkFilename, Hbase.
Qed.

Lemma encryptChunks_loaded (i m : nat) :
  encryptChunks (Some key) entropy fileName i
    (map (chunkData file chunkSize) (seq i m))
  = map produced (seq i m).
Proof.
  revert i. induction m as [|m IH]; intros i; [done|].
  cbn [seq map encryptChunks SecureCryptoUtils.encryptChunk].
  by rewrite IH.
Qed.

Lemma encryptChunks_unloaded (i : nat) (chunks : list bytes) :
  encryptChunks None entropy fileName i chunks = [].
Proof.
  revert i. induction chunks as [|chunk chunks IH]; intros i; [done|].
  cbn [encryptChunks SecureCryptoUtils.encryptChunk]. apply IH.
Qed.

End Written.

Section WrittenFiles.
Context `{WebCrypto}.
Import FileEncryptionService FileReconstructionService.

(** X18. The order in which the written files are selected does not
    matter, as long as the file name itself holds no [chunk_<digits>]:
    from any arrangement of the chunk files and the metadata file of a
    run of the generator, the reconstruction puts the original bytes
    together, finds the hash matching, asks nothing and downloads the
    file. *)
Theorem reconstruct_from_any_selection_order
    (decrypt_encrypt : ∀ key iv plaintext,
       aesGcmDecrypt key iv (aesGcmEncrypt key iv plaintext)
       = Some plaintext)
    (key : bytes) (entropy : nat → byte) (now : Z) (file : File)
    (chunkSize : nat) (maxByteLength : option nat) (userConfirms : bool)
    (text : bytes) (chunks : list Chunk) (metadata : FileMetadata)
    (files : list File) :
  0 < chunkSize →
  JS.matchChunk (baseNameOf (name file)) = None →
  encryptFileGenerator (Some key) entropy now file chunkSize
  = (chunks, Ok metadata) →
  files ≡ₚ map FileUploader.chunkFile chunks
           ++ [FileUploader.metadataFile metadata text] →
  ∃ effects result,
    reconstructFromChunks (Some key) maxByteLength userConfirms files
    = (effects, Ok result) ∧
    concat (reconstructed result) = content file ∧
    hashMatch result = true ∧
    (Confirm ∉ effects) ∧
    last effects
    = Some (Download (content file)
              (originalFileName metadata +:+ "_reconstructed." +:+
               originalExtension metadata)).
Proof.
  intros Hpos Hbase. rewrite encryptFileGenerator_loaded. cbn zeta.
  set (n := ceilDiv (length (content file)) chunkSize).
  set (fileName := baseNameOf (name file)) in *.
  intros [= <- <-]. rewrite map_map. intros Hperm.
  match type of Hperm with
  | _ ≡ₚ (_ ++ [FileUploader.metadataFile ?m _]) =>
      set (metadata := m) in *
  end.
  destruct (reconstruct_produced key entropy file chunkSize fileName
              decrypt_encrypt maxByteLength userConfirms files
              (FileUploader.metadataFile metadata text) metadata (seq 0 n))
    as (effects & Hall & Hrun).
  - eapply find_metadata_Permutation; [exact Hperm|apply endsWith_app].
  - done.
  - eapply selectChunkFiles_Permutation_produced;
      [done|exact Hperm|apply metadataName_not_enc].
  - by rewrite length_seq.
  - cbn zeta in Hrun.
    assert (verifyIntegrity maxByteLength metadata
              (map (chunkData file chunkSize) (seq 0 n))
              (if isComposite metadata
               then map (λ i, SecureCryptoUtils.calculateHash
                                (chunkData file chunkSize i)) (seq 0 n)
               else []) = true) as Hverdict.
    { unfold verifyIntegrity. change (isComposite metadata) with true.
      cbn iota. apply String.eqb_refl. }
    rewrite Hverdict in Hrun. eexists _, _. split; [exact Hrun|].
    cbn [reconstructed hashMatch].
    rewrite concat_all_chunkData by done.
    split; [done|]. split; [done|]. split.
    + intros [Hin|Hin]%elem_of_app.
      * rewrite Forall_forall in Hall.
        by destruct (Hall _ Hin) as (? & ? & ?).
      * by apply list_elem_of_singleton in Hin.
    + by rewrite last_snoc.
Qed.

(** X19. For a file whose name itself holds a [chunk_<digits>],
    encrypted with a positive chunk size, the sort of the chunk files
    does nothing: every chunk name gives the
    number found in the file name, so the chunks are decrypted and put
    together in the order in which they were selected, whatever their
    indices. *)
Theorem reconstruct_in_selection_order
    (decrypt_encrypt : ∀ key iv plaintext,
       aesGcmDecrypt key iv (aesGcmEncrypt key iv plaintext)
       = Some plaintext)
    (key : bytes) (entropy : nat → byte) (now : Z) (file : File)
    (chunkSize : nat) (maxByteLength : option nat) (text : bytes)
    (chunks : list Chunk) (metadata : FileMetadata) (digits : string)
    (indices : list nat) :
  0 < chunkSize →
  JS.matchChunk (baseNameOf (name file)) = Some digits →
  encryptFileGenerator (Some key) entropy now file chunkSize
  = (chunks, Ok metadata) →
  length indices = totalChunks metadata →
  let selected :=
    map (λ i, FileUploader.chunkFile
                (yielded key entropy file chunkSize
                   (baseNameOf (name file)) i)) indices in
  let files := selected ++ [FileUploader.metadataFile metadata text] in
  selectChunkFiles files = selected ∧
  ∃ effects result,
    reconstructFromChunks (Some key) maxByteLength true files
    = (effects, Ok result) ∧
    reconstructed result = map (chunkData file chunkSize) indices.
Proof.
  intros _ Hbase. rewrite encryptFileGenerator_loaded. cbn zeta.
  set (fileName := baseNameOf (name file)) in *.
  intros [= <- <-] Hcount.
  match goal with
  | |- context [FileUploader.metadataFile ?m _] => set (metadata := m) in *
  end.
  assert (selectChunkFiles
            (map (λ i, FileUploader.chunkFile
                         (yielded key entropy file chunkSize fileName i))
               indices ++ [FileUploader.metadataFile metadata text])
          = map (λ i, FileUploader.chunkFile
                        (yielded key entropy file chunkSize fileName i))
              indices) as Hselect.
  { by eapply selectChunkFiles_constant, metadataName_not_enc. }
  split; [done|].
  pose proof (find_metadata_produced key entropy file chunkSize fileName
                indices (FileUploader.metadataFile metadata text)
                (endsWith_app fileName "_metadata.json")) as Hfind.
  destruct (reconstruct_produced key entropy file chunkSize fileName
              decrypt_encrypt maxByteLength true _
              (FileUploader.metadataFile metadata text) metadata indices
              Hfind eq_refl Hselect Hcount)
    as (effects & _ & Hrun).
  cbn zeta in Hrun.
  destruct (verifyIntegrity _ _ _ _); eexists _, _; (split; [exact Hrun|]);
    reflexivity.
Qed.

End WrittenFiles.

(** ** The earlier [encryptFile] *)

Section EarlierEncryption.
Context `{WebCrypto}.
Import FileEncryptionService FileReconstructionService.

Lemma splitIntoChunks_chunkData (file : File) (chunkSize : nat) :
  0 < chunkSize →
  SecureCryptoUtils.splitIntoChunks (content file) chunkSize
  = Some (map (chunkData file chunkSize)
            (seq 0 (ceilDiv (length (content file)) chunkSize))).
Proof. intros Hpos. exact (splitIntoChunks_pieces _ _ Hpos). Qed.

(** X20. The earlier [encryptFile] and [reconstructFromChunks] are
    inverse to each other under a loaded key: the files it returns, the
    metadata file last, carry metadata without a hash type and with the
    count of the chunks, and from them the reconstruction puts the
    original bytes together and reports the hash as matching, without
    asking, whether or not the combined buffer can be allocated. *)
Theorem encryptFile_round_trip
    (decrypt_encrypt : ∀ key iv plaintext,
       aesGcmDecrypt key iv (aesGcmEncrypt key iv plaintext)
       = Some plaintext)
    (key : bytes) (entropy : nat → byte) (now : Z) (file : File)
    (chunkSize : nat) (text : bytes) (maxByteLength : option nat)
    (userConfirms : bool) :
  0 < chunkSize →
  ∃ encryptedChunks metadata effects result,
    encryptFile (Some key) entropy now file chunkSize text
    = Some (encryptedChunks, metadata) ∧
    hashType metadata = None ∧
    totalChunks metadata = ceilDiv (length (content file)) chunkSize ∧
    length encryptedChunks = S (totalChunks metadata) ∧
    reconstructFromChunks (Some key) maxByteLength userConfirms
      encryptedChunks = (effects, Ok result) ∧
    concat (reconstructed result) = content file ∧
    hashMatch result = true ∧
    (Confirm ∉ effects).
Proof.
  intros Hpos. unfold encryptFile.
  rewrite splitIntoChunks_chunkData by done.
  set (n := ceilDiv (length (content file)) chunkSize).
  set (fileName := baseNameOf (name file)).
  rewrite encryptChunks_loaded, length_map, length_seq.
  match goal with
  | |- context [Build_File _ _ (Some ?m)] => set (metadata := m)
  end.
  set (metadataFile := {| name := fileName +:+ "_metadata.json";
                          content := text;
                          parsed := Some metadata |}).
  destruct (reconstruct_produced key entropy file chunkSize fileName
              decrypt_encrypt maxByteLength userConfirms
              (map (λ i, FileUploader.chunkFile
                           (yielded key entropy file chunkSize fileName i))
                 (seq 0 n) ++ [metadataFile])
              metadataFile metadata (seq 0 n))
    as (effects & Hall & Hrun).
  - apply find_metadata_produced, endsWith_app.
  - done.
  - apply selectChunkFiles_produced, metadataName_not_enc.
  - by rewrite length_seq.
  - cbn zeta in Hrun.
    assert (verifyIntegrity maxByteLength metadata
              (map (chunkData file chunkSize) (seq 0 n))
              (if isComposite metadata
               then map (λ i, SecureCryptoUtils.calculateHash
                                (chunkData file chunkSize i)) (seq 0 n)
               else []) = true) as Hverdict.
    { unfold verifyIntegrity. change (isComposite metadata) with false.
      cbn iota. unfold SecureCryptoUtils.combineChunks.
      destruct maxByteLength as [limit|]; [destruct (limit <? _); [done|]|];
        fold n; rewrite concat_all_chunkData by done;
        apply String.eqb_refl. }
    rewrite Hverdict in Hrun. eexists _, metadata, _, _.
    split; [reflexivity|]. split; [done|]. split; [done|].
    split; [rewrite length_app, length_map, length_seq; cbn; lia|].
    split; [exact Hrun|]. cbn [reconstructed hashMatch].
    rewrite concat_all_chunkData by done.
    split; [done|]. split; [done|].
    intros [Hin|Hin]%elem_of_app.
    + rewrite Forall_forall in Hall. by destruct (Hall _ Hin) as (? & ? & ?).
    + by apply list_elem_of_singleton in Hin.
Qed.

(** X21. Without a loaded key the two encryption entry points differ.
    The generator throws 'Crypto system not initialized' at the first
    chunk, having yielded nothing. The earlier [encryptFile] logs the
    error of every chunk and returns normally: its result holds the
    metadata file alone, with metadata that counts all the chunks, so
    that a reconstruction from it is refused for the missing chunk
    files. *)
Theorem encryptFile_swallows_errors (entropy : nat → byte) (now : Z)
    (file : File) (chunkSize : nat) (text : bytes) :
  0 < chunkSize →
  content file ≠ [] →
  encryptFileGenerator None entropy now file chunkSize
  = ([], Err NotInitialized) ∧
  ∃ metadataFile metadata,
    encryptFile None entropy now file chunkSize text
    = Some ([metadataFile], metadata) ∧
    parsed metadataFile = Some metadata ∧
    0 < totalChunks metadata ∧
    ∀ cryptoKey maxByteLength userConfirms,
      reconstructFromChunks cryptoKey maxByteLength userConfirms
        [metadataFile]
      = ([], Err (ChunkCountMismatch (totalChunks metadata) 0)).
Proof.
  intros Hpos Hne.
  set (n := ceilDiv (length (content file)) chunkSize).
  assert (0 < n) as Hn.
  { destruct (ceilDiv_least (length (content file)) chunkSize Hpos)
      as [Hcover _]. fold n in Hcover.
    destruct n; [|lia]. destruct (content file); [done|cbn in Hcover; lia]. }
  split.
  - unfold encryptFileGenerator. fold n.
    rewrite encryptLoop_unloaded. destruct n; [lia|done].
  - unfold encryptFile. rewrite splitIntoChunks_chunkData by done. fold n.
    rewrite encryptChunks_unloaded, length_map, length_seq.
    eexists _, _. split; [reflexivity|]. split; [done|]. split; [done|].
    intros cryptoKey maxByteLength userConfirms.
    unfold reconstructFromChunks. cbn [find name].
    rewrite endsWith_app. cbn [parsed totalChunks].
    unfold selectChunkFiles. rewrite filter_cons_False; last first.
    { cbn [name]. by rewrite metadataName_not_enc. }
    rewrite filter_nil. cbn [JS.sortBy foldr length].
    destruct n; [lia|done].
Qed.

End EarlierEncryption.

(** ** Archives *)

Section Archives.
Context `{WebCrypto}.
Import FileEncryptionService FileReconstructionService.

Lemma toUint8_byte (b : byte) : toUint8 (Z.of_nat (Byte.to_nat b)) = b.
Proof. by destruct b. Qed.

Lemma toUint8_bytes (data : bytes) :
  map toUint8 (map (λ b, Z.of_nat (Byte.to_nat b)) data) = data.
Proof.
  induction data as [|b data IH]; [done|].
  cbn [map]. by rewrite toUint8_byte, IH.
Qed.

Lemma endsWith_distinct_last (s suf suf' : string) :
  suf ≠ "" → suf' ≠ "" → JS.lastChar suf ≠ JS.lastChar suf' →
  JS.endsWith s suf = true → JS.endsWith s suf' = false.
Proof.
  intros Hsuf Hsuf' Hlast Hends. apply not_true_is_false. intros Hends'.
  apply endsWith_lastChar in Hends, Hends'; [|done..]. congruence.
Qed.

(** [decryptArchived] performs decryptions and nothing else. *)
Lemma decryptArchived_effects (cryptoKey : option bytes)
    (chunks : list ArchivedChunk) :
  Forall (λ e, isDecryption e = true) (decryptArchived cryptoKey chunks).1.
Proof.
  induction chunks as [|chunk chunks IH]; [constructor|].
  cbn [decryptArchived].
  destruct (decryptChunk_outcome cryptoKey (map toUint8 (archivedData chunk)))
    as (out & r & -> & Hout & _).
  destruct (decryptArchived cryptoKey chunks) as [out' r'].
  assert (Forall (λ e, isDecryption e = true) out) as Hdec.
  { destruct Hout as [->| ->]; repeat constructor. }
  unfold mbind, action_bind, bind, mret, action_ret, ret.
  destruct r as [decrypted|e]; [|done].
  destruct r' as [decryptedChunks|e]; cbn [fst] in *;
    rewrite ?app_nil_r; by apply Forall_app.
Qed.

Section Produced.
Hypothesis decrypt_encrypt : ∀ key iv plaintext,
  aesGcmDecrypt key iv (aesGcmEncrypt key iv plaintext) = Some plaintext.

Variables (key : bytes) (entropy : nat → byte) (file : File)
  (chunkSize : nat) (fileName : string).

Let produced (i : nat) : File :=
  FileUploader.chunkFile (yielded key entropy file chunkSize fileName i).

Let archived (chunk : File) : ArchivedChunk :=
  {| archivedFilename := name chunk;
     archivedData := map (λ b, Z.of_nat (Byte.to_nat b)) (content chunk) |}.

Lemma decryptArchived_produced (indices : list nat) :
  (decryptArchived (Some key) (map archived (map produced indices))).2
  = Ok (map (chunkData file chunkSize) indices).
Proof.
  induction indices as [|i indices IH]; [done|].
  cbn [map decryptArchived archived archivedData]. rewrite toUint8_bytes.
  change (content (produced i))
    with (getRandomValues entropy (12 * i) 12 ++
          aesGcmEncrypt key (getRandomValues entropy (12 * i) 12)
            (chunkData file chunkSize i)).
  rewrite (decryptChunk_authentic decrypt_encrypt)
    by apply getRandomValues_length.
  destruct (decryptArchived _ _) as [out r]. cbn [snd] in IH. subst r.
  reflexivity.
Qed.

Lemma decryptEntries_produced (composite : bool) (indices : list nat) :
  ∃ effects,
    decryptEntries (Some key) composite (map produced indices) =
    (effects,
     Ok (map (chunkData file chunkSize) indices,
         if composite
         then map (λ i, SecureCryptoUtils.calculateHash
                          (chunkData file chunkSize i)) indices
         else [])) ∧
    Forall (λ e, isDecryption e = true) effects.
Proof.
  induction indices as [|i indices IH].
  - exists []. split; [by destruct composite|constructor].
  - destruct IH as (effects & Hloop & Hall).
    cbn [map decryptEntries]. rewrite Hloop.
    change (content (produced i))
      with (getRandomValues entropy (12 * i) 12 ++
            aesGcmEncrypt key (getRandomValues entropy (12 * i) 12)
              (chunkData file chunkSize i)).
    rewrite (decryptChunk_authentic decrypt_encrypt)
      by apply getRandomValues_length.
    eexists. split.
    + unfold mbind, action_bind, bind.
      cbn -[getRandomValues chunkData SecureCryptoUtils.calculateHash].
      destruct composite; reflexivity.
    + constructor; [done|by rewrite app_nil_r].
Qed.

Lemma filter_enc_all_produced (indices : list nat) :
  filter (λ f, JS.endsWith (name f) ".enc" = true) (map produced indices)
  = map produced indices.
Proof.
  induction indices as [|i indices IH]; [done|].
  cbn [map]. rewrite filter_cons_True; [by rewrite IH|].
  apply chunkFilename_enc.
Qed.

End Produced.


Lemma zipFile_fresh (entries : list File) (entry : File) :
  name entry ∉ map name entries →
  DownloadManager.zipFile entries entry = entries ++ [entry].
Proof.
  induction entries as [|e entries IH]; [done|].
  intros Hfresh. cbn [DownloadManager.zipFile map] in *.
  apply not_elem_of_cons in Hfresh as [Hne Hfresh].
  destruct (String.eqb_spec (name e) (name entry)) as [Heq|_]; [done|].
  cbn [app]. by rewrite IH.
Qed.

Lemma foldl_zipFile_fresh (entries added : list File) :
  NoDup (map name (entries ++ added)) →
  foldl DownloadManager.zipFile entries added = entries ++ added.
Proof.
  revert entries. induction added as [|entry added IH]; intros entries Hnd.
  - by rewrite app_nil_r.
  - cbn [foldl]. rewrite zipFile_fresh.
    + rewrite IH; [by rewrite <- app_assoc|]. by rewrite <- app_assoc.
    + rewrite map_app, map_cons in Hnd.
      apply NoDup_app in Hnd as (_ & Hdisj & _).
      intros Hin. apply (Hdisj _ Hin). by left.
Qed.

(** X22. [reconstructFromArchiveV0] takes from the metadata of an
    archive only the name and the extension of the file: archives that
    differ in the hash, the hash type, the chunk count, the size or the
    time stamp of their metadata are reconstructed alike, and no
    confirmation is ever asked. *)
Theorem reconstructFromArchiveV0_unverified (cryptoKey : option bytes)
    (archiveFile archiveFile' : Upload) (archive archive' : ArchiveData) :
  archiveData archiveFile = Some archive →
  archiveData archiveFile' = Some archive' →
  archiveChunks archive' = archiveChunks archive →
  originalFileName (archiveMetadata archive')
  = originalFileName (archiveMetadata archive) →
  originalExtension (archiveMetadata archive')
  = originalExtension (archiveMetadata archive) →
  reconstructFromArchiveV0 cryptoKey archiveFile'
  = reconstructFromArchiveV0 cryptoKey archiveFile ∧
  Confirm ∉ (reconstructFromArchiveV0 cryptoKey archiveFile).1.
Proof.
  intros Harchive Harchive' Hchunks Hname Hext.
  unfold reconstructFromArchiveV0, download.
  rewrite Harchive, Harchive', Hchunks, Hname, Hext. split; [done|].
  pose proof (decryptArchived_effects cryptoKey (archiveChunks archive))
    as Hall.
  destruct (decryptArchived cryptoKey (archiveChunks archive)) as [out r].
  cbn [fst] in Hall. rewrite Forall_forall in Hall.
  unfold mbind, action_bind, bind, mret, action_ret, ret, emit.
  destruct r as [decryptedChunks|e]; cbn [fst].
  - intros [Hin|Hin]%elem_of_app; [by apply Hall in Hin|].
    rewrite app_nil_r in Hin. by apply list_elem_of_singleton in Hin.
  - intros Hin. by apply Hall in Hin.
Qed.

(** X23. An archive of the JSON format made by [createZipDownloadV0]
    from the chunks and the metadata of the generator is reconstructed
    by [reconstructFromArchive]: its name routes it to
    [reconstructFromArchiveV0], the numbers of each chunk are read back
    as its bytes, and the original file is downloaded. *)
Theorem archiveV0_round_trip
    (decrypt_encrypt : ∀ key iv plaintext,
       aesGcmDecrypt key iv (aesGcmEncrypt key iv plaintext)
       = Some plaintext)
    (key : bytes) (entropy : nat → byte) (now : Z) (file : File)
    (chunkSize : nat) (maxByteLength : option nat) (userConfirms : bool)
    (archiveJson : bytes) (loadError : Error) (chunks : list Chunk)
    (metadata : FileMetadata) :
  0 < chunkSize →
  encryptFileGenerator (Some key) entropy now file chunkSize
  = (chunks, Ok metadata) →
  ∃ effects,
    reconstructFromArchive (Some key) maxByteLength userConfirms
      (DownloadManager.createZipDownloadV0
         (map FileUploader.chunkFile chunks) metadata archiveJson loadError)
    = (effects, Ok true) ∧
    last effects
    = Some (Download (content file)
              (originalFileName metadata +:+ "_reconstructed." +:+
               originalExtension metadata)).
Proof.
  intros Hpos. rewrite encryptFileGenerator_loaded. cbn zeta.
  set (n := ceilDiv (length (content file)) chunkSize).
  set (fileName := baseNameOf (name file)).
  intros [= <- <-]. rewrite map_map.
  unfold reconstructFromArchive, DownloadManager.createZipDownloadV0.
  cbn [uploaded name originalFileName originalExtension].
  rewrite (endsWith_distinct_last _ "_encrypted_archive.json" ".zip")
    by (done || apply endsWith_app).
  rewrite endsWith_app.
  unfold reconstructFromArchiveV0, download.
  cbn [archiveData archiveMetadata archiveChunks originalFileName
       originalExtension].
  pose proof (decryptArchived_produced decrypt_encrypt key entropy file
                chunkSize fileName (seq 0 n)) as Hrun.
  destruct (decryptArchived _ _) as [out r]. cbn [snd] in Hrun. subst r.
  unfold mbind, action_bind, bind, mret, action_ret, ret, emit.
  rewrite app_nil_r, concat_all_chunkData by done.
  eexists. split; [reflexivity|]. by rewrite last_snoc.
Qed.

(** X24. A container made by [createZipDownload] from the chunks and
    the metadata of the generator holds the metadata entry followed by
    the chunk entries in the order of their indices, no entry replacing
    another; [reconstructFromArchive] routes it by its name to
    [reconstructFromZip], which puts the original bytes together, finds
    the hash matching, asks nothing and downloads the file. *)
Theorem zip_round_trip
    (decrypt_encrypt : ∀ key iv plaintext,
       aesGcmDecrypt key iv (aesGcmEncrypt key iv plaintext)
       = Some plaintext)
    (key : bytes) (entropy : nat → byte) (now : Z) (file : File)
    (chunkSize : nat) (maxByteLength : option nat) (userConfirms : bool)
    (metadataText zipBlob : bytes) (chunks : list Chunk)
    (metadata : FileMetadata) :
  0 < chunkSize →
  encryptFileGenerator (Some key) entropy now file chunkSize
  = (chunks, Ok metadata) →
  let archive :=
    DownloadManager.createZipDownload (map FileUploader.chunkFile chunks)
      metadata metadataText zipBlob in
  zipEntries archive
  = Ok (FileUploader.metadataFile metadata metadataText
        :: map FileUploader.chunkFile chunks) ∧
  ∃ effects,
    reconstructFromArchive (Some key) maxByteLength userConfirms archive
    = (effects, Ok true) ∧
    (Confirm ∉ effects) ∧
    last effects
    = Some (Download (content file)
              (originalFileName metadata +:+ "_reconstructed." +:+
               originalExtension metadata)).
Proof.
  intros Hpos. rewrite encryptFileGenerator_loaded. cbn zeta.
  set (n := ceilDiv (length (content file)) chunkSize).
  set (fileName := baseNameOf (name file)).
  intros [= <- <-]. rewrite map_map.
  match goal with
  | |- context [FileUploader.metadataFile ?m _] => set (metadata := m) in *
  end.
  set (produced := λ i, FileUploader.chunkFile
                          (yielded key entropy file chunkSize fileName i)).
  set (metadataFile := FileUploader.metadataFile metadata metadataText).
  assert (zipEntries
            (DownloadManager.createZipDownload (map produced (seq 0 n))
               metadata metadataText zipBlob)
          = Ok (metadataFile :: map produced (seq 0 n))) as Hentries.
  { unfold DownloadManager.createZipDownload. cbn [zipEntries].
    f_equal. cbn [DownloadManager.zipFile].
    apply (foldl_zipFile_fresh [_]).
    cbn [app map]. apply NoDup_cons. split.
    - intros (f & Heq & (i & -> & _)%list_elem_of_fmap)%list_elem_of_fmap.
      cbn in Heq. pose proof (chunkFilename_enc fileName i) as Henc.
      rewrite <- Heq in Henc. by rewrite metadataName_not_enc in Henc.
    - rewrite <- list_fmap_compose.
      apply NoDup_fmap_2_strong; [|apply NoDup_seq].
      intros i j _ _. apply chunkFilename_inj. }
  split; [done|].
  unfold reconstructFromArchive. rewrite Hentries.
  assert (JS.endsWith
            (name (uploaded
                     (DownloadManager.createZipDownload
                        (map produced (seq 0 n)) metadata metadataText
                        zipBlob))) ".zip" = true) as ->.
  { cbn [DownloadManager.createZipDownload uploaded name].
    change "_encrypted.zip" with ("_encrypted" +:+ ".zip").
    rewrite <- string_app_assoc. apply endsWith_app. }
  unfold reconstructFromZip. cbn [find name metadataFile
    FileUploader.metadataFile].
  rewrite endsWith_app. change (parsed metadataFile) with (Some metadata).
  cbn iota.
  assert (selectChunkFiles (metadataFile :: map produced (seq 0 n))
          = map produced (seq 0 n)) as ->.
  { unfold selectChunkFiles. rewrite filter_cons_False; last first.
    { cbn. by rewrite metadataName_not_enc. }
    unfold produced. rewrite filter_enc_all_produced.
    apply sortBy_id, produced_sorted. }
  destruct (decryptEntries_produced decrypt_encrypt key entropy file
              chunkSize fileName (isComposite metadata) (seq 0 n))
    as (effects & Hloop & Hall).
  fold produced in Hloop. rewrite Hloop.
  change (isComposite metadata) with true.
  unfold mbind at 1. unfold action_bind at 1. unfold bind at 1.
  cbn beta iota.
  change (hash metadata)
    with (SecureCryptoUtils.calculateHash
            (JS.encode
               (JS.join
                  (map (λ i, SecureCryptoUtils.calculateHash
                               (chunkData file chunkSize i)) (seq 0 n))))).
  unfold mbind, action_bind, bind, mret, action_ret, ret, download, emit.
  rewrite String.eqb_refl. cbn [negb app].
  rewrite concat_all_chunkData by done.
  eexists. split; [reflexivity|]. split.
  - intros [Hin|Hin]%elem_of_app.
    + rewrite Forall_forall in Hall. by apply Hall in Hin.
    + by apply list_elem_of_singleton in Hin.
  - by rewrite last_snoc.
Qed.

End Archives.

(** ** The reconstruction handler *)

Section Handler.
Context `{WebCrypto}.
Import FileReconstructionService.

Abbreviation isArchiveName :=
  (λ f : Upload, JS.endsWith (name (uploaded f)) "_encrypted_archive.json").

Lemma find_archive_readings (files files' : list Upload) :
  map uploaded files' = map uploaded files →
  map archiveData files' = map archiveData files →
  match find isArchiveName files', find isArchiveName files with
  | Some archiveFile', Some archiveFile =>
      uploaded archiveFile' = uploaded archiveFile ∧
      archiveData archiveFile' = archiveData archiveFile
  | None, None => True
  | _, _ => False
  end.
Proof.
  revert files'. induction files as [|f files IH]; intros [|f' files'];
    try done.
  cbn [map find]. intros [= Hf Hfiles] [= Hd Hdata]. rewrite Hf.
  destruct (JS.endsWith (name (uploaded f)) "_encrypted_archive.json");
    [done|by apply IH].
Qed.

Lemma reconstructFromArchive_json (cryptoKey : option bytes)
    (maxByteLength : option nat) (userConfirms : bool)
    (archiveFile : Upload) :
  isArchiveName archiveFile = true →
  reconstructFromArchive cryptoKey maxByteLength userConfirms archiveFile
  = reconstructFromArchiveV0 cryptoKey archiveFile.
Proof.
  intros Hname. unfold reconstructFromArchive.
  by rewrite (endsWith_distinct_last _ "_encrypted_archive.json" ".zip"),
    Hname.
Qed.

(** X25. [handleFileReconstruction] never reads a selected file as a
    container: what it does is settled by the names, the bytes and the
    JSON readings of the selection, so that selections which differ
    only in what [JSZip.loadAsync] would list for their files are
    handled alike. A file it passes to [reconstructFromArchive] has
    the name of a JSON archive, which routes it to
    [reconstructFromArchiveV0]. *)
Theorem handleFileReconstruction_ignores_containers
    (cryptoKey : option bytes) (maxByteLength : option nat)
    (userConfirms isInitialized : bool) (files files' : list Upload) :
  map uploaded files' = map uploaded files →
  map archiveData files' = map archiveData files →
  Handlers.handleFileReconstruction cryptoKey maxByteLength userConfirms
    isInitialized files'
  = Handlers.handleFileReconstruction cryptoKey maxByteLength userConfirms
      isInitialized files.
Proof.
  intros Hfiles Hdata. unfold Handlers.handleFileReconstruction.
  assert (length files' = length files) as ->.
  { by rewrite <- (length_map uploaded files'), Hfiles, length_map. }
  destruct ((length files =? 0) || negb isInitialized); [done|].
  pose proof (find_archive_readings files files' Hfiles Hdata) as Hfind.
  destruct (find isArchiveName files') as [archiveFile'|] eqn:Hfind';
    destruct (find isArchiveName files) as [archiveFile|] eqn:Hfind0;
    try done.
  - destruct Hfind as [_ Hsame].
    apply find_some in Hfind' as [_ Hname'].
    apply find_some in Hfind0 as [_ Hname].
    rewrite !reconstructFromArchive_json by done.
    unfold reconstructFromArchiveV0. by rewrite Hsame.
  - by rewrite Hfiles.
Qed.

(** X26. The container that [createZipDownload] hands out cannot be
    given back to the handler: its name ends in ['_encrypted.zip'], not
    in ['_encrypted_archive.json'], so the handler treats the selection
    as loose chunk files and reports 'Metadata file not found', having
    decrypted and downloaded nothing. *)
Theorem handleFileReconstruction_zip_selection (cryptoKey : option bytes)
    (maxByteLength : option nat) (userConfirms : bool)
    (chunks : list File) (metadata : FileMetadata)
    (metadataText zipBlob : bytes) :
  Handlers.handleFileReconstruction cryptoKey maxByteLength userConfirms
    true
    [DownloadManager.createZipDownload chunks metadata metadataText zipBlob]
  = ([], Some (Handlers.ReconstructionFailed MetadataNotFound)).
Proof.
  unfold Handlers.handleFileReconstruction,
    DownloadManager.createZipDownload.
  cbn [length Nat.eqb negb orb find map uploaded name].
  assert (JS.endsWith (originalFileName metadata +:+ "_encrypted.zip")
            ".zip" = true) as Hzip.
  { change "_encrypted.zip" with ("_encrypted" +:+ ".zip").
    rewrite <- string_app_assoc. apply endsWith_app. }
  rewrite (endsWith_distinct_last _ ".zip" "_encrypted_archive.json")
    by done.
  unfold reconstructFromChunks. cbn [find name].
  by rewrite (endsWith_distinct_last _ ".zip" "_metadata.json").
Qed.

End Handler.

(** ** The further properties at the symbolic provider *)

Section VaultInstances.
Import SecureKeyManager.

Let provider := Symbolic.provider.
Existing Instance provider.

(** A setup with a password into the empty store, then the lookup with
    that password. *)
Lemma generate_then_getMasterKey_witness :
  hasMasterKey (emptyStore true true true) = false ∧
  generateAndStoreMasterKey Symbolic.entropy 0 (Some "correct horse")
    (emptyStore true true true)
  = (Symbolic.lockedStore, Ok (toHex Symbolic.masterKey)) ∧
  fromHex (toHex Symbolic.masterKey) = Some Symbolic.masterKey ∧
  getMasterKey Symbolic.lockedStore (Some "correct horse")
  = Ok Symbolic.masterKey.
Proof.
  assert (generateAndStoreMasterKey Symbolic.entropy 0 (Some "correct horse")
            (emptyStore true true true)
          = (Symbolic.lockedStore, Ok (toHex Symbolic.masterKey))) as Hgen
    by (vm_compute; reflexivity).
  split; [reflexivity|]. split; [exact Hgen|].
  exact (generate_then_getMasterKey symbolic_decrypt_encrypt Symbolic.entropy
           0%Z (Some "correct horse") (emptyStore true true true)
           Symbolic.lockedStore (toHex Symbolic.masterKey) eq_refl Hgen).
Defined.

(** A generation with a password over the store of a setup without
    one. *)
Lemma generate_shadowed_by_plain_record_witness :
  ∃ keyInfo st' hexKey,
    getItem Symbolic.plainStore plainStorageKey = Some (Json keyInfo) ∧
    encrypted keyInfo = false ∧
    fromHex (data keyInfo) = Some Symbolic.masterKey ∧
    is_Some (givenPassword (Some "correct horse")) ∧
    generateAndStoreMasterKey Symbolic.entropy' 1 (Some "correct horse")
      Symbolic.plainStore = (st', Ok hexKey) ∧
    fromHex hexKey ≠ Some Symbolic.masterKey ∧
    getMasterKey st' (Some "correct horse") = Ok Symbolic.masterKey ∧
    getMasterKey st' None = Ok Symbolic.masterKey.
Proof.
  destruct (generateAndStoreMasterKey Symbolic.entropy' 1
              (Some "correct horse") Symbolic.plainStore) as [st' r] eqn:Hgen.
  assert (r = Ok (toHex (getRandomValues Symbolic.entropy' 0 32))) as ->.
  { pose proof (f_equal snd Hgen) as Hr. cbn [snd] in Hr. rewrite <- Hr.
    vm_compute. reflexivity. }
  eexists _, st', _.
  split; [vm_compute; reflexivity|]. split; [reflexivity|].
  split; [vm_compute; reflexivity|]. split; [by eexists|].
  split; [reflexivity|]. split; [vm_compute; discriminate|].
  pose proof (generate_shadowed_by_plain_record Symbolic.entropy' 1%Z
                (Some "correct horse") Symbolic.plainStore st' _ _
                Symbolic.masterKey
                ltac:(vm_compute; reflexivity) eq_refl
                ltac:(vm_compute; reflexivity)
                (ex_intro _ "correct horse" eq_refl) Hgen)
    as (_ & _ & Hall).
  split; apply Hall.
Defined.

(** A setup with one password, then an unlock with another. *)
Lemma unlock_with_wrong_password_witness :
  hasMasterKey (emptyStore true true true) = false ∧
  "correct horse" ≠ "" ∧
  generateAndStoreMasterKey Symbolic.entropy 0 (Some "correct horse")
    (emptyStore true true true)
  = (Symbolic.lockedStore, Ok (toHex Symbolic.masterKey)) ∧
  getMasterKey Symbolic.lockedStore (Some "wrong") = Err KeyNotFound ∧
  SecureCryptoUtils.initialize Symbolic.entropy' 1 (Some "wrong")
    Symbolic.lockedStore
  = (Symbolic.lockedStore, Err InitializationFailed).
Proof.
  assert (generateAndStoreMasterKey Symbolic.entropy 0 (Some "correct horse")
            (emptyStore true true true)
          = (Symbolic.lockedStore, Ok (toHex Symbolic.masterKey))) as Hgen
    by (vm_compute; reflexivity).
  split; [reflexivity|]. split; [discriminate|]. split; [exact Hgen|].
  destruct (unlock_with_wrong_password Symbolic.entropy 0%Z "correct horse"
              "wrong" (emptyStore true true true) Symbolic.lockedStore
              (toHex Symbolic.masterKey) eq_refl ltac:(discriminate) Hgen
              ltac:(vm_compute; reflexivity))
    as [Hget Hinit].
  split; [exact Hget|apply Hinit].
Defined.

(** A setup with a password, then an export. *)
Lemma export_fails_on_protected_store_witness :
  hasMasterKey (emptyStore true true true) = false ∧
  is_Some (givenPassword (Some "correct horse")) ∧
  generateAndStoreMasterKey Symbolic.entropy 0 (Some "correct horse")
    (emptyStore true true true)
  = (Symbolic.lockedStore, Ok (toHex Symbolic.masterKey)) ∧
  hasMasterKey Symbolic.lockedStore = true ∧
  exportKeyForBackup Symbolic.entropy' 1 "open" Symbolic.lockedStore
  = Err KeyNotFound.
Proof.
  assert (generateAndStoreMasterKey Symbolic.entropy 0 (Some "correct horse")
            (emptyStore true true true)
          = (Symbolic.lockedStore, Ok (toHex Symbolic.masterKey))) as Hgen
    by (vm_compute; reflexivity).
  split; [reflexivity|]. split; [by eexists|]. split; [exact Hgen|].
  destruct (export_fails_on_protected_store Symbolic.entropy 0%Z
              (Some "correct horse") (emptyStore true true true)
              Symbolic.lockedStore (toHex Symbolic.masterKey) eq_refl
              (ex_intro _ "correct horse" eq_refl) Hgen)
    as [Hhas Hexport].
  split; [exact Hhas|apply Hexport].
Defined.


(** A backup of the key of [plainStore], imported into a store whose
    secondary store cannot be opened. *)
Lemma import_fails_after_storing_witness :
  getMasterKey Symbolic.plainStore None = Ok Symbolic.masterKey ∧
  storageWritable (emptyStore false true true) = true ∧
  indexedDB (emptyStore false true true) = None ∧
  ∃ backupString st0',
    exportKeyForBackup Symbolic.entropy 1 "open" Symbolic.plainStore
    = Ok backupString ∧
    importKeyFromBackup 2 backupString "open" (emptyStore false true true)
    = (st0', Err ImportFailed) ∧
    getMasterKey st0' None = Ok Symbolic.masterKey ∧
    hasMasterKey st0' = true.
Proof.
  assert (getMasterKey Symbolic.plainStore None = Ok Symbolic.masterKey)
    as Hkey by (vm_compute; reflexivity).
  split; [exact Hkey|]. split; [reflexivity|]. split; [reflexivity|].
  exact (import_fails_after_storing symbolic_decrypt_encrypt
           Symbolic.plainStore (emptyStore false true true)
           Symbolic.masterKey "open" Symbolic.entropy 1%Z 2%Z Hkey eq_refl
           eq_refl).
Defined.

(** The empty store. *)
Lemma getMasterKey_without_record_witness :
  hasMasterKey (emptyStore true true true) = false ∧
  getMasterKey (emptyStore true true true) (Some "correct horse")
  = Err KeyNotFound ∧
  exportKeyForBackup Symbolic.entropy 0 "open" (emptyStore true true true)
  = Err KeyNotFound.
Proof.
  split; [reflexivity|].
  destruct (getMasterKey_without_record (emptyStore true true true) eq_refl)
    as [Hget Hexport].
  split; [apply Hget|apply Hexport].
Defined.

(** The first [initialize] on the empty store, and a second one. *)
Lemma initialize_first_run_witness :
  hasMasterKey (emptyStore true true true) = false ∧
  secureContext (emptyStore true true true) = true ∧
  storageWritable (emptyStore true true true) = true ∧
  ∃ st',
    SecureCryptoUtils.initialize Symbolic.entropy 0 (Some "correct horse")
      (emptyStore true true true) = (st', Ok Symbolic.masterKey) ∧
    SecureCryptoUtils.initialize Symbolic.entropy' 1 (Some "correct horse")
      st' = (st', Ok Symbolic.masterKey).
Proof.
  split; [reflexivity|]. split; [reflexivity|]. split; [reflexivity|].
  destruct (proj1 (initialize_first_run symbolic_decrypt_encrypt
                     Symbolic.entropy 0%Z (Some "correct horse")
                     (emptyStore true true true) eq_refl) eq_refl eq_refl)
    as (st' & Hfirst & Hlater).
  exists st'. split; [exact Hfirst|apply Hlater].
Defined.

(** A store whose only record is broken text. *)
Lemma initialize_on_unreadable_records_witness :
  hasMasterKey Symbolic.corruptStore = true ∧
  getMasterKey Symbolic.corruptStore (Some "correct horse")
  = Err KeyNotFound ∧
  SecureCryptoUtils.initialize Symbolic.entropy 0 (Some "correct horse")
    Symbolic.corruptStore
  = (Symbolic.corruptStore, Err InitializationFailed).
Proof.
  split; [reflexivity|].
  apply (initialize_on_unreadable_records Symbolic.entropy 0%Z
           (Some "correct horse") Symbolic.corruptStore eq_refl);
    intros key t Hkey; apply list_elem_of_In in Hkey;
    destruct Hkey as [<-|[<-|[]]]; vm_compute; intros Ht;
    try discriminate Ht; injection Ht as <-; by eexists.
Defined.

(** A backup of the key of [plainStore], imported into a store whose
    secondary store cannot be opened, then unlocked with a password
    that was never set. *)
Lemma imported_key_needs_no_password_witness :
  length Symbolic.masterKey = 32 ∧
  getMasterKey Symbolic.plainStore None = Ok Symbolic.masterKey ∧
  storageWritable (emptyStore false true true) = true ∧
  ∃ backupString st0' r,
    exportKeyForBackup Symbolic.entropy 1 "open" Symbolic.plainStore
    = Ok backupString ∧
    importKeyFromBackup 2 backupString "open" (emptyStore false true true)
    = (st0', r) ∧
    SecureCryptoUtils.initialize Symbolic.entropy' 3 (Some "anything") st0'
    = (st0', Ok Symbolic.masterKey).
Proof.
  assert (getMasterKey Symbolic.plainStore None = Ok Symbolic.masterKey)
    as Hkey by (vm_compute; reflexivity).
  split; [reflexivity|]. split; [exact Hkey|]. split; [reflexivity|].
  destruct (imported_key_needs_no_password symbolic_decrypt_encrypt
              Symbolic.plainStore (emptyStore false true true)
              Symbolic.masterKey "open" Symbolic.entropy 1%Z 2%Z eq_refl
              Hkey eq_refl)
    as (backupString & st0' & r & Hexport & Himport & Hany).
  exists backupString, st0', r. split; [exact Hexport|].
  split; [exact Himport|]. apply Hany.
Defined.

End VaultInstances.

Section FileInstances.
Import FileEncryptionService FileReconstructionService.

Let provider := Symbolic.provider.
Existing Instance provider.

(** Five bytes in chunks of two. *)
Lemma splitIntoChunks_combineChunks_witness :
  0 < 2 ∧
  SecureCryptoUtils.splitIntoChunks [x01; x02; x03; x04; x05] 2
  = Some [[x01; x02]; [x03; x04]; [x05]] ∧
  SecureCryptoUtils.combineChunks None [[x01; x02]; [x03; x04]; [x05]]
  = Ok [x01; x02; x03; x04; x05].
Proof.
  split; [lia|].
  destruct (splitIntoChunks_combineChunks [x01; x02; x03; x04; x05] 2
              (Nat.lt_0_succ 1))
    as (chunks & Hsplit & Hcombine & _).
  vm_compute in Hsplit. injection Hsplit as <-. split; [reflexivity|].
  exact Hcombine.
Defined.

(** One byte and a chunk size of zero. *)
Lemma splitIntoChunks_zero_chunkSize_witness :
  [x01] ≠ [] ∧
  SecureCryptoUtils.splitLoop 1000 [x01] 0 0 [] = None ∧
  SecureCryptoUtils.splitIntoChunks [x01] 0 = None.
Proof.
  assert ([x01] ≠ []) as Hne by discriminate.
  split; [exact Hne|].
  destruct (splitIntoChunks_zero_chunkSize [x01] Hne) as [Hloop Hsplit].
  split; [apply Hloop|exact Hsplit].
Defined.

(** Two bytes under the symbolic cipher. *)
Lemma encryptChunk_decryptChunk_witness :
  ∃ encrypted,
    SecureCryptoUtils.encryptChunk (Some Symbolic.masterKey)
      Symbolic.entropy 0 [x68; x69] = Ok encrypted ∧
    (SecureCryptoUtils.decryptChunk (Some Symbolic.masterKey) encrypted).2
    = Ok [x68; x69].
Proof.
  destruct (encryptChunk_decryptChunk symbolic_decrypt_encrypt
              Symbolic.masterKey Symbolic.entropy 0 [x68; x69])
    as (encrypted & Henc & _ & _ & Hdec).
  by exists encrypted.
Defined.

(** The names ["report.pdf"], ["report"] and ["report."]. *)
Lemma file_name_parts_witness :
  JS.contains "." "report" = false ∧
  JS.contains "." "pdf" = false ∧
  extensionOf "report.pdf" = "pdf" ∧
  baseNameOf "report.pdf" = "report" ∧
  extensionOf "report" = "report" ∧
  baseNameOf "report" = "report" ∧
  extensionOf "report." = "bin" ∧
  baseNameOf "report." = "report.".
Proof.
  split; [reflexivity|]. split; [reflexivity|].
  destruct (file_name_parts "report" "pdf" eq_refl eq_refl)
    as (Hext & Hnone & Hdot & Hbase).
  destruct (Hext ltac:(discriminate)) as [? ?].
  destruct (Hnone ltac:(discriminate)) as [? ?].
  by repeat split.
Defined.

(** The chunks of [sample] in chunks of two bytes. *)
Lemma generator_chunk_names_witness :
  0 < 2 ∧
  ∃ chunks metadata,
    encryptFileGenerator (Some Symbolic.masterKey) Symbolic.entropy 0
      Symbolic.sample 2 = (chunks, Ok metadata) ∧
    map filename chunks
    = ["report_chunk_0000.enc"; "report_chunk_0001.enc";
       "report_chunk_0002.enc"] ∧
    NoDup (map filename chunks).
Proof.
  split; [lia|].
  destruct (encryptFileGenerator (Some Symbolic.masterKey) Symbolic.entropy
              0 Symbolic.sample 2) as [chunks r] eqn:Hgen.
  assert (∃ metadata, r = Ok metadata) as [metadata ->].
  { pose proof (f_equal snd Hgen) as Hr. cbn [snd] in Hr. rewrite <- Hr.
    vm_compute. by eexists. }
  exists chunks, metadata. split; [reflexivity|]. split.
  - pose proof (f_equal fst Hgen) as Hc. cbn [fst] in Hc. rewrite <- Hc.
    vm_compute. reflexivity.
  - exact (proj1 (proj2 (proj2 (proj2
             (generator_chunk_names Symbolic.masterKey Symbolic.entropy 0%Z
                Symbolic.sample 2 chunks metadata (Nat.lt_0_succ 1)
                Hgen))))).
Defined.

(** The written files of [sample], selected in the reverse order. *)
Lemma reconstruct_from_any_selection_order_witness :
  0 < 2 ∧
  JS.matchChunk (baseNameOf (name Symbolic.sample)) = None ∧
  ∃ chunks metadata effects result,
    encryptFileGenerator (Some Symbolic.masterKey) Symbolic.entropy 0
      Symbolic.sample 2 = (chunks, Ok metadata) ∧
    reconstructFromChunks (Some Symbolic.masterKey) None false
      (reverse (map FileUploader.chunkFile chunks
                ++ [FileUploader.metadataFile metadata []]))
    = (effects, Ok result) ∧
    concat (reconstructed result) = content Symbolic.sample ∧
    hashMatch result = true.
Proof.
  split; [lia|]. split; [reflexivity|].
  destruct (encryptFileGenerator (Some Symbolic.masterKey) Symbolic.entropy
              0 Symbolic.sample 2) as [chunks r] eqn:Hgen.
  assert (∃ metadata, r = Ok metadata) as [metadata ->].
  { pose proof (f_equal snd Hgen) as Hr. cbn [snd] in Hr. rewrite <- Hr.
    vm_compute. by eexists. }
  destruct (reconstruct_from_any_selection_order symbolic_decrypt_encrypt
              Symbolic.masterKey Symbolic.entropy 0%Z Symbolic.sample 2 None
              false [] chunks metadata
              (reverse (map FileUploader.chunkFile chunks
                        ++ [FileUploader.metadataFile metadata []]))
              (Nat.lt_0_succ 1) eq_refl Hgen (reverse_Permutation _))
    as (effects & result & Hrun & Hbytes & Hmatch & _).
  by exists chunks, metadata, effects, result.
Defined.

(** The two chunk files of [numbered], the second selected first. *)
Lemma reconstruct_in_selection_order_witness :
  0 < 2 ∧
  JS.matchChunk (baseNameOf (name Symbolic.numbered)) = Some "7" ∧
  ∃ chunks metadata effects result,
    encryptFileGenerator (Some Symbolic.masterKey) Symbolic.entropy 0
      Symbolic.numbered 2 = (chunks, Ok metadata) ∧
    length [1; 0] = totalChunks metadata ∧
    reconstructFromChunks (Some Symbolic.masterKey) None true
      (map (λ i, FileUploader.chunkFile
                   (yielded Symbolic.masterKey Symbolic.entropy
                      Symbolic.numbered 2
                      (baseNameOf (name Symbolic.numbered)) i)) [1; 0]
       ++ [FileUploader.metadataFile metadata []])
    = (effects, Ok result) ∧
    reconstructed result = [[x0c]; [x0a; x0b]].
Proof.
  split; [lia|]. split; [reflexivity|].
  destruct (encryptFileGenerator (Some Symbolic.masterKey) Symbolic.entropy
              0 Symbolic.numbered 2) as [chunks r] eqn:Hgen.
  assert (∃ metadata, r = Ok metadata ∧ totalChunks metadata = 2)
    as (metadata & -> & Hcount).
  { pose proof (f_equal snd Hgen) as Hr. cbn [snd] in Hr. rewrite <- Hr.
    vm_compute. by eexists. }
  destruct (reconstruct_in_selection_order symbolic_decrypt_encrypt
              Symbolic.masterKey Symbolic.entropy 0%Z Symbolic.numbered 2
              None [] chunks metadata "7" [1; 0] (Nat.lt_0_succ 1) eq_refl
              Hgen (eq_sym Hcount))
    as (_ & effects & result & Hrun & Hbytes).
  exists chunks, metadata, effects, result.
  split; [reflexivity|]. split; [by rewrite Hcount|]. split; [exact Hrun|].
  exact Hbytes.
Defined.

(** The earlier [encryptFile] on [sample], on a platform that cannot
    allocate the combined buffer. *)
Lemma encryptFile_round_trip_witness :
  0 < 2 ∧
  ∃ encryptedChunks metadata effects result,
    encryptFile (Some Symbolic.masterKey) Symbolic.entropy 0
      Symbolic.sample 2 [] = Some (encryptedChunks, metadata) ∧
    reconstructFromChunks (Some Symbolic.masterKey) (Some 1) false
      encryptedChunks = (effects, Ok result) ∧
    concat (reconstructed result) = content Symbolic.sample ∧
    hashMatch result = true.
Proof.
  split; [lia|].
  destruct (encryptFile_round_trip symbolic_decrypt_encrypt
              Symbolic.masterKey Symbolic.entropy 0%Z Symbolic.sample 2 []
              (Some 1) false (Nat.lt_0_succ 1))
    as (encryptedChunks & metadata & effects & result & Henc & _ & _ & _
        & Hrun & Hbytes & Hmatch & _).
  by exists encryptedChunks, metadata, effects, result.
Defined.

(** [sample] without a loaded key. *)
Lemma encryptFile_swallows_errors_witness :
  0 < 2 ∧
  content Symbolic.sample ≠ [] ∧
  encryptFileGenerator None Symbolic.entropy 0 Symbolic.sample 2
  = ([], Err NotInitialized) ∧
  ∃ metadataFile metadata,
    encryptFile None Symbolic.entropy 0 Symbolic.sample 2 []
    = Some ([metadataFile], metadata) ∧
    reconstructFromChunks (Some Symbolic.masterKey) None true [metadataFile]
    = ([], Err (ChunkCountMismatch (totalChunks metadata) 0)).
Proof.
  assert (content Symbolic.sample ≠ []) as Hne by discriminate.
  split; [lia|]. split; [exact Hne|].
  destruct (encryptFile_swallows_errors Symbolic.entropy 0%Z Symbolic.sample
              2 [] (Nat.lt_0_succ 1) Hne)
    as (Hgen & metadataFile & metadata & Henc & _ & _ & Hrun).
  split; [exact Hgen|]. exists metadataFile, metadata.
  split; [exact Henc|apply Hrun].
Defined.

(** Two archives with the same chunk, one stating another hash and
    another count. *)
Lemma reconstructFromArchiveV0_unverified_witness :
  reconstructFromArchiveV0 (Some Symbolic.masterKey)
    (Symbolic.jsonArchive "ffff" 9)
  = reconstructFromArchiveV0 (Some Symbolic.masterKey)
      (Symbolic.jsonArchive "0000" 1) ∧
  (reconstructFromArchiveV0 (Some Symbolic.masterKey)
     (Symbolic.jsonArchive "0000" 1)).2 = Ok true.
Proof.
  split; [|vm_compute; reflexivity].
  exact (proj1 (reconstructFromArchiveV0_unverified
                  (Some Symbolic.masterKey) (Symbolic.jsonArchive "0000" 1)
                  (Symbolic.jsonArchive "ffff" 9) _ _ eq_refl eq_refl
                  eq_refl eq_refl eq_refl)).
Defined.

(** The JSON archive of [sample]. *)
Lemma archiveV0_round_trip_witness :
  0 < 2 ∧
  ∃ chunks metadata effects,
    encryptFileGenerator (Some Symbolic.masterKey) Symbolic.entropy 0
      Symbolic.sample 2 = (chunks, Ok metadata) ∧
    reconstructFromArchive (Some Symbolic.masterKey) None false
      (DownloadManager.createZipDownloadV0
         (map FileUploader.chunkFile chunks) metadata [] DataError)
    = (effects, Ok true) ∧
    last effects
    = Some (Download (content Symbolic.sample) "report_reconstructed.pdf").
Proof.
  split; [lia|].
  destruct (encryptFileGenerator (Some Symbolic.masterKey) Symbolic.entropy
              0 Symbolic.sample 2) as [chunks r] eqn:Hgen.
  assert (∃ metadata, r = Ok metadata ∧
            originalFileName metadata +:+ "_reconstructed." +:+
            originalExtension metadata = "report_reconstructed.pdf")
    as (metadata & -> & Hname).
  { pose proof (f_equal snd Hgen) as Hr. cbn [snd] in Hr. rewrite <- Hr.
    vm_compute. by eexists. }
  destruct (archiveV0_round_trip symbolic_decrypt_encrypt Symbolic.masterKey
              Symbolic.entropy 0%Z Symbolic.sample 2 None false [] DataError
              chunks metadata (Nat.lt_0_succ 1) Hgen)
    as (effects & Hrun & Hlast).
  exists chunks, metadata, effects.
  split; [reflexivity|]. split; [exact Hrun|]. by rewrite <- Hname.
Defined.

(** The container of [sample]. *)
Lemma zip_round_trip_witness :
  0 < 2 ∧
  ∃ chunks metadata effects,
    encryptFileGenerator (Some Symbolic.masterKey) Symbolic.entropy 0
      Symbolic.sample 2 = (chunks, Ok metadata) ∧
    reconstructFromArchive (Some Symbolic.masterKey) None false
      (DownloadManager.createZipDownload
         (map FileUploader.chunkFile chunks) metadata [] [])
    = (effects, Ok true) ∧
    (Confirm ∉ effects) ∧
    last effects
    = Some (Download (content Symbolic.sample) "report_reconstructed.pdf").
Proof.
  split; [lia|].
  destruct (encryptFileGenerator (Some Symbolic.masterKey) Symbolic.entropy
              0 Symbolic.sample 2) as [chunks r] eqn:Hgen.
  assert (∃ metadata, r = Ok metadata ∧
            originalFileName metadata +:+ "_reconstructed." +:+
            originalExtension metadata = "report_reconstructed.pdf")
    as (metadata & -> & Hname).
  { pose proof (f_equal snd Hgen) as Hr. cbn [snd] in Hr. rewrite <- Hr.
    vm_compute. by eexists. }
  destruct (zip_round_trip symbolic_decrypt_encrypt Symbolic.masterKey
              Symbolic.entropy 0%Z Symbolic.sample 2 None false [] []
              chunks metadata (Nat.lt_0_succ 1) Hgen)
    as (_ & effects & Hrun & Hquiet & Hlast).
  exists chunks, metadata, effects.
  split; [reflexivity|]. split; [exact Hrun|]. split; [exact Hquiet|].
  by rewrite <- Hname.
Defined.

(** A JSON archive, and the same file with a container reading. *)
Lemma handleFileReconstruction_ignores_containers_witness :
  Handlers.handleFileReconstruction (Some Symbolic.masterKey) None false true
    [ {| uploaded := uploaded (Symbolic.jsonArchive "0000" 1);
         archiveData := archiveData (Symbolic.jsonArchive "0000" 1);
         zipEntries := Ok Symbolic.sampleSet |} ]
  = Handlers.handleFileReconstruction (Some Symbolic.masterKey) None false
      true [Symbolic.jsonArchive "0000" 1].
Proof.
  exact (handleFileReconstruction_ignores_containers
           (Some Symbolic.masterKey) None false true
           [Symbolic.jsonArchive "0000" 1]
           [ {| uploaded := uploaded (Symbolic.jsonArchive "0000" 1);
                archiveData := archiveData (Symbolic.jsonArchive "0000" 1);
                zipEntries := Ok Symbolic.sampleSet |} ]
           eq_refl eq_refl).
Defined.

(** The six files of [sampleSet] in batches of four. *)
Lemma downloadInBatches_each_once_witness :
  0 < 4 ∧
  ∃ batches,
    DownloadManager.downloadInBatches Symbolic.sampleSet 4 = Some batches ∧
    map DownloadManager.scheduledFile (concat batches) = Symbolic.sampleSet ∧
    map (map DownloadManager.scheduledDelay) batches
    = [[0; 200; 400; 600]; [0; 200]].
Proof.
  split; [lia|].
  destruct (downloadInBatches_each_once Symbolic.sampleSet 4
              (Nat.lt_0_succ 3))
    as (batches & Hrun & Hfiles & _).
  exists batches. split; [exact Hrun|]. split; [exact Hfiles|].
  vm_compute in Hrun. injection Hrun as <-. reflexivity.
Defined.

End FileInstances.
